(** * The date-chunked, quota-resilient YouTube fetcher (lib/youtube-service.ts)

    A shallow embedding of [YouTubeService]: [parseDuration],
    [removeDuplicateVideos], [fetchVideosByDateRange], [searchVideos] and
    [getVideoDetails], together with the small part of the JavaScript
    runtime they rely on ([parseInt], [String.prototype.match] for the one
    regular expression of the file, [Array.prototype.slice], the [Set] of
    strings).

    Conventions of the embedding.
    - A JavaScript string is a Rocq [string]; every character stands for one
      code unit below 256.
    - A JavaScript number is a [jsnum]: [NaN], an infinity or an integer.
      The numbers that the service computes come from [parseInt], [*] and
      [+], so they are never fractions; each of these operations rounds its
      exact result to the nearest double ([to_double]).  The two zeros are
      one number here.  Counts of records are lengths of arrays, and the
      arithmetic on them is exact.
    - An instant (a luxon [DateTime]) is its epoch time in milliseconds.
    - [undefined], [null] and an absent property are [None], except where
      the code tells them apart ([SearchResult]). *)

From Stdlib Require Import ZArith Ascii.
From Stdlib Require Floats.SpecFloat.
From stdpp Require Import base list strings gmap.

Local Open Scope Z_scope.

(** ** JavaScript numbers *)

Inductive jsnum : Type :=
  | NaN : jsnum
  | Num : Z -> jsnum
  | Infinity : jsnum
  | NegInfinity : jsnum.

Definition infinity_of (negative : bool) : jsnum :=
  if negative then NegInfinity else Infinity.

(** The Number value for an integer [x] (ECMA-262, 6.1.6.1): [x] itself
    when it has at most 53 significant bits; otherwise its 53 leading bits,
    rounded to nearest with ties to the even significand; an infinity from
    [2^1024] on. *)
Definition to_double (x : Z) : jsnum :=
  let a := Z.abs x in
  if a <? 2 ^ 53 then Num x
  else
    let shift := Z.log2 a - 52 in
    let significand := Z.shiftr a shift in
    let remainder := Z.land a (Z.ones shift) in
    let half := Z.shiftl 1 (shift - 1) in
    let significand' :=
      if (half <? remainder) || ((remainder =? half) && Z.odd significand)
      then significand + 1 else significand in
    let rounded := Z.shiftl significand' shift in
    if 2 ^ 1024 <=? rounded then infinity_of (x <? 0)
    else Num (Z.sgn x * rounded).

(** The same number by the IEEE 754 arithmetic of the Standard Library
    ([binary64]: 53 bits of precision, exponents below 1024). *)
Definition jsnum_of_float (f : SpecFloat.spec_float) : jsnum :=
  match f with
  | SpecFloat.S754_zero _ => Num 0
  | SpecFloat.S754_infinity negative => infinity_of negative
  | SpecFloat.S754_nan => NaN
  | SpecFloat.S754_finite negative m e =>
      Num ((if negative then -1 else 1) * Z.shiftl (Z.pos m) e)
  end.

Definition to_double_ieee (x : Z) : jsnum :=
  jsnum_of_float (SpecFloat.binary_normalize 53 1024 x 0 false).

Definition jsnum_negative (a : jsnum) : bool :=
  match a with
  | Num x => x <? 0
  | NegInfinity => true
  | _ => false
  end.

(** [a + b] *)
Definition jsnum_add (a b : jsnum) : jsnum :=
  match a, b with
  | NaN, _ | _, NaN => NaN
  | Num x, Num y => to_double (x + y)
  | Infinity, NegInfinity | NegInfinity, Infinity => NaN
  | Infinity, _ | _, Infinity => Infinity
  | NegInfinity, _ | _, NegInfinity => NegInfinity
  end.

(** [a * b] *)
Definition jsnum_mul (a b : jsnum) : jsnum :=
  match a, b with
  | NaN, _ | _, NaN => NaN
  | Num x, Num y => to_double (x * y)
  | Num x, _ | _, Num x =>
      if x =? 0 then NaN
      else infinity_of (xorb (jsnum_negative a) (jsnum_negative b))
  | _, _ => infinity_of (xorb (jsnum_negative a) (jsnum_negative b))
  end.

(** "a non-negative integer" *)
Definition nonneg_int (a : jsnum) : Prop :=
  match a with
  | Num x => 0 <= x
  | _ => False
  end.

(** A non-negative integer or [Infinity]: neither [NaN] nor negative. *)
Definition nonneg_or_infinite (a : jsnum) : Prop :=
  match a with
  | Num x => 0 <= x
  | Infinity => True
  | _ => False
  end.

(** ** Strings *)

Module Str.

Definition code (c : ascii) : Z := Z.of_nat (nat_of_ascii c).

(** [\d] of a JavaScript regular expression: exactly [0-9]. *)
Definition is_digit (c : ascii) : bool := (48 <=? code c) && (code c <=? 57).

(** StrWhiteSpaceChar, for code units below 256: TAB, LF, VT, FF, CR, SP
    and NBSP. *)
Definition is_space (c : ascii) : bool :=
  ((9 <=? code c) && (code c <=? 13)) || (code c =? 32) || (code c =? 160).

(** The value of a character as a digit in some radix up to 36. *)
Definition digit_value (c : ascii) : option Z :=
  let n := code c in
  if (48 <=? n) && (n <=? 57) then Some (n - 48)
  else if (97 <=? n) && (n <=? 122) then Some (n - 87)
  else if (65 <=? n) && (n <=? 90) then Some (n - 55)
  else None.

Fixpoint prefix (p s : string) : bool :=
  match p, s with
  | EmptyString, _ => true
  | String a p', String b s' => if Ascii.eqb a b then prefix p' s' else false
  | String _ _, EmptyString => false
  end.

Fixpoint drop (n : nat) (s : string) : string :=
  match n, s with
  | O, _ => s
  | S n', String _ s' => drop n' s'
  | S _, EmptyString => EmptyString
  end.

(** [s.replace(p, "")] for a string pattern [p]: the first occurrence of
    [p] is removed. *)
Fixpoint remove_first (p s : string) : string :=
  if prefix p s then drop (String.length p) s
  else match s with
       | EmptyString => EmptyString
       | String c s' => String c (remove_first p s')
       end.

(** The longest prefix of digits, and what follows it. *)
Fixpoint span_digits (s : string) : string * string :=
  match s with
  | String c s' =>
      if is_digit c
      then let '(d, r) := span_digits s' in (String c d, r)
      else (EmptyString, s)
  | EmptyString => (EmptyString, EmptyString)
  end.

Fixpoint trim_start (s : string) : string :=
  match s with
  | String c s' => if is_space c then trim_start s' else s
  | EmptyString => EmptyString
  end.

(** [s] occurs in [t]. *)
Definition occurs (s t : string) : Prop :=
  exists a b, t = a +:+ s +:+ b.

(** [s] consists of digits only. *)
Fixpoint digits_only (s : string) : bool :=
  match s with
  | EmptyString => true
  | String c s' => is_digit c && digits_only s'
  end.

End Str.

(** ** [parseInt(string, radix)] (ECMA-262, 19.2.5) *)

(** Step 11-13: the value of the longest prefix of radix-[R] digits, with
    the number of digits read. *)
Fixpoint radix_prefix (R : Z) (s : string) (acc : Z) (read : nat) : Z * nat :=
  match s with
  | String c s' =>
      match Str.digit_value c with
      | Some v => if v <? R then radix_prefix R s' (acc * R + v) (S read)
                  else (acc, read)
      | None => (acc, read)
      end
  | EmptyString => (acc, read)
  end.

Definition strip_sign (s : string) : Z * string :=
  match s with
  | String "-" s' => (-1, s')
  | String "+" s' => (1, s')
  | _ => (1, s)
  end.

Definition has_hex_prefix (s : string) : bool :=
  Str.prefix "0x" s || Str.prefix "0X" s.

(** Step 16 gives the Number value for the integer that the digits denote:
    [to_double] of it.  (For radix 10 the specification also allows the
    digits after the 20th to be read as zeros; the embedding takes the
    rounding of the exact integer.) *)
Definition parseInt (input : string) (radix : option Z) : jsnum :=
  let '(sign, s) := strip_sign (Str.trim_start input) in
  let R := default 0 radix in
  if negb (R =? 0) && ((R <? 2) || (36 <? R)) then NaN
  else
    let strip := (R =? 0) || (R =? 16) in
    let R := if R =? 0 then 10 else R in
    let '(R, s) := if strip && has_hex_prefix s then (16, Str.drop 2 s)
                   else (R, s) in
    match radix_prefix R s 0 O with
    | (_, O) => NaN
    | (v, S _) => to_double (sign * v)
    end.

(** ** Regular expressions

    The fragment of ECMAScript patterns that the service uses: pattern
    characters, a greedy [c+] over a character class, sequences, and greedy
    optional capture groups [(r)?].  Matching is the backtracking matching
    of ECMA-262 (22.2.2): a matcher gets the input that is left, the
    captures so far and a continuation for what follows; when what follows
    fails, the next alternative is tried. *)

Inductive regex : Type :=
  | RChar (c : ascii)
  | RPlus (class : ascii -> bool)
  | RSeq (r1 r2 : regex)
  | ROptGroup (i : nat) (r : regex).

(** Capture [i] is [None] while it is [undefined]. *)
Definition captures : Type := nat -> option string.

Definition no_captures : captures := fun _ => None.

Definition set_capture (i : nat) (txt : option string) (caps : captures) : captures :=
  fun j => if Nat.eqb i j then txt else caps j.

(** The input between [s] and its suffix [s']. *)
Definition consumed (s s' : string) : string :=
  String.substring 0 (String.length s - String.length s') s.

Section Matcher.

Context {A : Type}.

(** [c*], greedy: one more character first, and only when what follows
    fails, none. *)
Fixpoint star_class (class : ascii -> bool) (s : string) (k : string -> option A)
  : option A :=
  match s with
  | String c s' =>
      if class c
      then match star_class class s' k with
           | Some a => Some a
           | None => k s
           end
      else k s
  | EmptyString => k s
  end.

Definition plus_class (class : ascii -> bool) (s : string) (k : string -> option A)
  : option A :=
  match s with
  | String c s' => if class c then star_class class s' k else None
  | EmptyString => None
  end.

Fixpoint rmatch (r : regex) (s : string) (caps : captures)
    (k : string -> captures -> option A) : option A :=
  match r with
  | RChar c =>
      match s with
      | String c' s' => if Ascii.eqb c c' then k s' caps else None
      | EmptyString => None
      end
  | RPlus class => plus_class class s (fun s' => k s' caps)
  | RSeq r1 r2 => rmatch r1 s caps (fun s' caps' => rmatch r2 s' caps' k)
  | ROptGroup i r =>
      match rmatch r s caps
              (fun s' caps' => k s' (set_capture i (Some (consumed s s')) caps')) with
      | Some a => Some a
      | None => k s (set_capture i None caps)
      end
  end.

End Matcher.

(** [s.match(r)] for an expression without the [g] flag: the leftmost
    match, [None] for [null]. *)
Fixpoint regex_exec (r : regex) (s : string) : option captures :=
  match rmatch r s no_captures (fun _ caps => Some caps) with
  | Some caps => Some caps
  | None =>
      match s with
      | String _ s' => regex_exec r s'
      | EmptyString => None
      end
  end.

(** ** [parseDuration] *)

(** [(\d+X)?] as capture group [i]. *)
Definition digits_then (i : nat) (X : ascii) : regex :=
  ROptGroup i (RSeq (RPlus Str.is_digit) (RChar X)).

(** [/PT(\d+H)?(\d+M)?(\d+S)?/] *)
Definition duration_regex : regex :=
  RSeq (RChar "P")
    (RSeq (RChar "T")
       (RSeq (digits_then 1 "H") (RSeq (digits_then 2 "M") (digits_then 3 "S")))).

(** [parseInt(match[i].replace(X, ""))] for a truthy [match[i]];
    [undefined] and the empty string are falsy. *)
Definition group_number (g : option string) (X : string) : option jsnum :=
  match g with
  | Some (String c txt) => Some (parseInt (Str.remove_first X (String c txt)) None)
  | _ => None
  end.

(** [match[i] ? parseInt(match[i].replace(X, "")) * k : 0] *)
Definition group_seconds (g : option string) (X : string) (k : Z) : jsnum :=
  match group_number g X with
  | Some n => jsnum_mul n (Num k)
  | None => Num 0
  end.

Definition parseDuration (duration : string) : jsnum :=
  match regex_exec duration_regex duration with
  | None => Num 0
  | Some m =>
      let hours := group_seconds (m 1%nat) "H" 3600 in
      let minutes := group_seconds (m 2%nat) "M" 60 in
      let seconds := default (Num 0) (group_number (m 3%nat) "S") in
      jsnum_add (jsnum_add hours minutes) seconds
  end.

(** *** The match, read off the expression

    The expression is not anchored, so the match starts at the leftmost
    ["PT"]; every group is optional and greedy, and nothing follows the
    groups, so a group takes part exactly when a non-empty run of digits at
    the current position is followed by its letter. *)

Record duration_match : Type := MkMatch {
  group1 : option string;
  group2 : option string;
  group3 : option string
}.

(** One group [(\d+X)?] at the head of [s]: the captured text (or [None] for
    a group that took no part) and the rest of the input. *)
Definition match_group (X : ascii) (s : string) : option string * string :=
  match Str.span_digits s with
  | (String d ds, String c rest) =>
      if Ascii.eqb c X
      then (Some (String d ds +:+ String X EmptyString), rest)
      else (None, s)
  | _ => (None, s)
  end.

(** The three groups after a matched ["PT"]. *)
Definition match_groups (s : string) : duration_match :=
  let '(g1, s1) := match_group "H" s in
  let '(g2, s2) := match_group "M" s1 in
  let '(g3, _) := match_group "S" s2 in
  MkMatch g1 g2 g3.

(** The same, as captures. *)
Definition group_captures (s : string) : captures :=
  let '(g1, s1) := match_group "H" s in
  let '(g2, s2) := match_group "M" s1 in
  let '(g3, _) := match_group "S" s2 in
  set_capture 3 g3 (set_capture 2 g2 (set_capture 1 g1 no_captures)).

Fixpoint duration_regex_match (s : string) : option duration_match :=
  if Str.prefix "PT" s then Some (match_groups (Str.drop 2 s))
  else match s with
       | EmptyString => None
       | String _ s' => duration_regex_match s'
       end.

(** ** The data model *)

(** [VideoMetadata] (lib/types.ts), with the fields the service fills in. *)
Record VideoMetadata : Type := MkVideoMetadata {
  id : string;
  title : string;
  description : string;
  publishedDate : string;
  durationInSeconds : jsnum;
  viewCount : jsnum;
  url : string;
  thumbnail : string;
  channel_name : string
}.

(** [SearchOptions & { yearsBack?: number }]; [startDate] and [endDate]
    hold the instant that [DateTime.fromISO] reads from the option. *)
Record SearchOptions : Type := MkSearchOptions {
  maxResults : option Z;
  startDate : option Z;
  endDate : option Z;
  yearsBack : option Z;
  order : option string;
  language : option string
}.

(** *** What the provider (googleapis) receives and answers *)

(** The parameters of [youtube.search.list]. *)
Record SearchListParams : Type := MkSearchListParams {
  q : string;
  rp_maxResults : Z;
  rp_order : string;
  regionCode : string;
  relevanceLanguage : string;
  publishedAfter : Z;
  publishedBefore : Z;
  videoDuration : string;
  pageToken : option string
}.

(** One item of a search response: [item.id?.videoId], a
    [string | null | undefined].  [None] is [undefined] (no [id], or no
    [videoId] in it), [Some None] is [null]: the service tells them
    apart. *)
Record SearchResult : Type := MkSearchResult {
  videoId : option (option string)
}.

(** [response.data] of [search.list]. *)
Record SearchListResponse : Type := MkSearchListResponse {
  items : option (list SearchResult);
  nextPageToken : option string
}.

(** One item of a [videos.list] response; a property reached through
    optional chaining ([video.snippet?.title]) is absent when any link of
    the chain is. *)
Record Video : Type := MkVideo {
  video_id : option string;
  snippet_title : option string;
  snippet_description : option string;
  snippet_publishedAt : option string;
  snippet_thumbnails_high_url : option string;
  snippet_channelTitle : option string;
  contentDetails_duration : option string;
  statistics_viewCount : option string
}.

(** [detailsResponse.data.items]. *)
Record VideoListResponse : Type := MkVideoListResponse {
  video_items : option (list Video)
}.

(** What a rejected request throws: [error.response] with its [status] and
    the [reason] of every entry of [data.error.errors] (absent when the
    chain [data?.error?.errors] is). *)
Record ErrorResponse : Type := MkErrorResponse {
  status : Z;
  error_reasons : option (list string)
}.

Record Error : Type := MkError {
  response : option ErrorResponse
}.

(** The provider behind [this.youtube]: each call answers or throws, and
    may change the provider.  [videos.list] gets the ids it is asked for:
    the array of [getVideoDetails], and for [fetchVideosByDateRange] the
    ids between the commas of the string it sends. *)
Class Provider (P : Type) : Type := {
  search_list : SearchListParams -> P -> (Error + SearchListResponse) * P;
  videos_list : list string -> P -> (Error + VideoListResponse) * P
}.

(** The calendar behind luxon's [DateTime]: [plus({days})],
    [minus({years})] and [startOf("day")] on instants. *)
Record Calendar : Type := MkCalendar {
  plus_days : Z -> Z -> Z;
  minus_years : Z -> Z -> Z;
  start_of_day : Z -> Z
}.

(** Adding a positive number of days gives a later instant. *)
Definition advancing (cal : Calendar) : Prop :=
  forall d t, 0 < d -> t < plus_days cal d t.

(** What the service does to the outside world, in order. *)
Inductive event : Type :=
  | EvWait (now resetTime : Z)
  | EvSearchList (params : SearchListParams)
  | EvVideosList (ids : list string).

(** The service object: the provider, the private [quotaExceeded] flag, the
    clock that [DateTime.now()] reads, and the events so far. *)
Record YouTubeService (P : Type) : Type := MkService {
  youtube : P;
  quotaExceeded : bool;
  clock : Z;
  trace : list event
}.
Arguments MkService {P}.
Arguments youtube {P}.
Arguments quotaExceeded {P}.
Arguments clock {P}.
Arguments trace {P}.

(** ** Computations of the service

    A method runs on the service object and ends by returning, by throwing,
    or not at all within the given number of loop iterations. *)

Inductive result (A : Type) : Type :=
  | Ok (a : A)
  | Throw (e : Error)
  | Timeout.
Arguments Ok {A}.
Arguments Throw {A}.
Arguments Timeout {A}.

Definition M (P A : Type) : Type := YouTubeService P -> result A * YouTubeService P.

Definition ret {P A} (a : A) : M P A := fun s => (Ok a, s).

Definition bind {P A B} (m : M P A) (k : A -> M P B) : M P B :=
  fun s =>
    match m s with
    | (Ok a, s') => k a s'
    | (Throw e, s') => (Throw e, s')
    | (Timeout, s') => (Timeout, s')
    end.

Definition throw {P A} (e : Error) : M P A := fun s => (Throw e, s).

Definition timeout {P A} : M P A := fun s => (Timeout, s).

(** [try { body } catch (error) { handler }] *)
Definition try_catch {P A} (body : M P A) (handler : Error -> M P A) : M P A :=
  fun s =>
    match body s with
    | (Throw e, s') => handler e s'
    | r => r
    end.

Definition get {P} : M P (YouTubeService P) := fun s => (Ok s, s).

Definition put {P} (s : YouTubeService P) : M P unit := fun _ => (Ok tt, s).

Declare Scope service_scope.
Delimit Scope service_scope with service.
Notation "'do' x <- m ; k" := (bind m (fun x => k))
  (at level 20, x pattern, m at level 100, k at level 200) : service_scope.
Notation "m ;; k" := (bind m (fun _ => k))
  (at level 100, k at level 200, right associativity) : service_scope.

(** ** JavaScript idioms *)

(** [s || d] for an optional string: [undefined] and the empty string are
    falsy. *)
Definition or_else (o : option string) (d : string) : string :=
  match o with
  | Some (String c s) => String c s
  | _ => d
  end.

(** [s || null] *)
Definition or_null (o : option string) : option string :=
  match o with
  | Some (String c s) => Some (String c s)
  | _ => None
  end.

(** [n ? ... : ...] for an optional number: [undefined] and [0] are falsy. *)
Definition truthy_num (o : option Z) : bool :=
  match o with
  | Some n => negb (n =? 0)
  | None => false
  end.

(** [xs.slice(0, n)] for an integer [n]; a negative [n] counts from the
    end. *)
Definition slice0 {A} (xs : list A) (n : Z) : list A :=
  if n <? 0 then take (Z.to_nat (Z.max (Z.of_nat (length xs) + n) 0)) xs
  else take (Z.to_nat n) xs.

(** ** [removeDuplicateVideos] *)

(** [videos.filter(video => ...)] with the [uniqueIds] set it updates. *)
Fixpoint filter_unseen (uniqueIds : gset string) (videos : list VideoMetadata)
  : list VideoMetadata :=
  match videos with
  | [] => []
  | video :: rest =>
      if decide (id video ∈ uniqueIds)
      then filter_unseen uniqueIds rest
      else video :: filter_unseen ({[id video]} ∪ uniqueIds) rest
  end.

Definition removeDuplicateVideos (videos : list VideoMetadata) : list VideoMetadata :=
  filter_unseen ∅ videos.

(** ** Building a record from a [videos.list] item *)

Definition watch_url (videoId : string) : string :=
  "https://www.youtube.com/watch?v=" +:+ videoId.

(** The object literal shared by [fetchVideosByDateRange] and
    [getVideoDetails]. *)
Definition metadata_of (videoId : string) (video : Video) : VideoMetadata :=
  let durationInSeconds :=
    parseDuration (or_else (contentDetails_duration video) "PT0S") in
  {| id := videoId;
     title := or_else (snippet_title video) "";
     description := or_else (snippet_description video) "";
     publishedDate := or_else (snippet_publishedAt video) "";
     durationInSeconds := durationInSeconds;
     viewCount := parseInt (or_else (statistics_viewCount video) "0") (Some 10);
     url := watch_url videoId;
     thumbnail := or_else (snippet_thumbnails_high_url video) "";
     channel_name := or_else (snippet_channelTitle video) "" |}.

(** The callback of [videoDetails.map]: [null] for an item without id. *)
Definition video_to_metadata (video : Video) : option VideoMetadata :=
  match or_null (video_id video) with
  | None => None
  | Some videoId => Some (metadata_of videoId video)
  end.

(** [error.response && status === 403 && errors?.some(e => e.reason ===
    "quotaExceeded")] *)
Definition is_quota_error (error : Error) : bool :=
  match response error with
  | Some r =>
      (status r =? 403)
      && match error_reasons r with
         | Some reasons => existsb (String.eqb "quotaExceeded") reasons
         | None => false
         end
  | None => false
  end.

(** ** The service *)

Section Service.

Context {P : Type} {provider : Provider P}.
Variable cal : Calendar.

Local Open Scope service_scope.

(** [await this.youtube.search.list(requestParams)] *)
Definition call_search_list (params : SearchListParams) : M P SearchListResponse :=
  fun s =>
    let '(r, p) := search_list params (youtube s) in
    let s' := MkService p (quotaExceeded s) (clock s)
                        (trace s ++ [EvSearchList params]) in
    match r with
    | inl error => (Throw error, s')
    | inr data => (Ok data, s')
    end.

(** [await this.youtube.videos.list({ part, id })] *)
Definition call_videos_list (ids : list string) : M P VideoListResponse :=
  fun s =>
    let '(r, p) := videos_list ids (youtube s) in
    let s' := MkService p (quotaExceeded s) (clock s)
                        (trace s ++ [EvVideosList ids]) in
    match r with
    | inl error => (Throw error, s')
    | inr data => (Ok data, s')
    end.

(** [this.quotaExceeded = b] *)
Definition set_quotaExceeded (b : bool) : M P unit :=
  fun s => (Ok tt, MkService (youtube s) b (clock s) (trace s)).

(** The service after a call of [search.list], or of [videos.list], that
    left the provider in [p]. *)
Definition searched (params : SearchListParams) (p : P) (s : YouTubeService P)
  : YouTubeService P :=
  MkService p (quotaExceeded s) (clock s) (trace s ++ [EvSearchList params]).

Definition detailed (ids : list string) (p : P) (s : YouTubeService P)
  : YouTubeService P :=
  MkService p (quotaExceeded s) (clock s) (trace s ++ [EvVideosList ids]).

(** Lines 222-230: the pause until the start of the next day.  The timer
    fires at [resetTime]. *)
Definition pause_if_quotaExceeded : M P unit :=
  do s <- get;
  if quotaExceeded s then
    let now := clock s in
    let resetTime := start_of_day cal (plus_days cal 1 now) in
    put (MkService (youtube s) (quotaExceeded s) resetTime
                   (trace s ++ [EvWait now resetTime]));;
    set_quotaExceeded false
  else ret tt.

(** The service after these lines. *)
Definition paused (s : YouTubeService P) : YouTubeService P :=
  if quotaExceeded s then
    let resetTime := start_of_day cal (plus_days cal 1 (clock s)) in
    MkService (youtube s) false resetTime (trace s ++ [EvWait (clock s) resetTime])
  else s.

(** *** [fetchVideosByDateRange] *)

Definition maxResultsPerRequest : Z := 50.

(** Lines 234-249; [pageToken] is set only for a truthy token. *)
Definition requestParams (query : string) (startDate endDate : Z)
    (options : SearchOptions) (nextPageToken : option string) : SearchListParams :=
  {| q := query;
     rp_maxResults := maxResultsPerRequest;
     rp_order := or_else (order options) "relevance";
     regionCode := "US";
     relevanceLanguage := or_else (language options) "en";
     publishedAfter := startDate;
     publishedBefore := endDate;
     videoDuration := "any";
     pageToken := or_null nextPageToken |}.

(** The variables of the pagination loop. *)
Record page_vars : Type := MkVars {
  allVideos : list VideoMetadata;
  nextPageToken_var : option string;
  resultsFetched : Z
}.

(** How one pass through the body of the [do ... while] ends: [break]
    leaves the loop; [continue] and the end of the body both reach the
    loop condition. *)
Inductive completion : Type :=
  | Break
  | ToCondition.

(** [videoIds.join(",")], as the ids between its commas: [null] joins as
    the empty string. *)
Definition joined (videoIds : list (option string)) : list string :=
  default "" <$> videoIds.

(** The ids that the service asks the details of, for an answer of
    [search.list]: [videos.map(item => item.id?.videoId).filter(id => id !==
    undefined)], joined. *)
Definition requested_ids (data : SearchListResponse) : list string :=
  joined (omap videoId (default [] (items data))).

(** The [try] block, lines 254-312. *)
Definition try_block (query : string) (startDate endDate : Z)
    (options : SearchOptions) (maxResults : option Z) (v : page_vars)
  : M P (completion * page_vars) :=
  do data <- call_search_list
               (requestParams query startDate endDate options (nextPageToken_var v));
  match items data with
  | None | Some [] => ret (Break, v)
  | Some videos =>
      let videoIds := omap videoId videos in
      match videoIds with
      | [] => ret (Break, v)
      | _ :: _ =>
          do detailsResponse <- call_videos_list (joined videoIds);
          let videoDetails := default [] (video_items detailsResponse) in
          let videoMetadata := omap video_to_metadata videoDetails in
          let v' := {| allVideos := allVideos v ++ videoMetadata;
                       nextPageToken_var := or_null (nextPageToken data);
                       resultsFetched :=
                         resultsFetched v + Z.of_nat (length videoMetadata) |} in
          match maxResults with
          | Some m => if m <=? resultsFetched v' then ret (Break, v')
                      else ret (ToCondition, v')
          | None => ret (ToCondition, v')
          end
      end
  end.

(** How the [try] block ends, by what the provider answers. *)
Inductive try_block_spec (query : string) (startDate endDate : Z)
    (options : SearchOptions) (maxResults : option Z) (v : page_vars)
    (s : YouTubeService P)
  : result (completion * page_vars) * YouTubeService P -> Prop :=
  | tb_search_throws e p :
      search_list (requestParams query startDate endDate options (nextPageToken_var v))
                  (youtube s) = (inl e, p) ->
      try_block_spec query startDate endDate options maxResults v s
        (Throw e,
         searched (requestParams query startDate endDate options (nextPageToken_var v)) p s)
  | tb_no_items data p :
      search_list (requestParams query startDate endDate options (nextPageToken_var v))
                  (youtube s) = (inr data, p) ->
      requested_ids data = [] ->
      try_block_spec query startDate endDate options maxResults v s
        (Ok (Break, v),
         searched (requestParams query startDate endDate options (nextPageToken_var v)) p s)
  | tb_details_throw data p e p' :
      search_list (requestParams query startDate endDate options (nextPageToken_var v))
                  (youtube s) = (inr data, p) ->
      requested_ids data <> [] ->
      videos_list (requested_ids data) p = (inl e, p') ->
      try_block_spec query startDate endDate options maxResults v s
        (Throw e,
         detailed (requested_ids data) p'
           (searched (requestParams query startDate endDate options (nextPageToken_var v)) p s))
  | tb_page data p details p' :
      search_list (requestParams query startDate endDate options (nextPageToken_var v))
                  (youtube s) = (inr data, p) ->
      requested_ids data <> [] ->
      videos_list (requested_ids data) p = (inr details, p') ->
      let videoMetadata := omap video_to_metadata (default [] (video_items details)) in
      let v' := {| allVideos := allVideos v ++ videoMetadata;
                   nextPageToken_var := or_null (nextPageToken data);
                   resultsFetched := resultsFetched v + Z.of_nat (length videoMetadata) |} in
      try_block_spec query startDate endDate options maxResults v s
        (Ok (match maxResults with
             | Some m => if m <=? resultsFetched v' then Break else ToCondition
             | None => ToCondition
             end, v'),
         detailed (requested_ids data) p'
           (searched (requestParams query startDate endDate options (nextPageToken_var v)) p s)).

(** The [catch] block, lines 314-327. *)
Definition catch_block (v : page_vars) (error : Error)
  : M P (completion * page_vars) :=
  if is_quota_error error
  then set_quotaExceeded true;; ret (ToCondition, v)
  else ret (Break, v).

(** One pass through the body of the loop. *)
Definition loop_body (query : string) (startDate endDate : Z)
    (options : SearchOptions) (maxResults : option Z) (v : page_vars)
  : M P (completion * page_vars) :=
  pause_if_quotaExceeded;;
  try_catch (try_block query startDate endDate options maxResults v)
            (catch_block v).

(** [do { ... } while (nextPageToken !== null)], at most [fuel] passes. *)
Fixpoint page_loop (fuel : nat) (query : string) (startDate endDate : Z)
    (options : SearchOptions) (maxResults : option Z) (v : page_vars)
  : M P (list VideoMetadata) :=
  match fuel with
  | O => timeout
  | S fuel' =>
      do (c, v') <- loop_body query startDate endDate options maxResults v;
      match c, nextPageToken_var v' with
      | ToCondition, Some _ =>
          page_loop fuel' query startDate endDate options maxResults v'
      | _, _ => ret (allVideos v')
      end
  end.

Definition fetchVideosByDateRange (fuel : nat) (query : string)
    (startDate endDate : Z) (options : SearchOptions) (maxResults : option Z)
  : M P (list VideoMetadata) :=
  page_loop fuel query startDate endDate options maxResults
            {| allVideos := []; nextPageToken_var := None; resultsFetched := 0 |}.

(** *** [searchVideos] *)

Definition dateChunkIntervalDays : Z := 180.

(** Lines 150-155: the end of the chunk that starts at [currentStartDate]. *)
Definition chunk_end (days : Z) (currentStartDate endDateTime : Z) : Z :=
  let chunkEndDate := plus_days cal days currentStartDate in
  if endDateTime <? chunkEndDate then endDateTime else chunkEndDate.

(** The variables of the chunk loop. *)
Record chunk_vars : Type := MkChunkVars {
  currentStartDate : Z;
  all_videos : list VideoMetadata;
  results_fetched : Z
}.

(** [while (currentStartDate < endDateTime) { ... }], lines 148-181, at
    most [fuel] passes; the pagination loop of every chunk may take
    [page_fuel] passes. *)
Fixpoint chunk_loop (page_fuel fuel : nat) (query : string)
    (options : SearchOptions) (endDateTime : Z) (c : chunk_vars)
  : M P (list VideoMetadata) :=
  if currentStartDate c <? endDateTime then
    match fuel with
    | O => timeout
    | S fuel' =>
        let totalResults := maxResults options in
        let chunkEndDate :=
          chunk_end dateChunkIntervalDays (currentStartDate c) endDateTime in
        do chunkVideos <-
          fetchVideosByDateRange page_fuel query (currentStartDate c) chunkEndDate
            options
            (if truthy_num totalResults
             then option_map (fun t => t - results_fetched c) totalResults
             else None);
        let allVideos' := all_videos c ++ chunkVideos in
        let resultsFetched' := results_fetched c + Z.of_nat (length chunkVideos) in
        match totalResults with
        | Some t =>
            if t <=? resultsFetched' then ret allVideos'
            else chunk_loop page_fuel fuel' query options endDateTime
                   (MkChunkVars chunkEndDate allVideos' resultsFetched')
        | None =>
            chunk_loop page_fuel fuel' query options endDateTime
              (MkChunkVars chunkEndDate allVideos' resultsFetched')
        end
    end
  else ret (all_videos c).

(** The limit that the loop hands to the pagination of a chunk,
    [totalResults ? totalResults - resultsFetched : undefined], and its test
    [totalResults !== undefined && resultsFetched >= totalResults]. *)
Definition chunk_limit (options : SearchOptions) (c : chunk_vars) : option Z :=
  if truthy_num (maxResults options)
  then option_map (fun t => t - results_fetched c) (maxResults options)
  else None.

Definition limit_reached (options : SearchOptions) (fetched : Z) : bool :=
  match maxResults options with
  | Some t => t <=? fetched
  | None => false
  end.

(** Lines 131-139: the date range of the search. *)
Definition date_range (options : SearchOptions) (now : Z) : Z * Z :=
  let endDateTime := default now (endDate options) in
  let years := match yearsBack options with
               | Some y => if y =? 0 then 5 else y
               | None => 5
               end in
  let startDateTime := default (minus_years cal years endDateTime) (startDate options) in
  (startDateTime, endDateTime).

(** Lines 189-197: deduplicate, then apply the result limit. *)
Definition finish (totalResults : option Z) (allVideos : list VideoMetadata)
  : list VideoMetadata :=
  let uniqueVideos := removeDuplicateVideos allVideos in
  match totalResults with
  | Some t =>
      if t <? Z.of_nat (length uniqueVideos) then slice0 uniqueVideos t
      else uniqueVideos
  | None => uniqueVideos
  end.

(** What the [while] loop of [searchVideos] leaves in [allVideos]; [fuel]
    bounds the passes of every loop. *)
Definition collectVideos (fuel : nat) (query : string) (options : SearchOptions)
  : M P (list VideoMetadata) :=
  do s <- get;
  let '(startDateTime, endDateTime) := date_range options (clock s) in
  chunk_loop fuel fuel query options endDateTime
    {| currentStartDate := startDateTime; all_videos := []; results_fetched := 0 |}.

Definition searchVideos (fuel : nat) (query : string) (options : SearchOptions)
  : M P (list VideoMetadata) :=
  try_catch
    (do allVideos <- collectVideos fuel query options;
     ret (finish (maxResults options) allVideos))
    (fun error => throw error).

(** *** [getVideoDetails] *)

Definition getVideoDetails (videoId : string) : M P (option VideoMetadata) :=
  try_catch
    (do response <- call_videos_list [videoId];
     match head (default [] (video_items response)) with
     | None => ret None
     | Some video => ret (Some (metadata_of videoId video))
     end)
    (fun error => ret None).

End Service.

(** ** What the strings and the events are read as *)

(** *** Runs of digits *)

(** The number that a run of digits denotes. *)
Fixpoint decimal_from (acc : Z) (d : string) : Z :=
  match d with
  | EmptyString => acc
  | String c d' => decimal_from (acc * 10 + (Str.code c - 48)) d'
  end.

Definition decimal_value (d : string) : Z := decimal_from 0 d.

(** [tail] does not go on with a digit. *)
Definition no_digit_ahead (tail : string) : bool :=
  match tail with
  | String c _ => negb (Str.is_digit c)
  | EmptyString => true
  end.

(** *** Shapes of duration strings *)

(** One component of a duration, [nX], or nothing. *)
Definition duration_part (o : option string) (X : string) : string :=
  match o with
  | Some d => d +:+ X
  | None => EmptyString
  end.

Definition part_value (o : option string) : Z :=
  match o with
  | Some d => decimal_value d
  | None => 0
  end.

(** The seconds of [h] hours, [m] minutes and [s] seconds, as the code
    adds them up: [parseInt(...) * 3600 + parseInt(...) * 60 +
    parseInt(...)] on doubles. *)
Definition duration_seconds (h m s : Z) : jsnum :=
  jsnum_add (jsnum_add (jsnum_mul (to_double h) (Num 3600))
                       (jsnum_mul (to_double m) (Num 60)))
            (to_double s).

(** The number of a component is a non-empty run of digits. *)
Definition digit_run (o : option string) : Prop :=
  match o with
  | Some d => d <> EmptyString /\ Str.digits_only d = true
  | None => True
  end.

(** [rest] starts with a non-empty run of digits and the letter [X]. *)
Definition starts_group (X : ascii) (rest : string) : bool :=
  match Str.span_digits rest with
  | (String _ _, String c _) => Ascii.eqb c X
  | _ => false
  end.

(** [r] starts with a component: digits and one of [H], [M], [S]. *)
Definition group_at (r : string) : bool :=
  starts_group "H" r || starts_group "M" r || starts_group "S" r.

(** The letters of the components that may still come after the
    components [h], [m], [s] that are there. *)
Definition open_letters (h m s : option string) : list ascii :=
  match s, m, h with
  | Some _, _, _ => []
  | None, Some _, _ => ["S"]
  | None, None, Some _ => ["M"; "S"]
  | None, None, None => ["H"; "M"; "S"]
  end%char.

(** What follows the components [h], [m], [s] does not go on with one
    more component. *)
Definition components_end (h m s : option string) (rest : string) : bool :=
  forallb (fun X => negb (starts_group X rest)) (open_letters h m s).

(** *** The windows that a run asks about *)



(** Windows from [cur] on, up to [end_] at most: each starts where the one
    before it ended (the first at [cur]), is not empty and spans at most
    180 days. *)
Fixpoint chain (cal : Calendar) (cur end_ : Z) (ws : list (Z * Z)) : Prop :=
  match ws with
  | [] => True
  | w :: ws' =>
      w.1 = cur /\ cur < w.2 /\ w.2 <= end_ /\ w.2 <= plus_days cal 180 cur
      /\ chain cal w.2 end_ ws'
  end.



(** A well-formed duration of the kind the provider sends (an ISO-8601
    duration with time components only): ["PT"] followed by optional hours
    [nH], minutes [nM] and seconds [nS], in this order, and nothing else. *)
Definition iso_time_duration (s : string) : bool :=
  Str.prefix "PT" s
  && (let '(_, r1) := match_group "H" (Str.drop 2 s) in
      let '(_, r2) := match_group "M" r1 in
      let '(_, r3) := match_group "S" r2 in
      match r3 with EmptyString => true | _ => false end).

(** Every item that [videos.list] answers has the property [Pv]. *)
Definition provider_videos {P} {provider : Provider P} (Pv : Video -> Prop) : Prop :=
  forall ids p r p',
    videos_list ids p = (inr r, p') -> Forall Pv (default [] (video_items r)).

(** ** A simulated provider

    It answers [search.list] and [videos.list] from functions of the
    request, except that the calls of [search.list] fail as a schedule
    says: the n-th entry of the schedule, when it holds an error, makes the
    n-th call throw it.  The schedule that is left is the state of the
    provider. *)

Definition sim_provider (search : SearchListParams -> SearchListResponse)
    (videos : list string -> VideoListResponse)
  : Provider (list (option Error)) :=
  {| search_list params faults :=
       match faults with
       | Some error :: rest => (inl error, rest)
       | None :: rest => (inr (search params), rest)
       | [] => (inr (search params), [])
       end;
     videos_list ids faults := (inr (videos ids), faults) |}.

(** The error of an exhausted quota, and a network failure. *)
Definition quota_error : Error :=
  {| response := Some {| status := 403; error_reasons := Some ["quotaExceeded"] |} |}.

Definition network_error : Error := {| response := None |}.

(** A calendar for the examples: every day has 86 400 000 ms (a zone with a
    fixed offset) and a year is counted as 365 days. *)
Definition msPerDay : Z := 86400000.

Definition fixed_calendar : Calendar :=
  {| plus_days d t := t + d * msPerDay;
     minus_years y t := t - y * 365 * msPerDay;
     start_of_day t := t / msPerDay * msPerDay |}.

(** A catalogue: for the window that starts at a given instant, the pages
    of video ids.  The token of page [i > 0] is a string of length [i]. *)
Definition catalogue : Type := list (Z * list (list string)).

Fixpoint token (i : nat) : string :=
  match i with
  | O => EmptyString
  | S i' => String "x" (token i')
  end.

Fixpoint pages_of (cat : catalogue) (start : Z) : list (list string) :=
  match cat with
  | [] => []
  | (t, pages) :: rest => if t =? start then pages else pages_of rest start
  end.

Definition catalogue_search (cat : catalogue) (params : SearchListParams)
  : SearchListResponse :=
  let pages := pages_of cat (publishedAfter params) in
  let i := match pageToken params with
           | Some t => String.length t
           | None => O
           end in
  match pages !! i with
  | Some ids =>
      {| items := Some (map (fun v => MkSearchResult (Some (Some v))) ids);
         nextPageToken := if decide (S i < length pages)%nat
                          then Some (token (S i)) else None |}
  | None => {| items := None; nextPageToken := None |}
  end.

Definition plain_video (i : string) : Video :=
  {| video_id := Some i; snippet_title := None; snippet_description := None;
     snippet_publishedAt := None; snippet_thumbnails_high_url := None;
     snippet_channelTitle := None; contentDetails_duration := None;
     statistics_viewCount := None |}.

Definition catalogue_videos (ids : list string) : VideoListResponse :=
  {| video_items := Some (map plain_video ids) |}.

Definition catalogue_provider (cat : catalogue) : Provider (list (option Error)) :=
  sim_provider (catalogue_search cat) catalogue_videos.

(** A service on a provider in state [p], at time [now], with nothing done
    yet. *)
Definition fresh_service {P} (p : P) (now : Z) : YouTubeService P :=
  MkService p false now [].

Definition options_between (start end_ : Z) (limit : option Z) : SearchOptions :=
  {| maxResults := limit; startDate := Some start; endDate := Some end_;
     yearsBack := None; order := None; language := None |}.

(** ** Test data *)

(** A run of [n] digits 9. *)
Fixpoint nines (n : nat) : string :=
  match n with
  | O => EmptyString
  | S n' => String "9" (nines n')
  end.

(** A record that carries only an id and a title. *)
Definition bare_video (i t : string) : VideoMetadata :=
  {| id := i; title := t; description := ""; publishedDate := "";
     durationInSeconds := Num 0; viewCount := Num 0; url := watch_url i;
     thumbnail := ""; channel_name := "" |}.

Definition D180 : Z := 180 * msPerDay.

(** Two windows: two videos in the first, one in the second. *)
Definition two_windows : catalogue :=
  [(0, [["a1"; "a2"]]); (D180, [["b1"]])].

(** Two windows, the first of five pages. *)
Definition five_pages : catalogue :=
  [(0, [["a1"]; ["a2"]; ["a3"]; ["a4"]; ["a5"]]); (D180, [["b1"]])].

(** Three windows, one page of seven videos in each. *)
Definition seven_per_page : catalogue :=
  [(0, [["a1"; "a2"; "a3"; "a4"; "a5"; "a6"; "a7"]]);
   (D180, [["b1"; "b2"; "b3"; "b4"; "b5"; "b6"; "b7"]]);
   (2 * D180, [["c1"; "c2"; "c3"; "c4"; "c5"; "c6"; "c7"]])].

(** The record that the service builds for a [plain_video]. *)
Definition plain_metadata (i : string) : VideoMetadata :=
  metadata_of i (plain_video i).

(** A provider whose only video reports a view count that is no number. *)
Definition odd_video : Video :=
  {| video_id := Some "v1"; snippet_title := None; snippet_description := None;
     snippet_publishedAt := None; snippet_thumbnails_high_url := None;
     snippet_channelTitle := None; contentDetails_duration := Some "PT1M";
     statistics_viewCount := Some "n/a" |}.

Definition odd_provider : Provider (list (option Error)) :=
  sim_provider (catalogue_search [])
               (fun _ => {| video_items := Some [odd_video] |}).

(** A provider whose search answers one item with the id [null] and one
    without id. *)
Definition null_id_provider : Provider (list (option Error)) :=
  sim_provider
    (fun _ => {| items := Some [MkSearchResult (Some None); MkSearchResult None];
                 nextPageToken := None |})
    catalogue_videos.

(** A provider whose calls of [videos.list] fail as a schedule says, and
    whose calls of [search.list] never fail. *)
Definition details_fault_provider (search : SearchListParams -> SearchListResponse)
    (videos : list string -> VideoListResponse)
  : Provider (list (option Error)) :=
  {| search_list params faults := (inr (search params), faults);
     videos_list ids faults :=
       match faults with
       | Some error :: rest => (inl error, rest)
       | None :: rest => (inr (videos ids), rest)
       | [] => (inr (videos ids), [])
       end |}.

(** A video with a duration and a view count as the provider sent them. *)
Definition counted_video (i : string) (duration viewCount : option string) : Video :=
  {| video_id := Some i; snippet_title := None; snippet_description := None;
     snippet_publishedAt := None; snippet_thumbnails_high_url := None;
     snippet_channelTitle := None; contentDetails_duration := duration;
     statistics_viewCount := viewCount |}.

(** Videos of several shapes: a usual one, one without statistics, and
    view counts that are no unsigned numbers. *)
Definition mixed_videos : list Video :=
  [counted_video "m1" (Some "PT4M13S") (Some "1234");
   counted_video "m2" None None;
   counted_video "m3" (Some "PT1H") (Some "12abc");
   counted_video "m4" (Some "P1D") (Some "-5");
   counted_video "m5" (Some "PT2S") (Some "n/a")].

Definition mixed_provider : Provider (list (option Error)) :=
  sim_provider (catalogue_search [(0, [["m1"; "m2"; "m3"; "m4"; "m5"]])])
               (fun _ => {| video_items := Some mixed_videos |}).

(** * More of the code

    The rest of lib/youtube-service.ts, its callers in lib/youtube.ts and
    bin/youtube-fetcher.ts, and lib/transcript-service.ts. *)

(** Two windows that share the video [a2]. *)
Definition overlapping_windows : catalogue :=
  [(0, [["a1"; "a2"]]); (D180, [["a2"; "b1"]])].

(** ** What the service may send *)

(** An event of the pagination of the window from [startDate] to
    [endDate]: a request for that window with the page size 50, a detail
    request for at least one id, or a wait until the start of the next
    day. *)
Definition page_event_ok (cal : Calendar) (query : string) (startDate endDate : Z)
    (e : event) : Prop :=
  match e with
  | EvSearchList p =>
      q p = query /\ rp_maxResults p = 50
      /\ publishedAfter p = startDate /\ publishedBefore p = endDate
  | EvVideosList ids => ids <> []
  | EvWait now resetTime => resetTime = start_of_day cal (plus_days cal 1 now)
  end.

(** An event of a search between [startDateTime] and [endDateTime]: the
    window of a request is not empty, lies in the range and spans at most
    180 days. *)
Definition search_event_ok (cal : Calendar) (query : string)
    (startDateTime endDateTime : Z) (e : event) : Prop :=
  match e with
  | EvSearchList p =>
      q p = query /\ rp_maxResults p = 50
      /\ startDateTime <= publishedAfter p
      /\ publishedAfter p < publishedBefore p
      /\ publishedBefore p <= endDateTime
      /\ publishedBefore p <= plus_days cal 180 (publishedAfter p)
  | EvVideosList ids => ids <> []
  | EvWait now resetTime => resetTime = start_of_day cal (plus_days cal 1 now)
  end.

(** ** lib/youtube.ts: [searchDiseaseVideos] *)

(** [{ ...options, yearsBack: options.yearsBack || 5, startDate:
    options.startDate, endDate: options.endDate }] *)
Definition searchOptions_of (options : SearchOptions) : SearchOptions :=
  {| maxResults := maxResults options;
     startDate := startDate options;
     endDate := endDate options;
     yearsBack := Some (match yearsBack options with
                        | Some y => if y =? 0 then 5 else y
                        | None => 5
                        end);
     order := order options;
     language := language options |}.

Definition searchDiseaseVideos {P : Type} {provider : Provider P} (cal : Calendar)
    (fuel : nat) (query : string) (options : SearchOptions)
  : M P (list VideoMetadata) :=
  searchVideos cal fuel query (searchOptions_of options).

(** ** lib/transcript-service.ts *)

(** A segment of a transcript ([YoutubeTranscript.Transcript]); the service
    reads its [text] only. *)
Record Transcript : Type := MkTranscript {
  text : string
}.

(** A thrown [Error], with its [message]. *)
Record JsError : Type := MkJsError {
  message : string
}.

(** The library behind [YoutubeTranscript.fetchTranscript(videoId, { lang
    })]: each call answers or throws, and may change the library. *)
Class TranscriptLibrary (T : Type) : Type := {
  library_fetchTranscript :
    string -> option string -> T -> (JsError + list Transcript) * T
}.

(** The service with the requests it has made of the library, in order. *)
Record TranscriptService (T : Type) : Type := MkTranscriptService {
  library : T;
  requested : list (string * option string)
}.
Arguments MkTranscriptService {T}.
Arguments library {T}.
Arguments requested {T}.

Section Transcripts.

Context {T : Type} {lib : TranscriptLibrary T}.

(** [await YoutubeTranscript.fetchTranscript(videoId, { lang, ... })] *)
Definition call_library (videoId : string) (lang : option string)
    (st : TranscriptService T)
  : (JsError + list Transcript) * TranscriptService T :=
  let '(r, l) := library_fetchTranscript videoId lang (library st) in
  (r, MkTranscriptService l (requested st ++ [(videoId, lang)])).

(** [new Error(`No transcript available for video ${videoId}:
    ${error.message}`)] *)
Definition no_transcript (videoId : string) (error : JsError) : JsError :=
  {| message := "No transcript available for video " +:+ videoId +:+ ": "
                +:+ message error |}.

(** The private [fetchTranscript]: English first, then whatever language
    the library detects. *)
Definition TranscriptService_fetchTranscript (videoId : string)
    (st : TranscriptService T)
  : (JsError + list Transcript * string) * TranscriptService T :=
  let '(r1, st1) := call_library videoId (Some "en") st in
  match r1 with
  | inl error => (inl (no_transcript videoId error), st1)
  | inr [] =>
      let '(r2, st2) := call_library videoId None st1 in
      match r2 with
      | inl error => (inl (no_transcript videoId error), st2)
      | inr [] => (inr ([], "none"), st2)
      | inr (segment :: rest) => (inr (segment :: rest, "auto"), st2)
      end
  | inr (segment :: rest) => (inr (segment :: rest, "en"), st1)
  end.

Definition getTranscriptWithTimestamps (videoId : string) (st : TranscriptService T)
  : (list Transcript * string) * TranscriptService T :=
  match TranscriptService_fetchTranscript videoId st with
  | (inr answer, st') => (answer, st')
  | (inl _, st') => (([], "none"), st')
  end.

(** [TranscriptService.getTranscript]: the texts of the segments. *)
Definition TranscriptService_getTranscript (videoId : string)
    (st : TranscriptService T) : list string * TranscriptService T :=
  match TranscriptService_fetchTranscript videoId st with
  | (inr (segments, _), st') => (map text segments, st')
  | (inl _, st') => ([], st')
  end.

(** [getBatchTranscripts]: the [Map] after the loop over [videoIds]. *)
Fixpoint batch_loop (videoIds : list string) (transcripts : gmap string (list string))
    (st : TranscriptService T)
  : gmap string (list string) * TranscriptService T :=
  match videoIds with
  | [] => (transcripts, st)
  | videoId :: rest =>
      let '(transcript, st') := TranscriptService_getTranscript videoId st in
      batch_loop rest (<[videoId := transcript]> transcripts) st'
  end.

Definition getBatchTranscripts (videoIds : list string) (st : TranscriptService T)
  : gmap string (list string) * TranscriptService T :=
  batch_loop videoIds ∅ st.

(** [YouTubeService.fetchTranscript] (lib/youtube-service.ts): the texts
    joined by a space, with the language; [None] is [null]. *)
Definition YouTubeService_fetchTranscript (videoId : string)
    (st : TranscriptService T)
  : option (string * string) * TranscriptService T :=
  let '((segments, language), st') := getTranscriptWithTimestamps videoId st in
  match segments with
  | [] => (None, st')
  | _ :: _ => (Some (String.concat " " (map text segments), language), st')
  end.

(** [getTranscript] (lib/youtube.ts) *)
Definition getTranscript (videoId : string) (st : TranscriptService T)
  : option (string * string) * TranscriptService T :=
  let '((segments, language), st') := getTranscriptWithTimestamps videoId st in
  if (0 <? length segments)%nat
  then (Some (String.concat " " (map text segments), language), st')
  else (None, st').

End Transcripts.

(** A library that answers from two tables, one for English and one for
    the detected language; an id without entry makes the call throw. *)
Definition table_library (english detected : list (string * list string))
  : TranscriptLibrary unit :=
  {| library_fetchTranscript videoId lang _ :=
       let table := match lang with
                    | Some _ => english
                    | None => detected
                    end in
       match list_find (fun entry => entry.1 = videoId) table with
       | Some (_, (_, texts)) => (inr (map MkTranscript texts), tt)
       | None => (inl {| message := "Transcript is disabled" |}, tt)
       end |}.

Definition no_requests : TranscriptService unit := MkTranscriptService tt [].

(** ** bin/youtube-fetcher.ts *)

Module Fetcher.

(** The [Options] of the command line. *)
Record Options : Type := MkOptions {
  disease : option string;
  maxResults : option jsnum;
  outputFile : option string;
  videoIdsFile : option string;
  videoId : option string;
  startDate : option string;
  endDate : option string
}.

Definition no_options : Options :=
  MkOptions None None None None None None None.

(** The branches of the loop over the arguments: what a flag does with the
    value that follows it; [None] when the argument is no flag. *)
Definition set_option (flag value : string) (o : Options) : option Options :=
  if String.eqb flag "--disease" then
    Some (MkOptions (Some value) (maxResults o) (outputFile o) (videoIdsFile o)
            (videoId o) (startDate o) (endDate o))
  else if String.eqb flag "--max-results" then
    Some (MkOptions (disease o) (Some (parseInt value (Some 10))) (outputFile o)
            (videoIdsFile o) (videoId o) (startDate o) (endDate o))
  else if String.eqb flag "--output-file" then
    Some (MkOptions (disease o) (maxResults o) (Some value) (videoIdsFile o)
            (videoId o) (startDate o) (endDate o))
  else if String.eqb flag "--video-ids-file" then
    Some (MkOptions (disease o) (maxResults o) (outputFile o) (Some value)
            (videoId o) (startDate o) (endDate o))
  else if String.eqb flag "--video-id" then
    Some (MkOptions (disease o) (maxResults o) (outputFile o) (videoIdsFile o)
            (Some value) (startDate o) (endDate o))
  else if String.eqb flag "--start-date" then
    Some (MkOptions (disease o) (maxResults o) (outputFile o) (videoIdsFile o)
            (videoId o) (Some value) (endDate o))
  else if String.eqb flag "--end-date" then
    Some (MkOptions (disease o) (maxResults o) (outputFile o) (videoIdsFile o)
            (videoId o) (startDate o) (Some value))
  else None.

(** [for (let i = 0; i < args.length; i++) { ... }]: a flag takes the next
    argument and steps over it ([i++]); a flag that is the last argument
    fails its test [i + 1 < args.length], like any other argument. *)
Fixpoint parse_args (args : list string) (o : Options) : Options :=
  match args with
  | [] => o
  | flag :: tail =>
      match tail with
      | [] => o
      | value :: rest =>
          match set_option flag value o with
          | Some o' => parse_args rest o'
          | None => parse_args tail o
          end
      end
  end.

(** A command line written as pairs of a flag and its value. *)
Definition render (pairs : list (string * string)) : list string :=
  concat (map (fun fv => [fv.1; fv.2]) pairs).

Definition known_flag (flag : string) : Prop :=
  In flag ["--disease"; "--max-results"; "--output-file"; "--video-ids-file";
           "--video-id"; "--start-date"; "--end-date"].

(** The value of the last pair with the given flag. *)
Definition last_value (flag : string) (pairs : list (string * string))
  : option string :=
  snd <$> last (filter (fun fv => fv.1 = flag) pairs).

End Fetcher.

(** What [main] ends with: the usage message and [process.exit(1)], the
    records it writes, or [process.exit(1)] after an error. *)
Inductive fetcher_outcome : Type :=
  | Usage
  | Written (outputData : list (VideoMetadata * string))
  | Failed.

Section FetcherMain.

Context {P : Type} {provider : Provider P}.
Variable cal : Calendar.

(** The instant that [DateTime.fromISO] reads from a string. *)
Variable fromISO : string -> Z.

Local Open Scope service_scope.

(** The options that [main] hands to [searchDiseaseVideos].  The service
    is modelled for a [maxResults] that is an integer.  Of the other
    numbers that [parseInt] gives, [NaN] and [Infinity] fail every test
    that the service makes of the limit, as an absent limit does;
    [-Infinity] passes every one of them, as [-1] does. *)
Definition fetcher_searchOptions (o : Fetcher.Options) : SearchOptions :=
  {| maxResults := match Fetcher.maxResults o with
                   | Some (Num n) => Some n
                   | Some NegInfinity => Some (-1)
                   | _ => None
                   end;
     startDate := fromISO <$> or_null (Fetcher.startDate o);
     endDate := fromISO <$> or_null (Fetcher.endDate o);
     yearsBack := None;
     order := None;
     language := None |}.

(** [await searchDiseaseVideos(options.disease!, searchOptions)].  With the
    limit [-Infinity] the search ends in [uniqueVideos.slice(0,
    -Infinity)], which is empty, where the limit [-1] leaves all but the
    last record. *)
Definition fetcher_search (fuel : nat) (disease : string) (o : Fetcher.Options)
  : M P (list VideoMetadata) :=
  do videos <- searchDiseaseVideos cal fuel disease (fetcher_searchOptions o);
  match Fetcher.maxResults o with
  | Some NegInfinity => ret []
  | _ => ret videos
  end.

(** [main] of bin/youtube-fetcher.ts, up to the records it writes, each
    with its [search_name].  The service that the video-id branch makes
    with [new] is the state the run starts in; [getVideoDetails] reads
    nothing of it but the client. *)
Definition fetcher_main (fuel : nat) (args : list string) : M P fetcher_outcome :=
  let options := Fetcher.parse_args args Fetcher.no_options in
  match or_null (Fetcher.disease options), or_null (Fetcher.videoId options) with
  | None, None => ret Usage
  | disease, videoId =>
      try_catch
        (let searchName := or_else disease (or_else videoId "unknown") in
         match videoId with
         | Some videoId =>
             do video <- getVideoDetails videoId;
             match video with
             | Some video => ret (Written [(video, searchName)])
             | None => ret (Written [])
             end
         | None =>
             do videos <- fetcher_search fuel (or_else disease "") options;
             ret (Written (map (fun video => (video, searchName)) videos))
         end)
        (fun error => ret Failed)
  end.

End FetcherMain.
(** * Properties *)

(** ** The runtime, on examples *)

Example parseDuration_ex1 : parseDuration "PT1H2M3S" = Num 3723.
Proof. reflexivity. Qed.
Example parseDuration_ex2 : parseDuration "xPT5Myz" = Num 300.
Proof. reflexivity. Qed.
Example parseDuration_ex3 : parseDuration "P1DT2H" = Num 0.
Proof. reflexivity. Qed.
Example parseInt_ex1 : parseInt "  -12px" (Some 10) = Num (-12).
Proof. reflexivity. Qed.
Example parseInt_ex2 : parseInt "abc" (Some 10) = NaN.
Proof. reflexivity. Qed.
Example parseInt_ex3 : parseInt "0x1F" None = Num 31.
Proof. reflexivity. Qed.

(** Above 2^53 a number is rounded to the nearest double, a tie to the
    even significand. *)
Example to_double_ex1 : to_double 9007199254740993 = Num 9007199254740992.
Proof. reflexivity. Qed.
Example to_double_ex2 : to_double 9007199254740995 = Num 9007199254740996.
Proof. reflexivity. Qed.
Example to_double_ex3 : to_double (10 ^ 400) = Infinity.
Proof. vm_compute. reflexivity. Qed.

(** [to_double] is the rounding of IEEE 754, on numbers around the places
    where it matters: the first integers that are no doubles, ties, and the
    largest doubles. *)
Example to_double_ieee_samples :
  Forall (fun x => to_double x = to_double_ieee x /\ to_double (- x) = to_double_ieee (- x))
    [0; 1; 2 ^ 53 - 1; 2 ^ 53; 2 ^ 53 + 1; 2 ^ 53 + 2; 2 ^ 53 + 3; 2 ^ 54 - 1;
     9007199254740992400; 2 ^ 63 + 2 ^ 10; 2 ^ 63 + 2 ^ 10 + 1; 2 ^ 64 - 1;
     10 ^ 22; 10 ^ 23; 123456789012345678901234567890; 2 ^ 100 + 2 ^ 47;
     2 ^ 100 + 2 ^ 47 + 1; 2 ^ 100 + 3 * 2 ^ 47; 10 ^ 308; 10 ^ 309;
     2 ^ 1023 + 2 ^ 970; 2 ^ 1024 - 2 ^ 971; 2 ^ 1024 - 2 ^ 970 - 1;
     2 ^ 1024 - 2 ^ 970; 2 ^ 1024; 10 ^ 400].
Proof. repeat constructor; vm_compute; reflexivity. Qed.

Example parseInt_ex4 : parseInt "9007199254740993" (Some 10) = Num 9007199254740992.
Proof. reflexivity. Qed.
Example parseDuration_ex4 : parseDuration "PT9007199254740993S" = Num 9007199254740992.
Proof. reflexivity. Qed.
Example parseDuration_ex5 :
  parseDuration "PT2501999792983609H" = Num 9007199254740992000.
Proof. reflexivity. Qed.
Example parseDuration_ex6 : parseDuration "PTPT5M" = Num 0.
Proof. reflexivity. Qed.

(** ** [to_double] is the rounding of IEEE 754 *)

Section Ieee.

Lemma digits2_pos_log2 m : Z.pos (SpecFloat.digits2_pos m) = Z.log2 (Z.pos m) + 1.
Proof.
  assert (Hsize : forall p, SpecFloat.digits2_pos p = Pos.size p)
    by (intros p; induction p; simpl; congruence).
  rewrite Hsize. destruct m; simpl; lia.
Qed.

Lemma digits2_pos_range m k :
  0 <= k -> 2 ^ k <= Z.pos m < 2 ^ (k + 1) -> Z.pos (SpecFloat.digits2_pos m) = k + 1.
Proof.
  intros Hk Hm. rewrite digits2_pos_log2. f_equal. by apply Z.log2_unique.
Qed.

Lemma iter_pos_nat {A} (f : A -> A) p x :
  SpecFloat.iter_pos f p x = Nat.iter (Pos.to_nat p) f x.
Proof.
  revert x. induction p as [p IH|p IH|]; intros x; cbn [SpecFloat.iter_pos].
  - rewrite !IH, Pos2Nat.inj_xI, <- Nat.iter_succ_r, <- Nat.iter_add.
    f_equal. lia.
  - rewrite !IH, Pos2Nat.inj_xO, <- Nat.iter_add. f_equal. lia.
  - reflexivity.
Qed.

Lemma shr_1_nonneg m r s :
  0 <= m ->
  SpecFloat.shr_1 (SpecFloat.Build_shr_record m r s)
  = SpecFloat.Build_shr_record (Z.div2 m) (Z.odd m) (r || s).
Proof. destruct m as [|[p|p|]|p]; try done; lia. Qed.

Lemma shr_iter a n :
  0 <= a ->
  Nat.iter (S n) SpecFloat.shr_1 (SpecFloat.Build_shr_record a false false)
  = SpecFloat.Build_shr_record (a / 2 ^ Z.of_nat (S n)) (Z.odd (a / 2 ^ Z.of_nat n))
      (negb (a mod 2 ^ Z.of_nat n =? 0)).
Proof.
  intros Ha. induction n as [|n IH].
  - cbn [Nat.iter]. rewrite shr_1_nonneg by done.
    change (2 ^ Z.of_nat 1) with 2. change (2 ^ Z.of_nat 0) with 1.
    by rewrite Z.div2_div, Z.div_1_r, Z.mod_1_r.
  - rewrite Nat.iter_succ, IH.
    assert (Hpow : 0 < 2 ^ Z.of_nat n) by (apply Z.pow_pos_nonneg; lia).
    assert (Hpow' : 2 ^ Z.of_nat (S n) = 2 ^ Z.of_nat n * 2)
      by (rewrite Nat2Z.inj_succ, Z.pow_succ_r; lia).
    assert (Hpow'' : 2 ^ Z.of_nat (S (S n)) = 2 ^ Z.of_nat (S n) * 2)
      by (rewrite (Nat2Z.inj_succ (S n)), Z.pow_succ_r; lia).
    rewrite shr_1_nonneg by (apply Z.div_pos; lia).
    f_equal.
    + rewrite Z.div2_div, Z.div_div, <- Hpow'' by lia. done.
    + rewrite Hpow', Z.rem_mul_r, Zmod_odd by lia.
      pose proof (Z.mod_pos_bound a (2 ^ Z.of_nat n) Hpow).
      destruct (Z.odd (a / 2 ^ Z.of_nat n)); cbn [orb].
      * symmetry. apply negb_true_iff. apply Z.eqb_neq. lia.
      * by rewrite Z.mul_0_r, Z.add_0_r.
Qed.

(** Shifting a positive number right by [n >= 1] bits, with the bit that
    falls off last and whether any bit fell off before it. *)
Lemma shr_pos a e n :
  0 <= a -> 0 < n ->
  SpecFloat.shr (SpecFloat.Build_shr_record a false false) e n
  = (SpecFloat.Build_shr_record (a / 2 ^ n) (Z.odd (a / 2 ^ (n - 1)))
       (negb (a mod 2 ^ (n - 1) =? 0)), e + n).
Proof.
  intros Ha Hn. destruct n as [|p|p]; try lia.
  unfold SpecFloat.shr. rewrite iter_pos_nat.
  destruct (Pos.to_nat p) as [|k] eqn:Hk; [lia|].
  rewrite shr_iter by done.
  assert (Hp : Z.pos p = Z.of_nat (S k)) by lia.
  assert (Hp1 : Z.pos p - 1 = Z.of_nat k) by lia.
  by rewrite Hp1, Hp.
Qed.


Lemma fexp_normal e : -1021 <= e -> SpecFloat.fexp 53 1024 e = e - 53.
Proof. intros He. unfold SpecFloat.fexp, SpecFloat.emin. lia. Qed.

Lemma pow2_add a b : 0 <= a -> 0 <= b -> 2 ^ a * 2 ^ b = 2 ^ (a + b).
Proof. intros. by rewrite Z.pow_add_r. Qed.

Lemma pow2_pos a : 0 <= a -> 0 < 2 ^ a.
Proof. intros. by apply Z.pow_pos_nonneg. Qed.

(** A significand of 53 bits is not shifted. *)
Lemma round_no_shift sx q e :
  2 ^ 52 <= Z.pos q < 2 ^ 53 -> -1074 <= e ->
  SpecFloat.binary_round_aux 53 1024 sx (Z.pos q) e SpecFloat.loc_Exact
  = if e <=? 971 then SpecFloat.S754_finite sx q e else SpecFloat.S754_infinity sx.
Proof.
  intros Hq He.
  assert (Hshift : SpecFloat.fexp 53 1024 (Z.pos (SpecFloat.digits2_pos q) + e) - e = 0).
  { rewrite (digits2_pos_range q 52) by (done || lia). rewrite fexp_normal; lia. }
  unfold SpecFloat.binary_round_aux, SpecFloat.shr_fexp.
  cbn [SpecFloat.Zdigits2 SpecFloat.shr_record_of_loc]. rewrite Hshift.
  cbn [SpecFloat.shr SpecFloat.shr_m SpecFloat.loc_of_shr_record
       SpecFloat.round_nearest_even SpecFloat.Zdigits2 SpecFloat.shr_record_of_loc].
  rewrite Hshift. cbn [SpecFloat.shr SpecFloat.shr_m]. done.
Qed.

(** The second rounding step: a significand that the first step carried to
    [2^53] is shifted once more. *)
Lemma round_second sx q n :
  2 ^ 52 <= q <= 2 ^ 53 -> 0 <= n ->
  jsnum_of_float
    (let '(mrs, e) := SpecFloat.shr_fexp 53 1024 q n SpecFloat.loc_Exact in
     match SpecFloat.shr_m mrs with
     | 0 => SpecFloat.S754_zero sx
     | Z.pos m => if e <=? 1024 - 53 then SpecFloat.S754_finite sx m e
                  else SpecFloat.S754_infinity sx
     | Z.neg _ => SpecFloat.S754_nan
     end)
  = if 2 ^ 1024 <=? q * 2 ^ n then infinity_of sx
    else Num ((if sx then -1 else 1) * (q * 2 ^ n)).
Proof.
  intros Hq Hn.
  pose proof (pow2_pos n Hn) as Hpn.
  assert (H1024 : 2 ^ 53 * 2 ^ 971 = 2 ^ 1024) by (by rewrite pow2_add).
  assert (H1024' : 2 ^ 52 * 2 ^ 972 = 2 ^ 1024) by (by rewrite pow2_add).
  assert (H53 : 2 ^ 53 = 2 * 2 ^ 52) by reflexivity.
  destruct (Z.eq_dec q (2 ^ 53)) as [->|Hne].
  - unfold SpecFloat.shr_fexp. cbn [SpecFloat.shr_record_of_loc].
    change (SpecFloat.Zdigits2 (2 ^ 53)) with 54.
    replace (SpecFloat.fexp 53 1024 (54 + n) - n) with 1
      by (rewrite fexp_normal; lia).
    rewrite shr_pos by lia. cbn [SpecFloat.shr_m].
    change (2 ^ 53 / 2 ^ 1) with (Z.pos 4503599627370496).
    change (1024 - 53) with 971.
    assert (Hval : Z.shiftl (Z.pos 4503599627370496) (n + 1) = 2 ^ 53 * 2 ^ n).
    { rewrite Z.shiftl_mul_pow2 by lia. change (Z.pos 4503599627370496) with (2 ^ 52).
      rewrite Z.pow_add_r by lia. rewrite H53. change (2 ^ 1) with 2. lia. }
    destruct (Z.leb_spec (n + 1) 971) as [Hle|Hgt],
             (Z.leb_spec (2 ^ 1024) (2 ^ 53 * 2 ^ n)) as [Hinf|Hfin];
      cbn [jsnum_of_float].
    + exfalso. assert (2 ^ n < 2 ^ 971) by (apply Z.pow_lt_mono_r; lia). nia.
    + by rewrite Hval.
    + done.
    + exfalso. assert (2 ^ 971 <= 2 ^ n) by (apply Z.pow_le_mono_r; lia). nia.
  - destruct q as [|p|p]; [lia| |lia].
    assert (Hp : 2 ^ 52 <= Z.pos p < 2 ^ 53) by lia.
    pose proof (round_no_shift sx p n Hp ltac:(lia)) as Hround.
    unfold SpecFloat.binary_round_aux in Hround.
    assert (Hshift : SpecFloat.fexp 53 1024 (Z.pos (SpecFloat.digits2_pos p) + n) - n = 0).
    { rewrite (digits2_pos_range p 52) by (done || lia). rewrite fexp_normal; lia. }
    unfold SpecFloat.shr_fexp. cbn [SpecFloat.Zdigits2 SpecFloat.shr_record_of_loc].
    rewrite Hshift. cbn [SpecFloat.shr SpecFloat.shr_m].
    change (1024 - 53) with 971.
    destruct (Z.leb_spec n 971) as [Hle|Hgt],
             (Z.leb_spec (2 ^ 1024) (Z.pos p * 2 ^ n)) as [Hinf|Hfin];
      cbn [jsnum_of_float].
    + exfalso. assert (2 ^ n <= 2 ^ 971) by (apply Z.pow_le_mono_r; lia). nia.
    + by rewrite Z.shiftl_mul_pow2.
    + done.
    + exfalso. assert (2 ^ 972 <= 2 ^ n) by (apply Z.pow_le_mono_r; lia). nia.
Qed.


(** The first rounding step gives the significand of [to_double]. *)
Lemma round_significand a n :
  0 <= a -> 0 < n ->
  SpecFloat.round_nearest_even (a / 2 ^ n)
    (SpecFloat.loc_of_shr_record
       (SpecFloat.Build_shr_record (a / 2 ^ n) (Z.odd (a / 2 ^ (n - 1)))
          (negb (a mod 2 ^ (n - 1) =? 0))))
  = if (Z.shiftl 1 (n - 1) <? Z.land a (Z.ones n))
       || ((Z.land a (Z.ones n) =? Z.shiftl 1 (n - 1)) && Z.odd (Z.shiftr a n))
    then Z.shiftr a n + 1 else Z.shiftr a n.
Proof.
  intros Ha Hn.
  rewrite Z.shiftl_1_l, Z.land_ones, Z.shiftr_div_pow2 by lia.
  pose proof (pow2_pos (n - 1) ltac:(lia)) as Hhalf.
  assert (Hpow : 2 ^ n = 2 ^ (n - 1) * 2).
  { replace n with (n - 1 + 1) at 1 by lia. rewrite Z.pow_add_r by lia. done. }
  assert (Hrem : a mod 2 ^ n
                 = a mod 2 ^ (n - 1)
                   + 2 ^ (n - 1) * (if Z.odd (a / 2 ^ (n - 1)) then 1 else 0)).
  { rewrite Hpow at 1. rewrite Z.rem_mul_r, Zmod_odd by lia. done. }
  pose proof (Z.mod_pos_bound a (2 ^ (n - 1)) Hhalf) as Hlow.
  rewrite Hrem. set (low := a mod 2 ^ (n - 1)) in *. set (q := a / 2 ^ n).
  destruct (Z.odd (a / 2 ^ (n - 1))), (Z.eqb_spec low 0) as [Hz|Hnz];
    cbn [negb SpecFloat.loc_of_shr_record SpecFloat.round_nearest_even].
  - rewrite <- Z.negb_odd.
    destruct (Z.ltb_spec (2 ^ (n - 1)) (low + 2 ^ (n - 1) * 1)); [lia|].
    destruct (Z.eqb_spec (low + 2 ^ (n - 1) * 1) (2 ^ (n - 1))); [|lia].
    by destruct (Z.odd q).
  - by destruct (Z.ltb_spec (2 ^ (n - 1)) (low + 2 ^ (n - 1) * 1)); [|lia].
  - destruct (Z.ltb_spec (2 ^ (n - 1)) (low + 2 ^ (n - 1) * 0)); [lia|].
    by destruct (Z.eqb_spec (low + 2 ^ (n - 1) * 0) (2 ^ (n - 1))); [lia|].
  - destruct (Z.ltb_spec (2 ^ (n - 1)) (low + 2 ^ (n - 1) * 0)); [lia|].
    by destruct (Z.eqb_spec (low + 2 ^ (n - 1) * 0) (2 ^ (n - 1))); [lia|].
Qed.

Lemma pos_iter_xO m k : Z.pos (Pos.iter xO m k) = Z.pos m * 2 ^ Z.pos k.
Proof.
  rewrite (Pos.iter_swap_gen _ _ Z.pos xO (Z.mul 2)) by done.
  rewrite <- Z.shiftl_mul_pow2 by lia. done.
Qed.

Lemma binary_round_integer sx m :
  jsnum_of_float (SpecFloat.binary_round 53 1024 sx m 0)
  = to_double (if sx then Z.neg m else Z.pos m).
Proof.
  set (x := if sx then Z.neg m else Z.pos m).
  set (a := Z.pos m). set (L := Z.log2 a).
  assert (Ha : 0 < a) by done.
  pose proof (Z.log2_spec a Ha) as Hspec. fold L in Hspec.
  pose proof (Z.log2_nonneg a) as HL. fold L in HL.
  assert (Hsucc : 2 ^ Z.succ L = 2 ^ L * 2) by (rewrite Z.pow_succ_r; lia).
  assert (Habs : Z.abs x = a) by (by destruct sx).
  assert (Hsgn : Z.sgn x = if sx then -1 else 1) by (by destruct sx).
  assert (Hneg : (x <? 0) = sx) by (by destruct sx).
  assert (Hx : x = (if sx then -1 else 1) * a) by (by destruct sx).
  clearbody x.
  unfold SpecFloat.binary_round. rewrite digits2_pos_log2. fold a L.
  rewrite fexp_normal by lia.
  unfold to_double. cbv zeta. rewrite Habs, Hsgn, Hneg. fold L.
  destruct (Z.ltb_spec a (2 ^ 53)) as [Hsmall|Hbig].
  - assert (HL52 : L <= 52).
    { assert (L < 53); [|lia]. by apply Z.log2_lt_pow2. }
    unfold SpecFloat.shl_align.
    destruct (L + 1 + 0 - 53 - 0) as [|k|k] eqn:Hk; [|lia|].
    + assert (L = 52) as HLeq by lia. rewrite HLeq in Hspec.
      rewrite (round_no_shift sx m 0) by (done || lia).
      cbn [jsnum_of_float Z.leb Z.compare]. rewrite Z.shiftl_0_r. by rewrite Hx.
    + assert (Hshift : Z.pos k = 52 - L) by lia.
      assert (Hmz : Z.pos (Pos.iter xO m k) = a * 2 ^ (52 - L))
        by (by rewrite pos_iter_xO, Hshift).
      pose proof (pow2_pos (52 - L) ltac:(lia)) as Hp.
      assert (H52 : 2 ^ L * 2 ^ (52 - L) = 2 ^ 52).
      { rewrite pow2_add by lia. f_equal. lia. }
      assert (H53 : 2 ^ 53 = 2 * 2 ^ 52) by reflexivity.
      rewrite round_no_shift; [| rewrite Hmz; nia | lia].
      replace (L + 1 + 0 - 53) with (- (52 - L)) by lia.
      destruct (Z.leb_spec (- (52 - L)) 971); [|lia].
      cbn [jsnum_of_float].
      rewrite Z.shiftl_div_pow2, Z.opp_involutive, Hmz, Z.div_mul by lia.
      by rewrite Hx.
  - assert (HL53 : 53 <= L) by (by apply Z.log2_le_pow2).
    unfold SpecFloat.shl_align.
    destruct (L + 1 + 0 - 53 - 0) as [|k|k] eqn:Hk; [lia| |lia].
    unfold SpecFloat.binary_round_aux.
    unfold SpecFloat.shr_fexp at 1. cbn [SpecFloat.Zdigits2 SpecFloat.shr_record_of_loc].
    rewrite digits2_pos_log2. fold a L. rewrite fexp_normal by lia.
    replace (L + 1 + 0 - 53 - 0) with (L - 52) by lia.
    rewrite shr_pos by lia. cbv beta iota. cbn [SpecFloat.shr_m].
    rewrite round_significand by lia.
    set (q' := if _ || _ then _ else _).
    assert (Hq : 2 ^ 52 <= Z.shiftr a (L - 52) < 2 ^ 53).
    { rewrite Z.shiftr_div_pow2 by lia.
      pose proof (pow2_pos (L - 52) ltac:(lia)) as Hp.
      assert (H52 : 2 ^ 52 * 2 ^ (L - 52) = 2 ^ L).
      { rewrite pow2_add by lia. f_equal. lia. }
      assert (H53 : 2 ^ 53 = 2 * 2 ^ 52) by reflexivity.
      split.
      - apply Z.div_le_lower_bound; lia.
      - apply Z.div_lt_upper_bound; nia. }
    assert (Hq' : 2 ^ 52 <= q' <= 2 ^ 53) by (subst q'; destruct (_ || _); lia).
    rewrite (round_second sx q' (0 + (L - 52)) Hq') by lia.
    rewrite Z.add_0_l, Z.shiftl_mul_pow2 by lia. done.
Qed.

(** [to_double] is the rounding to nearest, ties to even, of [binary64]. *)
Lemma to_double_ieee_eq x : to_double x = to_double_ieee x.
Proof.
  unfold to_double_ieee, SpecFloat.binary_normalize.
  destruct x as [|m|m].
  - reflexivity.
  - by rewrite (binary_round_integer false m).
  - by rewrite (binary_round_integer true m).
Qed.

End Ieee.

(** ** [removeDuplicateVideos] *)

Section Dedup.

Implicit Types (videos : list VideoMetadata) (seen : gset string).

Lemma not_elem_of_add seen (i j : string) :
  i ∉ {[j]} ∪ seen <-> i <> j /\ i ∉ seen.
Proof. rewrite elem_of_union, elem_of_singleton. tauto. Qed.

Lemma filter_unseen_ids seen videos i :
  i ∈ (id <$> filter_unseen seen videos) <-> i ∈ (id <$> videos) /\ i ∉ seen.
Proof.
  revert seen. induction videos as [|v rest IH]; intros seen; simpl.
  - rewrite elem_of_nil. tauto.
  - destruct (decide (id v ∈ seen)) as [Hin|Hout]; simpl.
    + rewrite IH, elem_of_cons. split.
      * intros [? ?]. auto.
      * intros [[->|?] ?]; [contradiction|auto].
    + rewrite !elem_of_cons, IH, not_elem_of_add. split.
      * intros [->|[? [? ?]]]; auto.
      * intros [[->|Hr] Hn]; [auto|].
        destruct (decide (i = id v)) as [->|Hne]; auto.
Qed.

Lemma filter_unseen_NoDup seen videos :
  NoDup (id <$> filter_unseen seen videos).
Proof.
  revert seen. induction videos as [|v rest IH]; intros seen; simpl.
  - constructor.
  - destruct (decide (id v ∈ seen)); simpl; [apply IH|].
    constructor; [|apply IH].
    rewrite filter_unseen_ids, not_elem_of_add. tauto.
Qed.

Lemma filter_unseen_sublist seen videos :
  sublist (filter_unseen seen videos) videos.
Proof.
  revert seen. induction videos as [|v rest IH]; intros seen; simpl.
  - constructor.
  - destruct (decide (id v ∈ seen)).
    + apply sublist_cons. apply IH.
    + apply sublist_skip. apply IH.
Qed.

Lemma filter_unseen_first seen videos v :
  v ∈ filter_unseen seen videos ->
  exists before after,
    videos = before ++ (v :: after) /\ (id v ∉ id <$> before) /\ (id v ∉ seen).
Proof.
  revert seen. induction videos as [|w rest IH]; intros seen; simpl.
  - intros Hv. apply elem_of_nil in Hv. contradiction.
  - destruct (decide (id w ∈ seen)) as [Hin|Hout].
    + intros Hv. destruct (IH _ Hv) as (b & a & -> & Hb & Hs).
      exists (w :: b), a. split; [done|]. split; [|done].
      simpl. rewrite elem_of_cons. intros [Heq|?]; [|contradiction].
      rewrite Heq in Hs. contradiction.
    + rewrite elem_of_cons. intros [->|Hv].
      * exists [], rest. split; [done|]. split; [|done].
        simpl. apply not_elem_of_nil.
      * destruct (IH _ Hv) as (b & a & -> & Hb & Hs).
        apply not_elem_of_add in Hs as [Hne Hs].
        exists (w :: b), a. split; [done|]. split; [|done].
        simpl. rewrite elem_of_cons. intros [Heq|?]; [|contradiction].
        contradiction.
Qed.

Lemma filter_unseen_fixed seen videos :
  NoDup (id <$> videos) ->
  (forall i, i ∈ (id <$> videos) -> i ∉ seen) ->
  filter_unseen seen videos = videos.
Proof.
  revert seen. induction videos as [|v rest IH]; intros seen Hnd Hdisj; simpl.
  - reflexivity.
  - simpl in Hnd. apply NoDup_cons in Hnd as [Hv Hnd].
    destruct (decide (id v ∈ seen)) as [Hin|Hout].
    + exfalso. apply (Hdisj (id v)); [|done]. simpl. apply elem_of_cons. auto.
    + f_equal. apply IH; [done|].
      intros i Hi. apply not_elem_of_add. split.
      * intros ->. contradiction.
      * apply Hdisj. simpl. apply elem_of_cons. auto.
Qed.

End Dedup.


(** C7. For every input sequence, [removeDuplicateVideos] returns one entry
    per distinct id: the ids of the output are pairwise distinct and are
    exactly the ids of the input; every entry kept is the first one of the
    input with its id; the entries stay in their input order; and
    [A, B, A, C] gives [A, B, C]. *)
Theorem removeDuplicateVideos_first_seen :
  (forall videos : list VideoMetadata,
      NoDup (id <$> removeDuplicateVideos videos)
      /\ (forall i, i ∈ (id <$> removeDuplicateVideos videos) <-> i ∈ (id <$> videos))
      /\ (forall v, v ∈ removeDuplicateVideos videos ->
            exists before after,
              videos = before ++ (v :: after) /\ (id v ∉ id <$> before))
      /\ sublist (removeDuplicateVideos videos) videos)
  /\ removeDuplicateVideos
       [bare_video "A" "first"; bare_video "B" ""; bare_video "A" "second";
        bare_video "C" ""]
     = [bare_video "A" "first"; bare_video "B" ""; bare_video "C" ""].
Proof.
  split; [|reflexivity].
  intros videos. unfold removeDuplicateVideos.
  split; [|split; [split|split]].
  - apply filter_unseen_NoDup.
  - rewrite filter_unseen_ids. tauto.
  - rewrite filter_unseen_ids. intros Hi. split; [done|]. apply not_elem_of_empty.
  - intros v Hv. destruct (filter_unseen_first _ _ _ Hv) as (b & a & ? & ? & ?). eauto.
  - apply filter_unseen_sublist.
Qed.

Lemma removeDuplicateVideos_first_seen_witness :
  let videos := [bare_video "A" "first"; bare_video "B" ""; bare_video "A" "second";
                 bare_video "C" ""] in
  bare_video "C" "" ∈ removeDuplicateVideos videos
  /\ exists before after,
       videos = before ++ (bare_video "C" "" :: after)
       /\ (id (bare_video "C" "") ∉ id <$> before).
Proof.
  intros videos.
  assert (Hin : bare_video "C" "" ∈ removeDuplicateVideos videos).
  { assert (Hrun : removeDuplicateVideos videos
                   = [bare_video "A" "first"; bare_video "B" ""; bare_video "C" ""])
      by reflexivity.
    rewrite Hrun, !elem_of_cons. auto. }
  split; [exact Hin|].
  exact (proj1 (proj2 (proj2 (proj1 removeDuplicateVideos_first_seen videos)))
           (bare_video "C" "") Hin).
Defined.

(** C10. [removeDuplicateVideos] is idempotent, and it is the identity on
    every sequence whose ids are pairwise distinct. *)
Theorem removeDuplicateVideos_idempotent :
  (forall videos : list VideoMetadata,
      removeDuplicateVideos (removeDuplicateVideos videos)
      = removeDuplicateVideos videos)
  /\ (forall videos : list VideoMetadata,
        NoDup (id <$> videos) -> removeDuplicateVideos videos = videos).
Proof.
  assert (Hfix : forall videos : list VideoMetadata,
             NoDup (id <$> videos) -> removeDuplicateVideos videos = videos).
  { intros videos Hnd. apply filter_unseen_fixed; [done|].
    intros i _. apply not_elem_of_empty. }
  split; [|exact Hfix].
  intros videos. apply Hfix. apply filter_unseen_NoDup.
Qed.

Lemma removeDuplicateVideos_idempotent_witness :
  NoDup (id <$> [bare_video "A" ""; bare_video "B" ""])
  /\ removeDuplicateVideos [bare_video "A" ""; bare_video "B" ""]
     = [bare_video "A" ""; bare_video "B" ""].
Proof.
  assert (Hnd : NoDup (id <$> [bare_video "A" ""; bare_video "B" ""])).
  { simpl. apply NoDup_cons. split; [|apply NoDup_singleton].
    rewrite list_elem_of_singleton. discriminate. }
  split; [exact Hnd|].
  exact (proj2 removeDuplicateVideos_idempotent _ Hnd).
Defined.

(** ** [parseDuration] *)

Section Duration.

Implicit Types (s d r : string) (c X : ascii).

#[local] Arguments String.append !_ _ / : simpl nomatch.

Lemma prefix_drop p s :
  Str.prefix p s = true -> s = p +:+ Str.drop (String.length p) s.
Proof.
  revert s. induction p as [|a p IH]; intros [|b s]; simpl; try done.
  destruct (Ascii.eqb_spec a b) as [->|]; [|done].
  intros Hp. f_equal. by apply IH.
Qed.

Lemma prefix_append p s : Str.prefix p (p +:+ s) = true.
Proof.
  induction p as [|a p IH]; simpl; [done|].
  by rewrite Ascii.eqb_refl.
Qed.

Lemma occurs_cons p c s : Str.occurs p s -> Str.occurs p (String c s).
Proof. intros (a & b & ->). by exists (String c a), b. Qed.

Lemma duration_regex_match_eq s :
  duration_regex_match s =
  if Str.prefix "PT" s then Some (match_groups (Str.drop 2 s))
  else match s with
       | EmptyString => None
       | String _ s' => duration_regex_match s'
       end.
Proof. by destruct s. Qed.

(** The expression matches exactly the strings in which ["PT"] occurs, and
    the groups are read right after an occurrence. *)
Lemma duration_regex_match_Some s m :
  duration_regex_match s = Some m ->
  exists pre r, s = pre +:+ "PT" +:+ r /\ m = match_groups r.
Proof.
  induction s as [|c s IH]; rewrite duration_regex_match_eq.
  - discriminate.
  - destruct (Str.prefix "PT" (String c s)) eqn:Hp.
    + intros [= <-]. exists "", (Str.drop 2 (String c s)).
      split; [|done]. by apply (prefix_drop "PT").
    + intros Hm. destruct (IH Hm) as (pre & r & -> & ->).
      by exists (String c pre), r.
Qed.

Lemma duration_regex_match_None s :
  duration_regex_match s = None <-> ~ Str.occurs "PT" s.
Proof.
  split.
  - intros Hn (a & b & ->). revert Hn.
    induction a as [|c a IH]; rewrite duration_regex_match_eq.
    + change ("" +:+ "PT" +:+ b) with ("PT" +:+ b).
      by rewrite (prefix_append "PT").
    + change (String c a +:+ "PT" +:+ b) with (String c (a +:+ "PT" +:+ b)).
      destruct (Str.prefix "PT" (String c (a +:+ "PT" +:+ b)));
        [discriminate|]. exact IH.
  - intros Hno. destruct (duration_regex_match s) as [m|] eqn:Hm; [|done].
    destruct (duration_regex_match_Some _ _ Hm) as (pre & r & -> & _).
    exfalso. apply Hno. by exists pre, r.
Qed.

Lemma span_digits_spec s d r :
  Str.span_digits s = (d, r) ->
  s = d +:+ r /\ Str.digits_only d = true.
Proof.
  revert d r. induction s as [|c s IH]; simpl; intros d r.
  - by intros [= <- <-].
  - destruct (Str.is_digit c) eqn:Hc.
    + destruct (Str.span_digits s) as [d' r'].
      intros [= <- <-]. destruct (IH _ _ eq_refl) as [-> Hd].
      simpl. by rewrite Hc, Hd.
    + by intros [= <- <-].
Qed.

(** A group that takes part captured a non-empty run of digits and its
    letter, at the head of the input. *)
Lemma match_group_Some X s txt r :
  match_group X s = (Some txt, r) ->
  exists c d, txt = String c d +:+ String X "" /\
              Str.digits_only (String c d) = true /\
              s = String c d +:+ String X r.
Proof.
  unfold match_group.
  destruct (Str.span_digits s) as [[|c d] [|x rest]] eqn:Hs; try discriminate.
  destruct (Ascii.eqb_spec x X) as [->|]; [|discriminate].
  intros [= <- <-]. apply span_digits_spec in Hs as [-> Hd].
  by exists c, d.
Qed.

Lemma match_group_None X s r :
  match_group X s = (None, r) -> r = s.
Proof.
  unfold match_group.
  destruct (Str.span_digits s) as [[|c d] [|x rest]]; try by intros [= <-].
  destruct (Ascii.eqb x X); [discriminate|by intros [= <-]].
Qed.

(** *** The matcher on the expression of [parseDuration] *)

Lemma string_length_append a b :
  String.length (a +:+ b) = (String.length a + String.length b)%nat.
Proof. induction a as [|c a IH]; simpl; [done|by rewrite IH]. Qed.

Lemma substring_prefix a b : String.substring 0 (String.length a) (a +:+ b) = a.
Proof.
  induction a as [|c a IH]; simpl.
  - by destruct b.
  - by rewrite IH.
Qed.

Lemma consumed_prefix a rest : consumed (a +:+ rest) rest = a.
Proof.
  unfold consumed. rewrite string_length_append.
  replace (String.length a + String.length rest - String.length rest)%nat
    with (String.length a) by lia.
  apply substring_prefix.
Qed.

Lemma append_assoc (a b t : string) : (a +:+ b) +:+ t = a +:+ b +:+ t.
Proof. induction a as [|x a IH]; simpl; [done|by rewrite IH]. Qed.

Lemma digit_not_letter c X :
  Str.is_digit c = true -> Str.is_digit X = false -> Ascii.eqb X c = false.
Proof. intros Hc HX. destruct (Ascii.eqb_spec X c) as [->|]; [congruence|done]. Qed.

(** What follows the digits: the letter [X], then [k]. *)
Lemma star_class_letter {A} X (k : string -> option A) s :
  Str.is_digit X = false ->
  let kX := fun s' => match s' with
                      | String c' s'' => if Ascii.eqb X c' then k s'' else None
                      | EmptyString => None
                      end in
  star_class Str.is_digit s kX = kX (Str.span_digits s).2.
Proof.
  intros HX kX. induction s as [|c s IH]; simpl; [done|].
  destruct (Str.is_digit c) eqn:Hc; [|done].
  rewrite IH. destruct (Str.span_digits s) as [d r]. simpl.
  destruct (kX r); [done|].
  unfold kX. by rewrite (digit_not_letter c X Hc HX).
Qed.

Lemma rmatch_digits_letter {A} X s caps (k : string -> captures -> option A) :
  Str.is_digit X = false ->
  rmatch (RSeq (RPlus Str.is_digit) (RChar X)) s caps k =
  match Str.span_digits s with
  | (String d ds, String c rest) => if Ascii.eqb c X then k rest caps else None
  | _ => None
  end.
Proof.
  intros HX. cbn [rmatch]. unfold plus_class.
  destruct s as [|c s]; [done|]. simpl Str.span_digits.
  destruct (Str.is_digit c) eqn:Hc; [|done].
  rewrite (star_class_letter X (fun s'' => k s'' caps) s HX).
  destruct (Str.span_digits s) as [d [|x rest]]; simpl; [done|].
  destruct (Ascii.eqb_spec X x) as [->|Hne]; [by rewrite Ascii.eqb_refl|].
  destruct (Ascii.eqb_spec x X); [congruence|done].
Qed.

Lemma rmatch_opt_group {A} i body s caps (k : string -> captures -> option A) :
  rmatch (ROptGroup i body) s caps k =
  match rmatch body s caps
          (fun s' caps' => k s' (set_capture i (Some (consumed s s')) caps')) with
  | Some a => Some a
  | None => k s (set_capture i None caps)
  end.
Proof. reflexivity. Qed.

(** With a continuation that cannot fail, a group is decided where it
    stands. *)
Lemma rmatch_digits_then {A} i X s caps (k : string -> captures -> option A) :
  Str.is_digit X = false ->
  (forall s' caps', k s' caps' <> None) ->
  rmatch (digits_then i X) s caps k
  = k (match_group X s).2 (set_capture i (match_group X s).1 caps).
Proof.
  intros HX Hk. unfold digits_then.
  rewrite rmatch_opt_group, rmatch_digits_letter by done. unfold match_group.
  destruct (Str.span_digits s) as [[|d ds] [|c rest]] eqn:Hs; try done.
  destruct (Ascii.eqb_spec c X) as [->|]; [|done].
  apply span_digits_spec in Hs as [Hs _].
  assert (Htxt : consumed s rest = String d ds +:+ String X "").
  { assert (Hs' : s = (String d ds +:+ String X "") +:+ rest)
      by (by rewrite Hs, append_assoc).
    rewrite Hs'. apply consumed_prefix. }
  rewrite Htxt. cbn [fst snd].
  destruct (k rest _) eqn:Hrun; [done|]. by apply Hk in Hrun.
Qed.

Lemma rmatch_duration s :
  rmatch duration_regex s no_captures (fun _ caps => Some caps)
  = if Str.prefix "PT" s then Some (group_captures (Str.drop 2 s)) else None.
Proof.
  unfold duration_regex.
  destruct s as [|p [|t s]]; cbn [rmatch Str.prefix Str.drop]; try done.
  - by destruct (Ascii.eqb "P" p).
  - destruct (Ascii.eqb "P" p); [|done]. destruct (Ascii.eqb "T" t); [|done].
    assert (H3 : forall s' caps',
               rmatch (digits_then 3 "S") s' caps' (fun _ caps => Some caps)
               = Some (set_capture 3 (match_group "S" s').1 caps')).
    { intros s' caps'. by rewrite rmatch_digits_then. }
    assert (H2 : forall s' caps',
               rmatch (digits_then 2 "M") s' caps'
                 (fun s'' caps'' =>
                    rmatch (digits_then 3 "S") s'' caps'' (fun _ caps => Some caps))
               = Some (set_capture 3 (match_group "S" (match_group "M" s').2).1
                         (set_capture 2 (match_group "M" s').1 caps'))).
    { intros s' caps'. rewrite rmatch_digits_then; [apply H3|done|].
      intros s'' caps''. by rewrite H3. }
    rewrite rmatch_digits_then; [|done|].
    + rewrite H2. unfold group_captures.
      destruct (match_group "H" s) as [g1 s1]. cbn [fst snd].
      destruct (match_group "M" s1) as [g2 s2]. cbn [fst snd].
      by destruct (match_group "S" s2) as [g3 s3].
    + intros s' caps'. by rewrite H2.
Qed.

Lemma regex_exec_eq (re : regex) s :
  regex_exec re s =
  match rmatch re s no_captures (fun _ caps => Some caps) with
  | Some caps => Some caps
  | None =>
      match s with
      | String _ s' => regex_exec re s'
      | EmptyString => None
      end
  end.
Proof. by destruct s. Qed.

(** The matcher finds what [duration_regex_match] reads off the
    expression. *)
Lemma regex_exec_duration s :
  match regex_exec duration_regex s, duration_regex_match s with
  | Some caps, Some m =>
      caps 1%nat = group1 m /\ caps 2%nat = group2 m /\ caps 3%nat = group3 m
  | None, None => True
  | _, _ => False
  end.
Proof.
  induction s as [|c s IH]; rewrite regex_exec_eq, duration_regex_match_eq,
    rmatch_duration.
  - done.
  - destruct (Str.prefix "PT" (String c s)); [|exact IH].
    unfold group_captures, match_groups.
    destruct (match_group "H" _) as [g1 s1].
    destruct (match_group "M" s1) as [g2 s2].
    by destruct (match_group "S" s2) as [g3 s3].
Qed.

Lemma parseDuration_eq s :
  parseDuration s =
  match duration_regex_match s with
  | None => Num 0
  | Some m =>
      jsnum_add (jsnum_add (group_seconds (group1 m) "H" 3600)
                           (group_seconds (group2 m) "M" 60))
                (default (Num 0) (group_number (group3 m) "S"))
  end.
Proof.
  unfold parseDuration. pose proof (regex_exec_duration s) as Hm.
  destruct (regex_exec duration_regex s) as [caps|],
           (duration_regex_match s) as [m|]; try done.
  by destruct Hm as (-> & -> & ->).
Qed.

(** The match starts at the first ["PT"]. *)
Lemma duration_regex_match_first pre rest :
  ~ Str.occurs "PT" pre ->
  duration_regex_match (pre +:+ "PT" +:+ rest) = Some (match_groups rest).
Proof.
  induction pre as [|c pre IH]; intros Hno; rewrite duration_regex_match_eq.
  - change ("" +:+ "PT" +:+ rest) with ("PT" +:+ rest).
    by rewrite (prefix_append "PT").
  - change (String c pre +:+ "PT" +:+ rest) with (String c (pre +:+ "PT" +:+ rest)).
    destruct (Str.prefix "PT" (String c (pre +:+ "PT" +:+ rest))) eqn:Hp.
    + exfalso. cbn [Str.prefix] in Hp.
      destruct (Ascii.eqb_spec "P" c) as [<-|]; [|done].
      destruct pre as [|t pre]; [done|]. cbn [String.append] in Hp.
      destruct (Ascii.eqb_spec "T" t) as [<-|]; [|done].
      apply Hno. by exists "", pre.
    + apply IH. intros Hocc. apply Hno. by apply occurs_cons.
Qed.

Lemma first_PT s :
  Str.occurs "PT" s ->
  exists pre r, s = pre +:+ "PT" +:+ r /\ ~ Str.occurs "PT" pre.
Proof.
  induction s as [|c s IH]; intros Hocc.
  - destruct Hocc as ([|a pre] & r & Heq); discriminate Heq.
  - destruct (Str.prefix "PT" (String c s)) eqn:Hp.
    + exists "", (Str.drop 2 (String c s)). split.
      * by apply (prefix_drop "PT").
      * intros ([|a pre] & r & Heq); discriminate Heq.
    + destruct IH as (pre & r & -> & Hno).
      * destruct Hocc as ([|a pre] & r & Heq).
        -- exfalso. change ("" +:+ "PT" +:+ r) with ("PT" +:+ r) in Heq.
           by rewrite Heq, (prefix_append "PT") in Hp.
        -- injection Heq as _ ->. by exists pre, r.
      * exists (String c pre), r. split; [done|].
        intros ([|a pre'] & r' & Heq).
        -- change ("" +:+ "PT" +:+ r') with ("PT" +:+ r') in Heq.
           injection Heq as -> ->. by cbn in Hp.
        -- injection Heq as _ Heq. apply Hno. by exists pre', r'.
Qed.

(** *** Doubles *)

Lemma to_double_exact x : Z.abs x < 2 ^ 53 -> to_double x = Num x.
Proof.
  intros Hx. unfold to_double. cbv zeta.
  by destruct (Z.ltb_spec (Z.abs x) (2 ^ 53)); [|lia].
Qed.

Lemma to_double_nonneg x : 0 <= x -> nonneg_or_infinite (to_double x).
Proof.
  intros Hx. unfold to_double. cbv zeta.
  destruct (Z.abs x <? 2 ^ 53); [done|].
  destruct (2 ^ 1024 <=? _).
  - by destruct (Z.ltb_spec x 0); [lia|].
  - cbn [nonneg_or_infinite]. apply Z.mul_nonneg_nonneg; [lia|].
    apply Z.shiftl_nonneg.
    assert (0 <= Z.shiftr (Z.abs x) (Z.log2 (Z.abs x) - 52))
      by (apply Z.shiftr_nonneg; lia).
    destruct (_ || _); lia.
Qed.

Lemma jsnum_mul_nonneg a k :
  nonneg_or_infinite a -> 0 < k -> nonneg_or_infinite (jsnum_mul a (Num k)).
Proof.
  intros Ha Hk. destruct a as [|x| |]; try done.
  - change (nonneg_or_infinite (to_double (x * k))).
    apply to_double_nonneg. cbn in Ha. nia.
  - cbn. by destruct (Z.eqb_spec k 0); [lia|destruct (Z.ltb_spec k 0); [lia|]].
Qed.

Lemma jsnum_add_nonneg a b :
  nonneg_or_infinite a -> nonneg_or_infinite b -> nonneg_or_infinite (jsnum_add a b).
Proof.
  intros Ha Hb. destruct a as [|x| |], b as [|y| |]; try done.
  change (nonneg_or_infinite (to_double (x + y))).
  apply to_double_nonneg. cbn in Ha, Hb. lia.
Qed.

Lemma duration_seconds_exact h m sec :
  0 <= h -> 0 <= m -> 0 <= sec ->
  3600 * h + 60 * m + sec < 2 ^ 53 ->
  duration_seconds h m sec = Num (3600 * h + 60 * m + sec).
Proof.
  intros Hh Hm Hs Hsum. unfold duration_seconds.
  rewrite (to_double_exact h), (to_double_exact m), (to_double_exact sec) by lia.
  cbn [jsnum_mul]. rewrite (to_double_exact (h * 3600)), (to_double_exact (m * 60)) by lia.
  cbn [jsnum_add]. rewrite (to_double_exact (h * 3600 + m * 60)) by lia.
  cbn [jsnum_add]. rewrite to_double_exact by lia. f_equal. lia.
Qed.

Lemma duration_seconds_nonneg h m sec :
  0 <= h -> 0 <= m -> 0 <= sec -> nonneg_or_infinite (duration_seconds h m sec).
Proof.
  intros Hh Hm Hs. unfold duration_seconds.
  repeat first [ apply jsnum_add_nonneg | apply jsnum_mul_nonneg
               | by apply to_double_nonneg | lia ].
Qed.

(** *** [parseInt] on a run of digits *)

Lemma digit_char c :
  Str.is_digit c = true ->
  Str.is_space c = false
  /\ (forall s, strip_sign (String c s) = (1, String c s))
  /\ (exists v, Str.digit_value c = Some v /\ 0 <= v < 10)
  /\ (forall X, Str.is_digit X = false -> Ascii.eqb X c = false).
Proof.
  intros Hc. repeat split.
  - destruct c as [[] [] [] [] [] [] [] []]; try discriminate Hc; reflexivity.
  - intros s.
    destruct c as [[] [] [] [] [] [] [] []]; try discriminate Hc; reflexivity.
  - destruct c as [[] [] [] [] [] [] [] []]; try discriminate Hc;
      (eexists; split; [reflexivity|done]).
  - intros X HX. destruct (Ascii.eqb_spec X c) as [->|]; [congruence|done].
Qed.

Lemma has_hex_prefix_digits c d :
  Str.digits_only (String c d) = true -> has_hex_prefix (String c d) = false.
Proof.
  cbn [Str.digits_only]. intros [Hc Hd]%andb_prop.
  unfold has_hex_prefix. cbn [Str.prefix].
  destruct d as [|c2 d].
  - by destruct (Ascii.eqb "0" c).
  - cbn [Str.digits_only] in Hd. apply andb_prop in Hd as [Hc2 _].
    destruct (digit_char c2 Hc2) as (_ & _ & _ & Hne).
    rewrite (Hne "x"%char), (Hne "X"%char) by done.
    by destruct (Ascii.eqb "0" c).
Qed.

Lemma digit_value_digit c :
  Str.is_digit c = true -> Str.digit_value c = Some (Str.code c - 48).
Proof. unfold Str.is_digit, Str.digit_value. cbn zeta. by intros ->. Qed.

(** A character that is no digit is no digit of radix 10. *)
Lemma radix_prefix_stops tail acc n :
  no_digit_ahead tail = true -> radix_prefix 10 tail acc n = (acc, n).
Proof.
  destruct tail as [|c tail]; [done|]. cbn [no_digit_ahead radix_prefix].
  unfold Str.is_digit, Str.digit_value. cbv zeta. intros Hc.
  destruct ((48 <=? Str.code c) && (Str.code c <=? 57)) eqn:H09; [done|].
  destruct ((97 <=? Str.code c) && (Str.code c <=? 122)) eqn:Haz.
  - by destruct (Z.ltb_spec (Str.code c - 87) 10); [lia|].
  - destruct ((65 <=? Str.code c) && (Str.code c <=? 90)) eqn:HAZ; [|done].
    by destruct (Z.ltb_spec (Str.code c - 55) 10); [lia|].
Qed.

Lemma radix_prefix_run d tail acc n :
  Str.digits_only d = true -> no_digit_ahead tail = true ->
  radix_prefix 10 (d +:+ tail) acc n = (decimal_from acc d, (n + String.length d)%nat).
Proof.
  intros Hd Htail. revert acc n. induction d as [|c d IH]; intros acc n.
  - cbn [String.append decimal_from String.length].
    rewrite radix_prefix_stops by done. f_equal. lia.
  - cbn [Str.digits_only] in Hd. apply andb_prop in Hd as [Hc Hd].
    cbn [String.append radix_prefix decimal_from String.length].
    rewrite (digit_value_digit c Hc).
    assert (Hlt : (Str.code c - 48 <? 10) = true).
    { unfold Str.is_digit in Hc. apply andb_prop in Hc as [_ Hc]. lia. }
    rewrite Hlt, IH by done. f_equal. lia.
Qed.

Lemma decimal_from_nonneg d acc :
  Str.digits_only d = true -> 0 <= acc -> 0 <= decimal_from acc d.
Proof.
  revert acc. induction d as [|c d IH]; intros acc Hd Hacc; [done|].
  cbn [Str.digits_only] in Hd. apply andb_prop in Hd as [Hc Hd].
  cbn [decimal_from]. apply IH; [done|].
  unfold Str.is_digit in Hc. apply andb_prop in Hc as [Hc _]. lia.
Qed.

Lemma decimal_value_nonneg d : Str.digits_only d = true -> 0 <= decimal_value d.
Proof. intros Hd. by apply decimal_from_nonneg. Qed.

Lemma part_value_nonneg o : digit_run o -> 0 <= part_value o.
Proof.
  destruct o as [d|]; [|done]. intros [_ Hd]. by apply decimal_value_nonneg.
Qed.

(** [parseInt(s, 10)] reads the run of digits that [s] starts with, and
    nothing of what follows it. *)
Lemma parseInt_run c d tail :
  Str.digits_only (String c d) = true -> no_digit_ahead tail = true ->
  parseInt (String c d +:+ tail) (Some 10) = to_double (decimal_value (String c d)).
Proof.
  intros Hd Htail. pose proof Hd as Hd'. cbn [Str.digits_only] in Hd'.
  apply andb_prop in Hd' as [Hc _].
  destruct (digit_char c Hc) as (Hsp & Hsign & _ & _).
  unfold parseInt. cbn [String.append Str.trim_start]. rewrite Hsp, Hsign.
  simpl default.
  cbn [Z.eqb Pos.eqb negb andb orb Z.ltb Z.compare Pos.compare Pos.compare_cont].
  change (String c (d +:+ tail)) with (String c d +:+ tail).
  rewrite radix_prefix_run by done. cbn [String.length Nat.add].
  unfold decimal_value. f_equal; lia.
Qed.

(** A minus sign before the digits negates the number. *)
Lemma parseInt_minus c d tail :
  Str.digits_only (String c d) = true -> no_digit_ahead tail = true ->
  parseInt ("-" +:+ String c d +:+ tail) (Some 10)
  = to_double (- decimal_value (String c d)).
Proof.
  intros Hd Htail. unfold parseInt.
  change (Str.trim_start ("-" +:+ String c d +:+ tail))
    with ("-" +:+ String c d +:+ tail).
  change (strip_sign ("-" +:+ String c d +:+ tail)) with (-1, String c d +:+ tail).
  simpl default.
  cbn [Z.eqb Pos.eqb negb andb orb Z.ltb Z.compare Pos.compare Pos.compare_cont].
  rewrite radix_prefix_run by done. cbn [String.length Nat.add].
  unfold decimal_value. f_equal; lia.
Qed.

(** A string that starts with a character that is no digit, no white space
    and no sign is no number. *)
Lemma parseInt_no_digit c tail :
  Str.is_digit c = false -> Str.is_space c = false ->
  c <> "-"%char -> c <> "+"%char ->
  parseInt (String c tail) (Some 10) = NaN.
Proof.
  intros Hd Hsp Hminus Hplus. unfold parseInt. cbn [Str.trim_start]. rewrite Hsp.
  assert (Hsign : strip_sign (String c tail) = (1, String c tail)).
  { destruct c as [[] [] [] [] [] [] [] []]; try reflexivity; congruence. }
  rewrite Hsign.
  simpl default.
  cbn [Z.eqb Pos.eqb negb andb orb Z.ltb Z.compare Pos.compare Pos.compare_cont].
  rewrite radix_prefix_stops; [done|]. cbn [no_digit_ahead]. by rewrite Hd.
Qed.

(** Without a radix, a non-empty run of digits is read in radix 10. *)
Lemma parseInt_digits_only c d :
  Str.digits_only (String c d) = true ->
  parseInt (String c d) None = to_double (decimal_value (String c d)).
Proof.
  intros Hd. pose proof Hd as Hd'. cbn [Str.digits_only] in Hd'.
  apply andb_prop in Hd' as [Hc _].
  destruct (digit_char c Hc) as (Hsp & Hsign & _ & _).
  unfold parseInt. cbn [Str.trim_start]. rewrite Hsp, Hsign.
  simpl default.
  cbn [Z.eqb Pos.eqb negb andb orb Z.ltb Z.compare Pos.compare Pos.compare_cont].
  rewrite (has_hex_prefix_digits c d Hd).
  assert (Hrun : radix_prefix 10 (String c d) 0 0
                 = (decimal_from 0 (String c d), String.length (String c d))).
  { pose proof (radix_prefix_run (String c d) "" 0 0 Hd eq_refl) as Hrun.
    assert (Hnil : String c d +:+ "" = String c d).
    { clear. generalize (String c d). intros t.
      induction t as [|a t IH]; simpl; [done|by rewrite IH]. }
    by rewrite Hnil in Hrun. }
  rewrite Hrun. cbn [String.length]. unfold decimal_value. f_equal; lia.
Qed.

(** *** The groups *)

Lemma remove_first_eq p s :
  Str.remove_first p s =
  if Str.prefix p s then Str.drop (String.length p) s
  else match s with
       | EmptyString => EmptyString
       | String c s' => String c (Str.remove_first p s')
       end.
Proof. by destruct s. Qed.

(** [(d + X).replace(X, "")] is [d] when [d] is a run of digits and [X] a
    letter. *)
Lemma remove_first_letter X d :
  Str.is_digit X = false -> Str.digits_only d = true ->
  Str.remove_first (String X "") (d +:+ String X "") = d.
Proof.
  intros HX. induction d as [|c d IH]; intros Hd; rewrite remove_first_eq.
  - simpl. by rewrite Ascii.eqb_refl.
  - cbn [Str.digits_only] in Hd. apply andb_prop in Hd as [Hc Hd].
    destruct (digit_char c Hc) as (_ & _ & _ & Hne).
    simpl. rewrite (Hne X HX). f_equal. by apply IH.
Qed.

(** The number of a component [nX] is the number that [n] denotes. *)
Lemma group_number_value X d :
  d <> "" -> Str.digits_only d = true -> Str.is_digit X = false ->
  group_number (Some (d +:+ String X "")) (String X "")
  = Some (to_double (decimal_value d)).
Proof.
  intros Hne Hd HX. destruct d as [|c d]; [done|].
  pose proof (remove_first_letter X (String c d) HX Hd) as Hrm.
  change (String c d +:+ String X "") with (String c (d +:+ String X "")) in *.
  unfold group_number. by rewrite Hrm, parseInt_digits_only.
Qed.

Lemma group_number_part X o :
  digit_run o -> Str.is_digit X = false ->
  default (Num 0) (group_number (option_map (fun d => d +:+ String X "") o)
                     (String X ""))
  = to_double (part_value o).
Proof.
  intros Ho HX. destruct o as [d|]; [|done]. destruct Ho as [Hne Hd].
  cbn [option_map part_value]. by rewrite group_number_value.
Qed.

Lemma group_seconds_part X o k :
  digit_run o -> Str.is_digit X = false ->
  group_seconds (option_map (fun d => d +:+ String X "") o) (String X "") k
  = jsnum_mul (to_double (part_value o)) (Num k).
Proof.
  intros Ho HX. unfold group_seconds. destruct o as [d|].
  - destruct Ho as [Hne Hd]. cbn [option_map part_value].
    by rewrite group_number_value.
  - reflexivity.
Qed.

Lemma span_digits_run d X rest :
  Str.digits_only d = true -> Str.is_digit X = false ->
  Str.span_digits (d +:+ String X rest) = (d, String X rest).
Proof.
  intros Hd HX. induction d as [|c d IH]; simpl.
  - by rewrite HX.
  - cbn [Str.digits_only] in Hd. apply andb_prop in Hd as [Hc Hd].
    by rewrite Hc, IH.
Qed.

(** A group either takes a non-empty run of digits and its letter from the
    head of the input, or the input does not start with them. *)
Lemma match_group_cases X s :
  (exists d r, d <> "" /\ Str.digits_only d = true /\ s = d +:+ String X r
               /\ match_group X s = (Some (d +:+ String X ""), r))
  \/ (starts_group X s = false /\ match_group X s = (None, s)).
Proof.
  unfold match_group, starts_group.
  destruct (Str.span_digits s) as [[|c d] [|x rest]] eqn:Hs; auto.
  destruct (Ascii.eqb_spec x X) as [->|]; auto.
  left. apply span_digits_spec in Hs as [-> Hd]. by exists (String c d), rest.
Qed.

Lemma match_group_hit X d rest :
  d <> "" -> Str.digits_only d = true -> Str.is_digit X = false ->
  match_group X (d +:+ String X rest) = (Some (d +:+ String X ""), rest).
Proof.
  intros Hne Hd HX. unfold match_group. rewrite span_digits_run by done.
  destruct d as [|c d]; [done|]. by rewrite Ascii.eqb_refl.
Qed.

Lemma match_group_other X Y d rest :
  Str.digits_only d = true -> Str.is_digit Y = false -> Y <> X ->
  match_group X (d +:+ String Y rest) = (None, d +:+ String Y rest).
Proof.
  intros Hd HY Hne. unfold match_group. rewrite span_digits_run by done.
  destruct d as [|c d]; [done|].
  by destruct (Ascii.eqb_spec Y X).
Qed.

Lemma match_group_miss X rest :
  starts_group X rest = false -> match_group X rest = (None, rest).
Proof.
  intros Hs. by destruct (match_group_cases X rest) as [(d & r & _ & _ & _ & Hm)|[_ ?]];
    [|done]; exfalso; revert Hs Hm; unfold starts_group, match_group;
    destruct (Str.span_digits rest) as [[|c d'] [|x t]]; try done;
    destruct (Ascii.eqb x X).
Qed.

Lemma part_app d X rest : (d +:+ String X "") +:+ rest = d +:+ String X rest.
Proof. by rewrite append_assoc. Qed.

Lemma append_empty_l d : "" +:+ d = d.
Proof. reflexivity. Qed.

Lemma append_empty_r d : d +:+ "" = d.
Proof. induction d as [|c d IH]; simpl; [done|by rewrite IH]. Qed.

Lemma duration_regex_match_PT rest :
  duration_regex_match ("PT" +:+ rest) = Some (match_groups rest).
Proof. by rewrite duration_regex_match_eq, (prefix_append "PT"). Qed.

(** The groups of a string that is made of components, and of what follows
    them. *)
Lemma match_groups_parts (h m sec : option string) rest :
  digit_run h -> digit_run m -> digit_run sec ->
  components_end h m sec rest = true ->
  match_groups (duration_part h "H" +:+ duration_part m "M"
                +:+ duration_part sec "S" +:+ rest)
  = MkMatch (option_map (fun d => d +:+ "H") h) (option_map (fun d => d +:+ "M") m)
            (option_map (fun d => d +:+ "S") sec).
Proof.
  intros Hh Hm Hs Hend. unfold match_groups, components_end in *.
  destruct h as [dh|], m as [dm|], sec as [ds|];
    cbn [duration_part digit_run open_letters forallb option_map] in *;
    repeat match goal with
           | H : _ /\ _ |- _ => destruct H
           | H : _ && _ = true |- _ => apply andb_prop in H as [? ?]
           | H : negb _ = true |- _ => apply negb_true_iff in H
           end;
    rewrite ?append_empty_l, ?part_app, ?append_empty_l;
    repeat (first
      [ rewrite (match_group_hit "H") by done
      | rewrite (match_group_hit "M") by done
      | rewrite (match_group_hit "S") by done
      | rewrite (match_group_other "H" "M") by done
      | rewrite (match_group_other "H" "S") by done
      | rewrite (match_group_other "M" "S") by done
      | rewrite (match_group_miss "H" rest) by done
      | rewrite (match_group_miss "M" rest) by done
      | rewrite (match_group_miss "S" rest) by done ]; cbv beta iota);
    reflexivity.
Qed.

(** Every string after a ["PT"] is made of the components that the groups
    take, and of what follows them. *)
Lemma match_groups_complete r :
  exists h m sec rest,
    r = duration_part h "H" +:+ duration_part m "M" +:+ duration_part sec "S" +:+ rest
    /\ digit_run h /\ digit_run m /\ digit_run sec
    /\ components_end h m sec rest = true.
Proof.
  destruct (match_group_cases "H" r) as [(dh & r1 & ? & ? & -> & _)|[HH _]];
    [exists (Some dh)|exists None].
  - destruct (match_group_cases "M" r1) as [(dm & r2 & ? & ? & -> & _)|[HM _]];
      [exists (Some dm)|exists None].
    + destruct (match_group_cases "S" r2) as [(ds & r3 & ? & ? & -> & _)|[HS _]];
        [exists (Some ds), r3|exists None, r2];
        cbn [duration_part digit_run]; rewrite ?part_app, ?append_empty_l;
        repeat split; try done.
      unfold components_end. cbn. by rewrite HS.
    + destruct (match_group_cases "S" r1) as [(ds & r3 & ? & ? & -> & _)|[HS _]];
        [exists (Some ds), r3|exists None, r1];
        cbn [duration_part digit_run]; rewrite ?part_app, ?append_empty_l;
        repeat split; try done.
      unfold components_end. cbn. by rewrite HM, HS.
  - destruct (match_group_cases "M" r) as [(dm & r2 & ? & ? & -> & _)|[HM _]];
      [exists (Some dm)|exists None].
    + destruct (match_group_cases "S" r2) as [(ds & r3 & ? & ? & -> & _)|[HS _]];
        [exists (Some ds), r3|exists None, r2];
        cbn [duration_part digit_run]; rewrite ?part_app, ?append_empty_l;
        repeat split; try done.
      unfold components_end. cbn. by rewrite HS.
    + destruct (match_group_cases "S" r) as [(ds & r3 & ? & ? & -> & _)|[HS _]];
        [exists (Some ds), r3|exists None, r];
        cbn [duration_part digit_run]; rewrite ?part_app, ?append_empty_l;
        repeat split; try done.
      unfold components_end. cbn. by rewrite HH, HM, HS.
Qed.

(** The value of a string with a ["PT"], by its components. *)
Lemma parseDuration_parts pre (h m sec : option string) rest :
  ~ Str.occurs "PT" pre ->
  digit_run h -> digit_run m -> digit_run sec ->
  components_end h m sec rest = true ->
  parseDuration (pre +:+ "PT" +:+ duration_part h "H" +:+ duration_part m "M"
                 +:+ duration_part sec "S" +:+ rest)
  = duration_seconds (part_value h) (part_value m) (part_value sec).
Proof.
  intros Hpre Hh Hm Hs Hend.
  rewrite parseDuration_eq, duration_regex_match_first by done.
  rewrite match_groups_parts by done. cbn [group1 group2 group3].
  rewrite (group_seconds_part "H"), (group_seconds_part "M"),
    (group_number_part "S") by done.
  reflexivity.
Qed.

(** [parseDuration] never gives [NaN] or a negative number. *)
Lemma parseDuration_nonneg s : nonneg_or_infinite (parseDuration s).
Proof.
  rewrite parseDuration_eq.
  destruct (duration_regex_match s) as [gs|] eqn:Hgs; [|done].
  destruct (duration_regex_match_Some _ _ Hgs) as (pre & r & _ & ->).
  destruct (match_groups_complete r) as (h & m & sec & rest & -> & Hh & Hm & Hs & Hend).
  rewrite match_groups_parts by done. cbn [group1 group2 group3].
  rewrite (group_seconds_part "H"), (group_seconds_part "M"),
    (group_number_part "S") by done.
  apply duration_seconds_nonneg; by apply part_value_nonneg.
Qed.

End Duration.

(** C6, as the code has it.  ["PT1H2M3S"], ["PT0S"] and ["PT45M"] give
    3723, 0 and 2700.  Nothing is thrown, and no string gives [NaN] or a
    negative number: the result is a non-negative integer, or [Infinity]
    when a component has more digits than a double holds.  The value is
    read at the first ["PT"] only.  A string without ["PT"] gives 0.  A
    string with ["PT"] is some text without ["PT"], then ["PT"], then the
    components [nH], [nM], [nS] that are there, then text that does not go
    on with a further component; what is before the
    ["PT"] and after the components is ignored, and the value is that of
    the components: [3600 * hours + 60 * minutes + seconds] in double
    arithmetic, which is exact below 2^53.  So a string gives 0 when no
    component follows its first ["PT"] (["PTPT5M"]), and a malformed string
    with components gives their value (["PT5Mxyz"] gives 300). *)
Theorem parseDuration_lenient :
  parseDuration "PT1H2M3S" = Num 3723
  /\ parseDuration "PT0S" = Num 0
  /\ parseDuration "PT45M" = Num 2700
  /\ (forall s, nonneg_or_infinite (parseDuration s))
  /\ (forall s, ~ Str.occurs "PT" s -> parseDuration s = Num 0)
  /\ (forall s, Str.occurs "PT" s ->
        exists pre h m sec rest,
          s = pre +:+ "PT" +:+ duration_part h "H" +:+ duration_part m "M"
              +:+ duration_part sec "S" +:+ rest
          /\ ~ Str.occurs "PT" pre
          /\ digit_run h /\ digit_run m /\ digit_run sec
          /\ components_end h m sec rest = true)
  /\ (forall pre h m sec rest,
        ~ Str.occurs "PT" pre ->
        digit_run h -> digit_run m -> digit_run sec ->
        components_end h m sec rest = true ->
        let s := pre +:+ "PT" +:+ duration_part h "H" +:+ duration_part m "M"
                 +:+ duration_part sec "S" +:+ rest in
        parseDuration s
        = duration_seconds (part_value h) (part_value m) (part_value sec)
        /\ (3600 * part_value h + 60 * part_value m + part_value sec < 2 ^ 53 ->
            parseDuration s
            = Num (3600 * part_value h + 60 * part_value m + part_value sec)))
  /\ (forall pre rest,
        ~ Str.occurs "PT" pre -> group_at rest = false ->
        parseDuration (pre +:+ "PT" +:+ rest) = Num 0)
  /\ parseDuration "PT5Mxyz" = Num 300
  /\ parseDuration "PTPT5M" = Num 0
  /\ parseDuration ("PT" +:+ nines 400 +:+ "S") = Infinity.
Proof.
  assert (Hparts : forall pre h m sec rest,
             ~ Str.occurs "PT" pre ->
             digit_run h -> digit_run m -> digit_run sec ->
             components_end h m sec rest = true ->
             let s := pre +:+ "PT" +:+ duration_part h "H" +:+ duration_part m "M"
                      +:+ duration_part sec "S" +:+ rest in
             parseDuration s
             = duration_seconds (part_value h) (part_value m) (part_value sec)
             /\ (3600 * part_value h + 60 * part_value m + part_value sec < 2 ^ 53 ->
                 parseDuration s
                 = Num (3600 * part_value h + 60 * part_value m + part_value sec))).
  { intros pre h m sec rest Hpre Hh Hm Hs Hend s.
    assert (Hval : parseDuration s
                   = duration_seconds (part_value h) (part_value m) (part_value sec))
      by (by apply parseDuration_parts).
    split; [exact Hval|]. intros Hsmall. rewrite Hval.
    apply duration_seconds_exact; try done; by apply part_value_nonneg. }
  split; [reflexivity|]. split; [reflexivity|]. split; [reflexivity|].
  split; [apply parseDuration_nonneg|].
  split.
  { intros s Hno. apply duration_regex_match_None in Hno.
    by rewrite parseDuration_eq, Hno. }
  split.
  { intros s Hocc. destruct (first_PT s Hocc) as (pre & r & -> & Hpre).
    destruct (match_groups_complete r) as (h & m & sec & rest & -> & ? & ? & ? & ?).
    by exists pre, h, m, sec, rest. }
  split; [exact Hparts|].
  split.
  { intros pre rest Hpre Hrest.
    assert (Hend : components_end None None None rest = true).
    { unfold group_at in Hrest. unfold components_end. cbn.
      by destruct (starts_group "H" rest), (starts_group "M" rest),
           (starts_group "S" rest). }
    exact (proj2 (Hparts pre None None None rest Hpre I I I Hend) eq_refl). }
  split; [reflexivity|]. split; [reflexivity|].
  vm_compute. reflexivity.
Qed.

Lemma parseDuration_lenient_witness :
  ~ Str.occurs "PT" "x" /\ digit_run (Some "5")
  /\ components_end None (Some "5") None "xyz" = true
  /\ 3600 * 0 + 60 * 5 + 0 < 2 ^ 53
  /\ parseDuration "xPT5Mxyz" = Num (3600 * 0 + 60 * 5 + 0).
Proof.
  assert (Hno : ~ Str.occurs "PT" "x").
  { apply duration_regex_match_None. reflexivity. }
  assert (H5 : digit_run (Some "5")) by (by split).
  assert (Hsmall : 3600 * 0 + 60 * 5 + 0 < 2 ^ 53) by reflexivity.
  split; [exact Hno|]. split; [exact H5|]. split; [reflexivity|].
  split; [exact Hsmall|].
  exact (proj2 (proj1 (proj2 (proj2 (proj2 (proj2 (proj2 (proj2
           parseDuration_lenient))))))
                  "x" None (Some "5") None "xyz" Hno I H5 I eq_refl) Hsmall).
Defined.

(** C6 fails as stated: ["PT5Mxyz"] and ["xPT5M"] are no well-formed
    durations, and they are read as 300 seconds, not as 0. *)
Lemma malformed_duration_not_zero :
  iso_time_duration "PT5Mxyz" = false
  /\ parseDuration "PT5Mxyz" = Num 300
  /\ iso_time_duration "xPT5M" = false
  /\ parseDuration "xPT5M" = Num 300
  /\ Num 300 <> Num 0.
Proof. repeat split; try reflexivity. discriminate. Qed.

(** C9. [parseDuration] gives 0 for every string in which ["PT"] does not
    occur; ["P1DT2H"] is such a string, so neither its day nor its hours
    count. *)
Theorem parseDuration_without_PT :
  (forall s, ~ Str.occurs "PT" s -> parseDuration s = Num 0)
  /\ ~ Str.occurs "PT" "P1DT2H"
  /\ parseDuration "P1DT2H" = Num 0.
Proof.
  split; [|split; [|reflexivity]].
  - intros s Hno. apply duration_regex_match_None in Hno.
    by rewrite parseDuration_eq, Hno.
  - by apply duration_regex_match_None.
Qed.

Lemma parseDuration_without_PT_witness :
  ~ Str.occurs "PT" "P2W" /\ parseDuration "P2W" = Num 0.
Proof.
  assert (Hno : ~ Str.occurs "PT" "P2W").
  { apply duration_regex_match_None. reflexivity. }
  split; [exact Hno|].
  exact (proj1 parseDuration_without_PT "P2W" Hno).
Defined.

(** ** The service: one pass of the pagination loop *)

Section ServiceFacts.

Context {P : Type} {provider : Provider P}.
Variable cal : Calendar.

Implicit Types (s : YouTubeService P) (v : page_vars) (e : Error).

Lemma pause_run s : pause_if_quotaExceeded cal s = (Ok tt, paused cal s).
Proof.
  unfold pause_if_quotaExceeded, paused, bind, get, put, set_quotaExceeded, ret.
  by destruct (quotaExceeded s).
Qed.

Lemma paused_youtube s : youtube (paused cal s) = youtube s.
Proof. unfold paused. by destruct (quotaExceeded s). Qed.

Lemma paused_quotaExceeded s : quotaExceeded (paused cal s) = false.
Proof. unfold paused. by destruct (quotaExceeded s) eqn:Hq. Qed.

(** An id that is [null] passes the filter [id !== undefined] and is sent
    as an empty id; an item without id is left out. *)
Example null_videoId_is_requested :
  trace (fetchVideosByDateRange (provider := null_id_provider) fixed_calendar 1 "q"
           0 D180 (options_between 0 D180 None) None (fresh_service [] 1000)).2
  = [EvSearchList (requestParams "q" 0 D180 (options_between 0 D180 None) None);
     EvVideosList [""]].
Proof. reflexivity. Qed.

Lemma joined_nil videoIds : joined videoIds = [] <-> videoIds = [].
Proof. unfold joined. by destruct videoIds. Qed.

Lemma try_block_run query startDate endDate options maxResults v s :
  try_block_spec query startDate endDate options maxResults v s
    (try_block query startDate endDate options maxResults v s).
Proof.
  unfold try_block, bind, call_search_list.
  destruct (search_list _ (youtube s)) as [[e|data] p] eqn:Hsearch.
  - by apply tb_search_throws.
  - destruct (items data) as [[|item rest]|] eqn:Hitems.
    + apply (tb_no_items _ _ _ _ _ _ _ data p); [done|].
      unfold requested_ids. by rewrite Hitems.
    + destruct (omap videoId (item :: rest)) as [|i ids] eqn:Hids.
      * apply (tb_no_items _ _ _ _ _ _ _ data p); [done|].
        unfold requested_ids. rewrite Hitems. simpl default. by rewrite Hids.
      * unfold call_videos_list. cbn [youtube quotaExceeded clock trace].
        assert (Hreq : requested_ids data = joined (i :: ids)).
        { unfold requested_ids. rewrite Hitems. simpl default. by rewrite Hids. }
        rewrite <- Hreq.
        assert (Hne : requested_ids data <> []) by (by rewrite Hreq).
        destruct (videos_list (requested_ids data) p) as [[e|details] p'] eqn:Hvideos.
        -- by apply (tb_details_throw query startDate endDate options maxResults
                       v s data p e p' Hsearch Hne).
        -- pose proof (tb_page query startDate endDate options maxResults
                         v s data p details p' Hsearch Hne Hvideos) as Hspec.
           destruct maxResults as [m|]; [|exact Hspec].
           cbn zeta in Hspec. cbn [resultsFetched] in *.
           destruct (m <=? _); exact Hspec.
    + apply (tb_no_items _ _ _ _ _ _ _ data p); [done|].
      unfold requested_ids. by rewrite Hitems.
Qed.

Lemma catch_block_run v e s :
  catch_block v e s =
  if is_quota_error e
  then (Ok (ToCondition, v), MkService (youtube s) true (clock s) (trace s))
  else (Ok (Break, v), s).
Proof. unfold catch_block. by destruct (is_quota_error e). Qed.

Lemma loop_body_run query startDate endDate options maxResults v s :
  loop_body cal query startDate endDate options maxResults v s =
  match try_block query startDate endDate options maxResults v (paused cal s) with
  | (Throw e, s') => catch_block v e s'
  | r => r
  end.
Proof. unfold loop_body, bind. by rewrite pause_run. Qed.

(** A pass of the loop neither throws nor hangs: the [catch] block takes
    every error. *)
Lemma loop_body_Ok query startDate endDate options maxResults v s :
  exists c v' s',
    loop_body cal query startDate endDate options maxResults v s = (Ok (c, v'), s').
Proof.
  rewrite loop_body_run.
  destruct (try_block_run query startDate endDate options maxResults v (paused cal s))
    as [e ? _|? ? _ _|? ? e ? _ _ _|? ? ? ? _ _ _].
  - rewrite catch_block_run. destruct (is_quota_error e); eauto.
  - eauto.
  - rewrite catch_block_run. destruct (is_quota_error e); eauto.
  - eauto.
Qed.

(** ** The pagination loop *)

Lemma page_loop_S fuel query startDate endDate options maxResults v s c v' s' :
  loop_body cal query startDate endDate options maxResults v s = (Ok (c, v'), s') ->
  page_loop cal (S fuel) query startDate endDate options maxResults v s =
  match c, nextPageToken_var v' with
  | ToCondition, Some _ =>
      page_loop cal fuel query startDate endDate options maxResults v' s'
  | _, _ => (Ok (allVideos v'), s')
  end.
Proof.
  intros Hbody. cbn [page_loop]. unfold bind. rewrite Hbody.
  by destruct c, (nextPageToken_var v').
Qed.

Lemma page_loop_no_throw fuel query startDate endDate options maxResults v s e :
  (page_loop cal fuel query startDate endDate options maxResults v s).1 <> Throw e.
Proof.
  revert v s. induction fuel as [|fuel IH]; intros v s; [done|].
  destruct (loop_body_Ok query startDate endDate options maxResults v s)
    as (c & v' & s' & Hbody).
  rewrite (page_loop_S _ _ _ _ _ _ _ _ _ _ _ Hbody).
  destruct c, (nextPageToken_var v'); first [apply IH | done].
Qed.

Lemma page_loop_mono fuel fuel' query startDate endDate options maxResults v s r s' :
  (fuel <= fuel')%nat ->
  page_loop cal fuel query startDate endDate options maxResults v s = (Ok r, s') ->
  page_loop cal fuel' query startDate endDate options maxResults v s = (Ok r, s').
Proof.
  revert fuel' v s. induction fuel as [|fuel IH]; intros fuel' v s Hle; [done|].
  destruct fuel' as [|fuel']; [lia|].
  destruct (loop_body_Ok query startDate endDate options maxResults v s)
    as (c & v' & s1 & Hbody).
  rewrite !(page_loop_S _ _ _ _ _ _ _ _ _ _ _ Hbody).
  intros Hrun. destruct c, (nextPageToken_var v'); try done.
  revert Hrun. apply IH. lia.
Qed.

(** *** A failed request of a page *)

Lemma try_block_search_throw query startDate endDate options maxResults v s e p :
  search_list (requestParams query startDate endDate options (nextPageToken_var v))
              (youtube s) = (inl e, p) ->
  try_block query startDate endDate options maxResults v s =
  (Throw e,
   searched (requestParams query startDate endDate options (nextPageToken_var v)) p s).
Proof.
  intros Hsearch. unfold try_block, bind, call_search_list. by rewrite Hsearch.
Qed.

(** The state in which the [catch] block leaves the service when it has
    seen a quota error. *)
Lemma loop_body_quota query startDate endDate options maxResults v s e p :
  search_list (requestParams query startDate endDate options (nextPageToken_var v))
              (youtube s) = (inl e, p) ->
  is_quota_error e = true ->
  loop_body cal query startDate endDate options maxResults v s =
  (Ok (ToCondition, v),
   MkService p true (clock (paused cal s))
     (trace (paused cal s)
      ++ [EvSearchList
            (requestParams query startDate endDate options (nextPageToken_var v))])).
Proof.
  intros Hsearch Hquota. rewrite loop_body_run.
  rewrite (try_block_search_throw _ _ _ _ _ _ _ e p)
    by (by rewrite paused_youtube).
  by rewrite catch_block_run, Hquota.
Qed.

(** On a later page, [continue] finds a token and the loop goes round: the
    same variables, hence the same token, with the flag set. *)
Lemma page_loop_quota_later_page fuel query startDate endDate options maxResults
    v s e p tok :
  nextPageToken_var v = Some tok ->
  search_list (requestParams query startDate endDate options (nextPageToken_var v))
              (youtube s) = (inl e, p) ->
  is_quota_error e = true ->
  page_loop cal (S fuel) query startDate endDate options maxResults v s =
  page_loop cal fuel query startDate endDate options maxResults v
    (MkService p true (clock (paused cal s))
       (trace (paused cal s)
        ++ [EvSearchList
              (requestParams query startDate endDate options (nextPageToken_var v))])).
Proof.
  intros Htok Hsearch Hquota.
  rewrite (page_loop_S _ _ _ _ _ _ _ _ _ _ _
             (loop_body_quota _ _ _ _ _ _ _ _ _ Hsearch Hquota)).
  by rewrite Htok.
Qed.

(** On the first page there is no token: [continue] reaches the condition
    [nextPageToken !== null], which is false, and the loop is left with the
    flag set, nothing waited for and nothing requested again. *)
Lemma page_loop_quota_first_page fuel query startDate endDate options maxResults
    v s e p :
  nextPageToken_var v = None ->
  search_list (requestParams query startDate endDate options (nextPageToken_var v))
              (youtube s) = (inl e, p) ->
  is_quota_error e = true ->
  page_loop cal (S fuel) query startDate endDate options maxResults v s =
  (Ok (allVideos v),
   MkService p true (clock (paused cal s))
     (trace (paused cal s)
      ++ [EvSearchList
            (requestParams query startDate endDate options (nextPageToken_var v))])).
Proof.
  intros Htok Hsearch Hquota.
  rewrite (page_loop_S _ _ _ _ _ _ _ _ _ _ _
             (loop_body_quota _ _ _ _ _ _ _ _ _ Hsearch Hquota)).
  by rewrite Htok.
Qed.


(** *** What every record of a page satisfies *)

Section Records.

Variables (Pv : Video -> Prop) (Q : VideoMetadata -> Prop).
Hypothesis Q_metadata : forall videoId video, Pv video -> Q (metadata_of videoId video).
Hypothesis Pv_provider : provider_videos Pv.

Lemma omap_metadata_Forall videos :
  Forall Pv videos -> Forall Q (omap video_to_metadata videos).
Proof.
  induction 1 as [|video videos Hv _ IH]; simpl; [constructor|].
  unfold video_to_metadata at 1.
  destruct (or_null (video_id video)); [|done].
  constructor; [by apply Q_metadata|done].
Qed.

Lemma loop_body_Forall query startDate endDate options maxResults v s c v' s' :
  Forall Q (allVideos v) ->
  loop_body cal query startDate endDate options maxResults v s = (Ok (c, v'), s') ->
  Forall Q (allVideos v').
Proof.
  intros Hall. rewrite loop_body_run.
  destruct (try_block_run query startDate endDate options maxResults v (paused cal s))
    as [e ? _|? ? _ _|? ? e ? _ _ _|data p details p' _ _ Hvideos].
  - rewrite catch_block_run. by destruct (is_quota_error e); intros [= _ <- _].
  - by intros [= _ <- _].
  - rewrite catch_block_run. by destruct (is_quota_error e); intros [= _ <- _].
  - intros [= _ <- _]. cbn [allVideos]. apply Forall_app. split; [done|].
    apply omap_metadata_Forall. by eapply Pv_provider.
Qed.

Lemma page_loop_Forall fuel query startDate endDate options maxResults v s vs s' :
  Forall Q (allVideos v) ->
  page_loop cal fuel query startDate endDate options maxResults v s = (Ok vs, s') ->
  Forall Q vs.
Proof.
  revert v s. induction fuel as [|fuel IH]; intros v s Hall; [done|].
  destruct (loop_body_Ok query startDate endDate options maxResults v s)
    as (c & v1 & s1 & Hbody).
  rewrite (page_loop_S _ _ _ _ _ _ _ _ _ _ _ Hbody).
  pose proof (loop_body_Forall _ _ _ _ _ _ _ _ _ _ Hall Hbody) as Hall1.
  destruct c, (nextPageToken_var v1); try (by intros [= <- _]).
  by apply IH.
Qed.

End Records.

(** ** The loop over the chunks *)

Lemma chunk_loop_done page_fuel fuel query options endDateTime c s :
  endDateTime <= currentStartDate c ->
  chunk_loop cal page_fuel fuel query options endDateTime c s = (Ok (all_videos c), s).
Proof.
  intros Hle. destruct fuel; cbn [chunk_loop];
    by destruct (Z.ltb_spec (currentStartDate c) endDateTime); [lia|].
Qed.

Lemma chunk_loop_S page_fuel fuel query options endDateTime c s :
  currentStartDate c < endDateTime ->
  chunk_loop cal page_fuel (S fuel) query options endDateTime c s =
  let chunkEndDate :=
    chunk_end cal dateChunkIntervalDays (currentStartDate c) endDateTime in
  match fetchVideosByDateRange cal page_fuel query (currentStartDate c) chunkEndDate
          options (chunk_limit options c) s with
  | (Ok chunkVideos, s') =>
      let fetched := results_fetched c + Z.of_nat (length chunkVideos) in
      if limit_reached options fetched
      then (Ok (all_videos c ++ chunkVideos), s')
      else chunk_loop cal page_fuel fuel query options endDateTime
             (MkChunkVars chunkEndDate (all_videos c ++ chunkVideos) fetched) s'
  | (Throw e, s') => (Throw e, s')
  | (Timeout, s') => (Timeout, s')
  end.
Proof.
  intros Hlt. cbn [chunk_loop].
  destruct (Z.ltb_spec (currentStartDate c) endDateTime); [|lia].
  unfold bind, chunk_limit, limit_reached. cbn zeta.
  destruct (fetchVideosByDateRange _ _ _ _ _ _ _ _) as [[chunkVideos|e|] s'];
    try done.
  destruct (maxResults options) as [t|]; [|done].
  by destruct (t <=? _).
Qed.

Lemma chunk_loop_no_throw page_fuel fuel query options endDateTime c s e :
  (chunk_loop cal page_fuel fuel query options endDateTime c s).1 <> Throw e.
Proof.
  revert c s. induction fuel as [|fuel IH]; intros c s.
  - cbn [chunk_loop]. by destruct (_ <? _).
  - destruct (Z.lt_ge_cases (currentStartDate c) endDateTime) as [Hlt|Hge].
    + rewrite chunk_loop_S by done. cbn zeta.
      destruct (fetchVideosByDateRange _ _ _ _ _ _ _ _) as [[chunkVideos|e'|] s']
        eqn:Hfetch.
      * destruct (limit_reached _ _); [done|apply IH].
      * exfalso. eapply (page_loop_no_throw _ _ _ _ _ _ _ _ e').
        unfold fetchVideosByDateRange in Hfetch. by rewrite Hfetch.
      * done.
    + by rewrite chunk_loop_done.
Qed.

Lemma chunk_loop_Forall (Pv : Video -> Prop) (Q : VideoMetadata -> Prop)
    page_fuel fuel query options endDateTime c s vs s' :
  (forall videoId video, Pv video -> Q (metadata_of videoId video)) ->
  provider_videos Pv ->
  Forall Q (all_videos c) ->
  chunk_loop cal page_fuel fuel query options endDateTime c s = (Ok vs, s') ->
  Forall Q vs.
Proof.
  intros HQ HPv. revert c s. induction fuel as [|fuel IH]; intros c s Hall.
  - cbn [chunk_loop]. destruct (_ <? _); [done|]. by intros [= <- _].
  - destruct (Z.lt_ge_cases (currentStartDate c) endDateTime) as [Hlt|Hge].
    + rewrite chunk_loop_S by done. cbn zeta.
      destruct (fetchVideosByDateRange _ _ _ _ _ _ _ _) as [[chunkVideos|e'|] s1]
        eqn:Hfetch; try done.
      assert (Hchunk : Forall Q chunkVideos).
      { eapply (page_loop_Forall Pv Q HQ HPv); [|exact Hfetch]. constructor. }
      destruct (limit_reached _ _).
      * intros [= <- _]. apply Forall_app. by split.
      * apply IH. cbn [all_videos]. apply Forall_app. by split.
    + rewrite chunk_loop_done by done. by intros [= <- _].
Qed.

(** More passes allowed change nothing in a run that ended. *)
Lemma chunk_loop_mono page_fuel page_fuel' fuel fuel' query options endDateTime
    c s r s' :
  (page_fuel <= page_fuel')%nat -> (fuel <= fuel')%nat ->
  chunk_loop cal page_fuel fuel query options endDateTime c s = (Ok r, s') ->
  chunk_loop cal page_fuel' fuel' query options endDateTime c s = (Ok r, s').
Proof.
  intros Hpage. revert fuel' c s. induction fuel as [|fuel IH]; intros fuel' c s Hle;
    destruct (Z.lt_ge_cases (currentStartDate c) endDateTime) as [Hlt|Hge];
    try (by rewrite !chunk_loop_done).
  - cbn [chunk_loop]. by destruct (Z.ltb_spec (currentStartDate c) endDateTime); [|lia].
  - destruct fuel' as [|fuel']; [lia|]. rewrite !chunk_loop_S by done. cbn zeta.
    unfold fetchVideosByDateRange.
    destruct (page_loop cal page_fuel _ _ _ _ _ _ s) as [[chunkVideos|e|] s1]
      eqn:Hfetch; try done.
    rewrite (page_loop_mono _ _ _ _ _ _ _ _ _ _ _ Hpage Hfetch).
    destruct (limit_reached _ _); [done|]. apply IH. lia.
Qed.

(** ** [searchVideos] and [getVideoDetails] *)

Lemma searchVideos_run fuel query options s :
  searchVideos cal fuel query options s =
  match collectVideos cal fuel query options s with
  | (Ok allVideos, s') => (Ok (finish (maxResults options) allVideos), s')
  | r => r
  end.
Proof.
  unfold searchVideos, try_catch, bind, ret, throw.
  by destruct (collectVideos cal fuel query options s) as [[allVideos|e|] s'].
Qed.

Lemma collectVideos_mono fuel fuel' query options s r s' :
  (fuel <= fuel')%nat ->
  collectVideos cal fuel query options s = (Ok r, s') ->
  collectVideos cal fuel' query options s = (Ok r, s').
Proof.
  intros Hle. unfold collectVideos, bind, get.
  destruct (date_range cal options (clock s)) as [startDateTime endDateTime].
  by apply chunk_loop_mono.
Qed.

Lemma searchVideos_mono fuel fuel' query options s r s' :
  (fuel <= fuel')%nat ->
  searchVideos cal fuel query options s = (Ok r, s') ->
  searchVideos cal fuel' query options s = (Ok r, s').
Proof.
  intros Hle. rewrite !searchVideos_run.
  destruct (collectVideos cal fuel query options s) as [[acc|e|] s1] eqn:Hrun;
    try done.
  by rewrite (collectVideos_mono _ _ _ _ _ _ _ Hle Hrun).
Qed.

Lemma collectVideos_no_throw fuel query options s e :
  (collectVideos cal fuel query options s).1 <> Throw e.
Proof.
  unfold collectVideos, bind, get.
  destruct (date_range cal options (clock s)). apply chunk_loop_no_throw.
Qed.

Lemma slice0_sublist {A} (xs : list A) n : sublist (slice0 xs n) xs.
Proof. unfold slice0. destruct (n <? 0); apply sublist_take. Qed.

Lemma finish_sublist totalResults allVideos :
  sublist (finish totalResults allVideos) allVideos.
Proof.
  unfold finish, removeDuplicateVideos.
  destruct totalResults as [t|]; [|apply filter_unseen_sublist].
  destruct (t <? _); [|apply filter_unseen_sublist].
  etrans; [apply slice0_sublist|apply filter_unseen_sublist].
Qed.

Lemma getVideoDetails_run videoId s :
  getVideoDetails videoId s =
  match videos_list [videoId] (youtube s) with
  | (inr response, p) =>
      (Ok (option_map (metadata_of videoId) (head (default [] (video_items response)))),
       detailed [videoId] p s)
  | (inl _, p) => (Ok None, detailed [videoId] p s)
  end.
Proof.
  unfold getVideoDetails, try_catch, bind, call_videos_list, ret, detailed.
  destruct (videos_list [videoId] (youtube s)) as [[e|response] p]; [done|].
  by destruct (head _).
Qed.

End ServiceFacts.
(** ** The records that the service builds *)

Lemma Forall_of_sublist {A} (Q : A -> Prop) (l1 l2 : list A) :
  sublist l1 l2 -> Forall Q l2 -> Forall Q l1.
Proof.
  induction 1 as [|x l1 l2 _ IH|x l1 l2 _ IH]; intros Hall.
  - constructor.
  - apply Forall_cons in Hall as [? ?]. constructor; auto.
  - apply Forall_cons in Hall as [? ?]. auto.
Qed.

Section RecordNumbers.

Variables (videoId : string) (video : Video).

#[local] Arguments String.append !_ _ / : simpl nomatch.

Lemma metadata_duration_nonneg :
  nonneg_or_infinite (durationInSeconds (metadata_of videoId video)).
Proof. cbn [metadata_of durationInSeconds]. apply parseDuration_nonneg. Qed.

Lemma metadata_viewCount_absent :
  statistics_viewCount video = None \/ statistics_viewCount video = Some "" ->
  viewCount (metadata_of videoId video) = Num 0.
Proof. cbn [metadata_of viewCount]. by intros [-> | ->]. Qed.

Lemma metadata_viewCount_digits d tail :
  statistics_viewCount video = Some (d +:+ tail) ->
  d <> "" -> Str.digits_only d = true -> no_digit_ahead tail = true ->
  viewCount (metadata_of videoId video) = to_double (decimal_value d).
Proof.
  cbn [metadata_of viewCount]. intros -> Hne Hd Htail.
  destruct d as [|c d]; [done|].
  change (or_else (Some (String c d +:+ tail)) "0") with (String c d +:+ tail).
  by apply parseInt_run.
Qed.

Lemma metadata_viewCount_minus d tail :
  statistics_viewCount video = Some ("-" +:+ d +:+ tail) ->
  d <> "" -> Str.digits_only d = true -> no_digit_ahead tail = true ->
  viewCount (metadata_of videoId video) = to_double (- decimal_value d).
Proof.
  cbn [metadata_of viewCount]. intros -> Hne Hd Htail.
  destruct d as [|c d]; [done|].
  change (or_else (Some ("-" +:+ String c d +:+ tail)) "0")
    with ("-" +:+ String c d +:+ tail).
  by apply parseInt_minus.
Qed.

Lemma metadata_viewCount_no_digit c tail :
  statistics_viewCount video = Some (String c tail) ->
  Str.is_digit c = false -> Str.is_space c = false ->
  c <> "-"%char -> c <> "+"%char ->
  viewCount (metadata_of videoId video) = NaN.
Proof.
  cbn [metadata_of viewCount]. intros -> ? ? ? ?. cbn [or_else].
  by apply parseInt_no_digit.
Qed.

End RecordNumbers.

(** C8, as the code has it.  Every record of a search and of a lookup is
    built from an item of an answer of the provider (whatever property the
    items of all answers have, the item of the record has).  Its
    [durationInSeconds] is never [NaN] and never negative: a non-negative
    integer, or [Infinity] when the duration has a component of more
    digits than a double holds.  Its [viewCount] is what [parseInt] reads
    from the [viewCount] of the item: 0 when there is none or an empty
    one; the number of the digits that it starts with, whatever follows
    them, rounded to a double and exact below 2^53; the negated number
    when a minus sign comes before the digits; and [NaN] when it starts
    with a character that is no digit, no white space and no sign. *)
Theorem records_numbers {P : Type} {provider : Provider P} (cal : Calendar) :
  (forall Pv : Video -> Prop,
      provider_videos Pv ->
      (forall fuel query options (s : YouTubeService P) vs s',
          searchVideos cal fuel query options s = (Ok vs, s') ->
          Forall (fun v => exists video, Pv video /\ v = metadata_of (id v) video) vs)
      /\ (forall videoId (s : YouTubeService P) v s',
            getVideoDetails videoId s = (Ok (Some v), s') ->
            exists video, Pv video /\ v = metadata_of videoId video))
  /\ (forall fuel query options (s : YouTubeService P) vs s',
        searchVideos cal fuel query options s = (Ok vs, s') ->
        Forall (fun v => nonneg_or_infinite (durationInSeconds v)) vs)
  /\ (forall videoId (s : YouTubeService P) v s',
        getVideoDetails videoId s = (Ok (Some v), s') ->
        nonneg_or_infinite (durationInSeconds v))
  /\ (forall videoId video,
        let v := metadata_of videoId video in
        let count := statistics_viewCount video in
        nonneg_or_infinite (durationInSeconds v)
        /\ (count = None \/ count = Some "" -> viewCount v = Num 0)
        /\ (forall d tail,
              count = Some (d +:+ tail) -> d <> "" ->
              Str.digits_only d = true -> no_digit_ahead tail = true ->
              viewCount v = to_double (decimal_value d)
              /\ nonneg_or_infinite (viewCount v)
              /\ (decimal_value d < 2 ^ 53 -> viewCount v = Num (decimal_value d)))
        /\ (forall d tail,
              count = Some ("-" +:+ d +:+ tail) -> d <> "" ->
              Str.digits_only d = true -> no_digit_ahead tail = true ->
              viewCount v = to_double (- decimal_value d)
              /\ (decimal_value d < 2 ^ 53 -> viewCount v = Num (- decimal_value d)))
        /\ (forall c tail,
              count = Some (String c tail) ->
              Str.is_digit c = false -> Str.is_space c = false ->
              c <> "-"%char -> c <> "+"%char ->
              viewCount v = NaN)).
Proof.
  assert (Hsearch : forall (Pv : Video -> Prop) (Q : VideoMetadata -> Prop),
             (forall videoId video, Pv video -> Q (metadata_of videoId video)) ->
             provider_videos Pv ->
             forall fuel query options (s : YouTubeService P) vs s',
               searchVideos cal fuel query options s = (Ok vs, s') ->
               Forall Q vs).
  { intros Pv Q HQ HPv fuel query options s vs s'.
    rewrite searchVideos_run.
    destruct (collectVideos cal fuel query options s) as [[acc|e|] s1] eqn:Hacc;
      try done.
    intros [= <- _].
    apply (Forall_of_sublist Q _ acc); [apply finish_sublist|].
    revert Hacc. unfold collectVideos, bind, get.
    destruct (date_range cal options (clock s)) as [startDateTime endDateTime].
    apply (chunk_loop_Forall cal Pv Q); [done..|constructor]. }
  assert (Hlookup : forall (Pv : Video -> Prop) (Q : string -> VideoMetadata -> Prop),
             (forall videoId video, Pv video -> Q videoId (metadata_of videoId video)) ->
             provider_videos Pv ->
             forall videoId (s : YouTubeService P) v s',
               getVideoDetails videoId s = (Ok (Some v), s') -> Q videoId v).
  { intros Pv Q HQ HPv videoId s v s'. rewrite getVideoDetails_run.
    destruct (videos_list [videoId] (youtube s)) as [[e|response] p] eqn:Hcall;
      [done|].
    pose proof (HPv _ _ _ _ Hcall) as Hall.
    destruct (default [] (video_items response)) as [|video rest]; [done|].
    intros [= <- _]. apply HQ. by apply Forall_cons in Hall as [? _]. }
  assert (Hany : provider_videos (fun _ => True)).
  { intros ids p r p' _. by apply Forall_true. }
  split; [|split; [|split]].
  - intros Pv HPv. split.
    + apply (Hsearch Pv); [|done]. intros videoId video Hv. by exists video.
    + apply (Hlookup Pv (fun videoId v =>
                           exists video, Pv video /\ v = metadata_of videoId video));
        [|done].
      intros videoId video Hv. by exists video.
  - apply (Hsearch (fun _ => True)); [|done].
    intros. apply metadata_duration_nonneg.
  - apply (Hlookup (fun _ => True)
             (fun _ v => nonneg_or_infinite (durationInSeconds v))); [|done].
    intros. apply metadata_duration_nonneg.
  - intros videoId video. cbn zeta.
    split; [apply metadata_duration_nonneg|].
    split; [apply metadata_viewCount_absent|].
    split; [|split].
    + intros d tail Hcount Hne Hd Htail.
      assert (Hval : viewCount (metadata_of videoId video)
                     = to_double (decimal_value d))
        by (by eapply metadata_viewCount_digits).
      pose proof (decimal_value_nonneg d Hd) as Hpos.
      split; [exact Hval|]. rewrite Hval.
      split; [by apply to_double_nonneg|].
      intros Hsmall. apply to_double_exact. lia.
    + intros d tail Hcount Hne Hd Htail.
      assert (Hval : viewCount (metadata_of videoId video)
                     = to_double (- decimal_value d))
        by (by eapply metadata_viewCount_minus).
      pose proof (decimal_value_nonneg d Hd) as Hpos.
      split; [exact Hval|]. rewrite Hval.
      intros Hsmall. apply to_double_exact. lia.
    + intros c tail. apply metadata_viewCount_no_digit.
Qed.

Lemma mixed_provider_videos :
  provider_videos (provider := mixed_provider) (fun video => video ∈ mixed_videos).
Proof.
  intros ids p r p' [= <- _]. simpl. by apply Forall_forall.
Qed.

Lemma records_numbers_witness :
  exists vs s',
    searchVideos (provider := mixed_provider) fixed_calendar 2 "q"
      (options_between 0 D180 None) (fresh_service [] 1000) = (Ok vs, s')
    /\ viewCount <$> vs = [Num 1234; Num 0; Num 12; Num (-5); NaN]
    /\ durationInSeconds <$> vs = [Num 253; Num 0; Num 3600; Num 0; Num 2]
    /\ Forall (fun v => exists video,
                          video ∈ mixed_videos /\ v = metadata_of (id v) video) vs.
Proof.
  eexists _, _. split; [vm_compute; reflexivity|].
  split; [reflexivity|]. split; [reflexivity|].
  refine (proj1 (proj1 (records_numbers (provider := mixed_provider) fixed_calendar)
                   (fun video => video ∈ mixed_videos) mixed_provider_videos)
            2%nat "q" (options_between 0 D180 None) (fresh_service [] 1000) _ _ _).
  vm_compute. reflexivity.
Defined.

(** C8 fails as stated: a view count that is not numeric is read as [NaN]. *)
Lemma viewCount_not_numeric :
  exists v s',
    getVideoDetails (provider := odd_provider) "v1" (fresh_service [] 1000)
    = (Ok (Some v), s')
    /\ viewCount v = NaN
    /\ ~ nonneg_int (viewCount v).
Proof.
  eexists _, _. split; [vm_compute; reflexivity|]. split; [reflexivity|].
  intros [].
Qed.

(** ** [getVideoDetails] and the quota flag *)

(** C3, as the code has it.  A lookup sends exactly one [videos.list]
    request, for the one id, with no pagination.  Its result is read off
    the answer to that request: nothing when the request fails, nothing
    when the answer has no item, and otherwise the record built from the
    first item, with the id that was asked for.  It leaves the quota flag
    and the clock as they are, it never waits, and the flag has no part in
    what it does: started with the flag set or clear, it sends the same
    request and gives the same result. *)
Theorem getVideoDetails_one_request {P : Type} {provider : Provider P}
    (videoId : string) (s : YouTubeService P) :
  let answer := videos_list [videoId] (youtube s) in
  let run := getVideoDetails videoId s in
  run.1 = Ok match answer.1 with
             | inl _ => None
             | inr response =>
                 metadata_of videoId <$> head (default [] (video_items response))
             end
  /\ trace run.2 = trace s ++ [EvVideosList [videoId]]
  /\ youtube run.2 = answer.2
  /\ quotaExceeded run.2 = quotaExceeded s
  /\ clock run.2 = clock s
  /\ (forall flag,
        let run' :=
          getVideoDetails videoId (MkService (youtube s) flag (clock s) (trace s)) in
        run'.1 = run.1 /\ trace run'.2 = trace run.2
        /\ youtube run'.2 = youtube run.2 /\ clock run'.2 = clock run.2).
Proof.
  cbn zeta. rewrite !getVideoDetails_run.
  assert (Hflag : forall flag,
             getVideoDetails videoId (MkService (youtube s) flag (clock s) (trace s))
             = match videos_list [videoId] (youtube s) with
               | (inr response, p) =>
                   (Ok (option_map (metadata_of videoId)
                          (head (default [] (video_items response)))),
                    MkService p flag (clock s) (trace s ++ [EvVideosList [videoId]]))
               | (inl _, p) =>
                   (Ok None,
                    MkService p flag (clock s) (trace s ++ [EvVideosList [videoId]]))
               end).
  { intros flag. by rewrite getVideoDetails_run. }
  unfold detailed.
  destruct (videos_list [videoId] (youtube s)) as [[e|response] p] eqn:Hanswer;
    cbn [fst snd trace youtube quotaExceeded clock];
    (do 5 (split; [done|])); intros flag; by rewrite Hflag.
Qed.

(** C3 fails as stated: with the quota flag set, the lookup sends its
    request at once; the trace holds the request and no wait, and the flag
    is still set afterwards. *)
Lemma getVideoDetails_ignores_quota :
  let s := MkService ([] : list (option Error)) true 1000 [] in
  let run := getVideoDetails (provider := catalogue_provider two_windows) "a1" s in
  quotaExceeded s = true
  /\ run.1 = Ok (Some (plain_metadata "a1"))
  /\ trace run.2 = [EvVideosList ["a1"]]
  /\ quotaExceeded run.2 = true
  /\ clock run.2 = clock s.
Proof. vm_compute. repeat split; reflexivity. Qed.

(** ** Failures that are not quota failures *)

Section BestEffort.

Context {P : Type} {provider : Provider P}.
Variable cal : Calendar.

Implicit Types (s : YouTubeService P) (v : page_vars) (c : chunk_vars).







End BestEffort.



(** A network failure on the third of five pages: the two pages before it
    and the next chunk make the result. *)
Example two_of_five_pages :
  (searchVideos (provider := catalogue_provider five_pages) fixed_calendar 6 "q"
     (options_between 0 (2 * D180) None)
     (fresh_service [None; None; Some network_error] 1000)).1
  = Ok [plain_metadata "a1"; plain_metadata "a2"; plain_metadata "b1"].
Proof. vm_compute. reflexivity. Qed.

(** The same when it is the request for the details of the third page that
    fails. *)
Example two_of_five_pages_details :
  (searchVideos
     (provider := details_fault_provider (catalogue_search five_pages)
                    catalogue_videos)
     fixed_calendar 6 "q" (options_between 0 (2 * D180) None)
     (fresh_service [None; None; Some network_error] 1000)).1
  = Ok [plain_metadata "a1"; plain_metadata "a2"; plain_metadata "b1"].
Proof. vm_compute. reflexivity. Qed.


(** ** Quota failures *)

(** C1 fails on the code.  The provider reports an exhausted quota once, on
    the first page of the first chunk.  The run without the failure
    returns the videos of both chunks; the run with it returns those of
    the second chunk only.  Its trace: the failed request, then (in the
    pagination of the next chunk) the wait, then the requests of the second
    chunk; the first page of the first chunk is not asked for again. *)
Theorem quota_on_first_page_loses_chunk :
  let options := options_between 0 (2 * D180) None in
  let run faults :=
    searchVideos (provider := catalogue_provider two_windows) fixed_calendar 4 "q"
      options (fresh_service faults 1000) in
  (run []).1 = Ok [plain_metadata "a1"; plain_metadata "a2"; plain_metadata "b1"]
  /\ (run [Some quota_error]).1 = Ok [plain_metadata "b1"]
  /\ trace (run [Some quota_error]).2
     = [EvSearchList (requestParams "q" 0 D180 options None);
        EvWait 1000 msPerDay;
        EvSearchList (requestParams "q" D180 (2 * D180) options None);
        EvVideosList ["b1"]].
Proof. vm_compute. repeat split; reflexivity. Qed.

(** On a later page the same failure is absorbed: the wait, then the same
    token again, and the result of the run without failure. *)
Example quota_on_later_page_retried :
  let options := options_between 0 (2 * D180) None in
  let run faults :=
    searchVideos (provider := catalogue_provider five_pages) fixed_calendar 7 "q"
      options (fresh_service faults 1000) in
  (run [None; None; Some quota_error]).1 = (run []).1
  /\ take 4 (drop 4 (trace (run [None; None; Some quota_error]).2))
     = [EvSearchList (requestParams "q" 0 D180 options (Some "xx"));
        EvWait 1000 msPerDay;
        EvSearchList (requestParams "q" 0 D180 options (Some "xx"));
        EvVideosList ["a3"]].
Proof. vm_compute. repeat split; reflexivity. Qed.

(** ** The result limit *)

(** C4. When [maxResults] is set and the deduplicated sequence is longer,
    [searchVideos] returns its first [maxResults] entries: the cut comes
    last, after all chunks and after deduplication, the result has exactly
    [maxResults] entries, and they are in the order in which the chunks
    gave them. *)
Theorem searchVideos_truncates {P : Type} {provider : Provider P} (cal : Calendar)
    fuel query options (s : YouTubeService P) m acc s' :
  maxResults options = Some m ->
  0 <= m ->
  collectVideos cal fuel query options s = (Ok acc, s') ->
  m < Z.of_nat (length (removeDuplicateVideos acc)) ->
  exists out,
    searchVideos cal fuel query options s = (Ok out, s')
    /\ out = take (Z.to_nat m) (removeDuplicateVideos acc)
    /\ Z.of_nat (length out) = m
    /\ sublist out acc.
Proof.
  intros Hm Hpos Hacc Hlong.
  exists (take (Z.to_nat m) (removeDuplicateVideos acc)).
  split; [|split; [done|split]].
  - rewrite searchVideos_run, Hacc, Hm. unfold finish, slice0.
    destruct (Z.ltb_spec m (Z.of_nat (length (removeDuplicateVideos acc)))); [|lia].
    by destruct (Z.ltb_spec m 0); [lia|].
  - rewrite length_take. lia.
  - etrans; [apply sublist_take|apply filter_unseen_sublist].
Qed.

Lemma searchVideos_truncates_witness :
  exists out s',
    searchVideos (provider := catalogue_provider seven_per_page) fixed_calendar 4 "q"
      (options_between 0 (3 * D180) (Some 10)) (fresh_service [] 1000)
    = (Ok out, s')
    /\ Z.of_nat (length out) = 10
    /\ id <$> out = ["a1"; "a2"; "a3"; "a4"; "a5"; "a6"; "a7"; "b1"; "b2"; "b3"].
Proof.
  eassert (Hacc : collectVideos (provider := catalogue_provider seven_per_page)
                    fixed_calendar 4 "q" (options_between 0 (3 * D180) (Some 10))
                    (fresh_service [] 1000) = (Ok _, _)).
  { vm_compute. reflexivity. }
  destruct (searchVideos_truncates (provider := catalogue_provider seven_per_page)
              fixed_calendar 4 "q" (options_between 0 (3 * D180) (Some 10))
              (fresh_service [] 1000) 10 _ _ eq_refl ltac:(lia) Hacc
              ltac:(vm_compute; reflexivity))
    as (out & Hrun & Hout & Hlen & _).
  eexists out, _. split; [exact Hrun|]. split; [exact Hlen|].
  rewrite Hout. vm_compute. reflexivity.
Defined.

(** ** The windows of a search *)

Section Windows.

Context {P : Type} {provider : Provider P}.
Variable cal : Calendar.
Hypothesis cal_advancing : advancing cal.

Implicit Types (s : YouTubeService P) (v : page_vars) (c : chunk_vars).

Lemma chunk_end_bounds days endDateTime cur :
  0 < days -> cur < endDateTime ->
  cur < chunk_end cal days cur endDateTime <= endDateTime
  /\ chunk_end cal days cur endDateTime <= plus_days cal days cur.
Proof.
  intros Hdays Hlt. unfold chunk_end.
  pose proof (cal_advancing days cur Hdays).
  destruct (Z.ltb_spec endDateTime (plus_days cal days cur)); lia.
Qed.

Lemma paused_trace s :
  trace (paused cal s)
  = trace s ++ (if quotaExceeded s
                then [EvWait (clock s) (start_of_day cal (plus_days cal 1 (clock s)))]
                else []).
Proof. unfold paused. destruct (quotaExceeded s); simpl; [done|by rewrite app_nil_r]. Qed.









(** *** What a chain of windows looks like *)



Lemma chain_Forall cur end_ ws :
  chain cal cur end_ ws ->
  Forall (fun w => w.1 < w.2 /\ w.2 <= plus_days cal dateChunkIntervalDays w.1
                   /\ w.2 <= end_) ws.
Proof.
  revert cur. induction ws as [|w ws IH]; intros cur; [constructor|].
  intros (Hw & ? & ? & ? & Hrest). constructor; [|by eapply IH].
  unfold dateChunkIntervalDays. rewrite Hw. auto.
Qed.


Lemma chain_last cur end_ ws w :
  chain cal cur end_ ws -> last ws = Some w -> w.2 <= end_.
Proof.
  intros Hchain%chain_Forall Hlast.
  apply last_Some in Hlast as [ws' ->].
  apply Forall_app in Hchain as [_ Hw]. apply Forall_cons in Hw as [Hw _]. tauto.
Qed.


End Windows.


Lemma fixed_calendar_advancing : advancing fixed_calendar.
Proof. intros d t Hd. unfold fixed_calendar, msPerDay. simpl. lia. Qed.




(** * More properties of the service *)

(** ** The result of a search *)

Section SearchResult.

Context {P : Type} {provider : Provider P}.
Variable cal : Calendar.

Implicit Types (s : YouTubeService P) (v : page_vars) (c : chunk_vars).

Lemma finish_NoDup totalResults allVideos :
  NoDup (id <$> finish totalResults allVideos).
Proof.
  unfold finish, removeDuplicateVideos.
  destruct totalResults as [t|]; [|apply filter_unseen_NoDup].
  destruct (t <? _); [|apply filter_unseen_NoDup].
  unfold slice0. destruct (t <? 0); rewrite fmap_take;
    (eapply sublist_NoDup; [apply filter_unseen_NoDup|apply sublist_take]).
Qed.

Lemma finish_length m allVideos :
  0 <= m -> Z.of_nat (length (finish (Some m) allVideos)) <= m.
Proof.
  intros Hm. unfold finish.
  destruct (Z.ltb_spec m (Z.of_nat (length (removeDuplicateVideos allVideos))));
    [|lia].
  unfold slice0. destruct (Z.ltb_spec m 0); [lia|]. rewrite length_take. lia.
Qed.

(** *** What every record that [video_to_metadata] builds satisfies *)

Section Built.

Variable Q : VideoMetadata -> Prop.
Hypothesis Q_built :
  forall video (vm : VideoMetadata), video_to_metadata video = Some vm -> Q vm.

Lemma omap_built_Forall videos : Forall Q (omap video_to_metadata videos).
Proof.
  induction videos as [|video videos IH]; simpl; [constructor|].
  destruct (video_to_metadata video) as [vm|] eqn:Hv; [|done].
  constructor; [by eapply Q_built|done].
Qed.

Lemma loop_body_built query startDate endDate options maxResults v s k v' s' :
  Forall Q (allVideos v) ->
  loop_body cal query startDate endDate options maxResults v s = (Ok (k, v'), s') ->
  Forall Q (allVideos v').
Proof.
  intros Hall. rewrite loop_body_run.
  destruct (try_block_run query startDate endDate options maxResults v (paused cal s))
    as [e ? _|? ? _ _|? ? e ? _ _ _|data p details p' _ _ _].
  - rewrite catch_block_run. by destruct (is_quota_error e); intros [= _ <- _].
  - by intros [= _ <- _].
  - rewrite catch_block_run. by destruct (is_quota_error e); intros [= _ <- _].
  - intros [= _ <- _]. cbn [allVideos]. apply Forall_app. split; [done|].
    apply omap_built_Forall.
Qed.

Lemma page_loop_built fuel query startDate endDate options maxResults v s vs s' :
  Forall Q (allVideos v) ->
  page_loop cal fuel query startDate endDate options maxResults v s = (Ok vs, s') ->
  Forall Q vs.
Proof.
  revert v s. induction fuel as [|fuel IH]; intros v s Hall; [done|].
  destruct (loop_body_Ok cal query startDate endDate options maxResults v s)
    as (k & v1 & s1 & Hbody).
  rewrite (page_loop_S _ _ _ _ _ _ _ _ _ _ _ _ Hbody).
  pose proof (loop_body_built _ _ _ _ _ _ _ _ _ _ Hall Hbody) as Hall1.
  destruct k, (nextPageToken_var v1); try (by intros [= <- _]).
  by apply IH.
Qed.

Lemma chunk_loop_built page_fuel fuel query options endDateTime c s vs s' :
  Forall Q (all_videos c) ->
  chunk_loop cal page_fuel fuel query options endDateTime c s = (Ok vs, s') ->
  Forall Q vs.
Proof.
  revert c s. induction fuel as [|fuel IH]; intros c s Hall.
  - cbn [chunk_loop]. destruct (_ <? _); [done|]. by intros [= <- _].
  - destruct (Z.lt_ge_cases (currentStartDate c) endDateTime) as [Hlt|Hge].
    + rewrite chunk_loop_S by done. cbn zeta.
      destruct (fetchVideosByDateRange _ _ _ _ _ _ _ _) as [[chunkVideos|e'|] s1]
        eqn:Hfetch; try done.
      assert (Hchunk : Forall Q chunkVideos).
      { eapply page_loop_built; [|exact Hfetch]. constructor. }
      destruct (limit_reached _ _).
      * intros [= <- _]. apply Forall_app. by split.
      * apply IH. cbn [all_videos]. apply Forall_app. by split.
    + rewrite chunk_loop_done by done. by intros [= <- _].
Qed.

Lemma searchVideos_built fuel query options s vs s' :
  searchVideos cal fuel query options s = (Ok vs, s') -> Forall Q vs.
Proof.
  rewrite searchVideos_run.
  destruct (collectVideos cal fuel query options s) as [[acc|e|] s1] eqn:Hacc;
    try done.
  intros [= <- _].
  apply (Forall_of_sublist Q _ acc); [apply finish_sublist|].
  revert Hacc. unfold collectVideos, bind, get.
  destruct (date_range cal options (clock s)) as [startDateTime endDateTime].
  apply chunk_loop_built. constructor.
Qed.

End Built.

End SearchResult.

Lemma video_to_metadata_identified video v :
  video_to_metadata video = Some v ->
  id v <> "" /\ url v = watch_url (id v).
Proof.
  unfold video_to_metadata.
  destruct (video_id video) as [[|c i]|]; simpl; try done.
  by intros [= <-].
Qed.

(** X1. The ids of the records that a search returns are pairwise
    distinct, whatever the provider answers. *)
Theorem searchVideos_distinct_ids {P : Type} {provider : Provider P} (cal : Calendar)
    fuel query options (s : YouTubeService P) vs s' :
  searchVideos cal fuel query options s = (Ok vs, s') ->
  NoDup (id <$> vs).
Proof.
  rewrite searchVideos_run.
  destruct (collectVideos cal fuel query options s) as [[acc|e|] s1]; try done.
  intros [= <- _]. apply finish_NoDup.
Qed.

Lemma searchVideos_distinct_ids_witness :
  exists vs s',
    searchVideos (provider := catalogue_provider overlapping_windows) fixed_calendar 4
      "q" (options_between 0 (2 * D180) None) (fresh_service [] 1000) = (Ok vs, s')
    /\ id <$> vs = ["a1"; "a2"; "b1"]
    /\ NoDup (id <$> vs).
Proof.
  eexists _, _. split; [vm_compute; reflexivity|]. split; [reflexivity|].
  refine (searchVideos_distinct_ids (provider := catalogue_provider overlapping_windows)
            fixed_calendar 4 "q" (options_between 0 (2 * D180) None)
            (fresh_service [] 1000) _ _ _).
  vm_compute. reflexivity.
Defined.

(** X2. With a non-negative [maxResults], a search returns at most
    [maxResults] records; with [maxResults] 0 it returns none. *)
Theorem searchVideos_at_most_maxResults {P : Type} {provider : Provider P}
    (cal : Calendar) fuel query options (s : YouTubeService P) m vs s' :
  maxResults options = Some m ->
  0 <= m ->
  searchVideos cal fuel query options s = (Ok vs, s') ->
  Z.of_nat (length vs) <= m /\ (m = 0 -> vs = []).
Proof.
  intros Hm Hpos. rewrite searchVideos_run, Hm.
  destruct (collectVideos cal fuel query options s) as [[acc|e|] s1]; try done.
  intros [= <- _]. pose proof (finish_length m acc Hpos) as Hlen.
  split; [exact Hlen|]. intros ->.
  change (finish (Some 0) acc = []). apply length_zero_iff_nil. lia.
Qed.

Lemma searchVideos_at_most_maxResults_witness :
  exists vs s',
    searchVideos (provider := catalogue_provider seven_per_page) fixed_calendar 4 "q"
      (options_between 0 (3 * D180) (Some 5)) (fresh_service [] 1000) = (Ok vs, s')
    /\ Z.of_nat (length vs) <= 5.
Proof.
  eexists _, _. split; [vm_compute; reflexivity|].
  refine (proj1 (searchVideos_at_most_maxResults
                   (provider := catalogue_provider seven_per_page) fixed_calendar 4 "q"
                   (options_between 0 (3 * D180) (Some 5)) (fresh_service [] 1000)
                   5 _ _ eq_refl ltac:(lia) _)).
  vm_compute. reflexivity.
Defined.

(** X3. Every record that a search returns has a non-empty id, and its url
    is the watch address of that id: items that the provider sends without
    an id are dropped. *)
Theorem searchVideos_records_identified {P : Type} {provider : Provider P}
    (cal : Calendar) fuel query options (s : YouTubeService P) vs s' :
  searchVideos cal fuel query options s = (Ok vs, s') ->
  Forall (fun v => id v <> "" /\ url v = watch_url (id v)) vs.
Proof.
  apply searchVideos_built. apply video_to_metadata_identified.
Qed.

Lemma searchVideos_records_identified_witness :
  exists vs s',
    searchVideos (provider := catalogue_provider two_windows) fixed_calendar 4 "q"
      (options_between 0 (2 * D180) None) (fresh_service [] 1000) = (Ok vs, s')
    /\ length vs = 3%nat
    /\ Forall (fun v => id v <> "" /\ url v = watch_url (id v)) vs.
Proof.
  eexists _, _. split; [vm_compute; reflexivity|]. split; [reflexivity|].
  refine (searchVideos_records_identified (provider := catalogue_provider two_windows)
            fixed_calendar 4 "q" (options_between 0 (2 * D180) None)
            (fresh_service [] 1000) _ _ _).
  vm_compute. reflexivity.
Defined.

(** ** Deduplication of a concatenation *)

Section DedupApp.

Implicit Types (xs ys : list VideoMetadata) (A B : gset string).

Local Ltac same_members :=
  apply set_eq; intros ?;
  rewrite ?elem_of_union, ?elem_of_singleton, ?elem_of_list_to_set;
  intuition congruence.

Lemma filter_unseen_app A (l : list string) xs ys :
  (forall i, i ∈ l <-> i ∈ A \/ i ∈ (id <$> xs)) ->
  filter_unseen A (xs ++ ys)
  = filter_unseen A xs ++ filter_unseen (list_to_set l) ys.
Proof.
  revert A. induction xs as [|v xs IH]; intros A Hl; simpl.
  - f_equal. apply set_eq. intros i. rewrite elem_of_list_to_set, Hl.
    simpl. rewrite elem_of_nil. tauto.
  - destruct (decide (id v ∈ A)) as [Hin|Hout].
    + apply IH. intros i. rewrite Hl. simpl. rewrite elem_of_cons.
      intuition congruence.
    + simpl. f_equal. apply IH. intros i. rewrite Hl. simpl.
      rewrite elem_of_cons, elem_of_union, elem_of_singleton. tauto.
Qed.

Lemma filter_unseen_union (l : list string) B ys :
  filter_unseen (list_to_set l ∪ B) ys
  = filter (fun v => id v ∉ l) (filter_unseen B ys).
Proof.
  revert B. induction ys as [|v ys IH]; intros B; simpl; [done|].
  destruct (decide (id v ∈ B)) as [HB|HB].
  - rewrite decide_True by (apply elem_of_union; auto). apply IH.
  - destruct (decide (id v ∈ l)) as [Hl|Hl].
    + rewrite decide_True
        by (apply elem_of_union; left; by apply elem_of_list_to_set).
      rewrite filter_cons_False by (intros Hn; by apply Hn).
      rewrite <- IH. f_equal. same_members.
    + rewrite decide_False
        by (rewrite elem_of_union, elem_of_list_to_set; tauto).
      rewrite filter_cons_True by done. f_equal.
      rewrite <- IH. f_equal. same_members.
Qed.

End DedupApp.

(** X4. Deduplicating a concatenation keeps the first part as it is
    deduplicated on its own, and adds from the second part what is new:
    the records of earlier chunks are never displaced by later ones. *)
Theorem removeDuplicateVideos_app (xs ys : list VideoMetadata) :
  removeDuplicateVideos (xs ++ ys)
  = removeDuplicateVideos xs
    ++ filter (fun v => id v ∉ (id <$> xs)) (removeDuplicateVideos ys).
Proof.
  unfold removeDuplicateVideos.
  rewrite (filter_unseen_app ∅ (id <$> xs) xs ys).
  - f_equal. rewrite <- filter_unseen_union. f_equal.
    apply set_eq. intros i. rewrite elem_of_union, elem_of_list_to_set.
    pose proof (not_elem_of_empty (C := gset string) i). tauto.
  - intros i. pose proof (not_elem_of_empty (C := gset string) i). tauto.
Qed.

(** ** What a search sends *)

Section Sent.

Context {P : Type} {provider : Provider P}.
Variable cal : Calendar.

Implicit Types (s : YouTubeService P) (v : page_vars) (c : chunk_vars).

(** A pass of the loop always begins with the request of the page, after
    the wait if there is one. *)
Lemma loop_body_trace query startDate endDate options maxResults v s :
  exists evs,
    trace (loop_body cal query startDate endDate options maxResults v s).2
    = trace (paused cal s)
      ++ EvSearchList (requestParams query startDate endDate options
                         (nextPageToken_var v)) :: evs
    /\ Forall (page_event_ok cal query startDate endDate) evs.
Proof.
  rewrite loop_body_run.
  destruct (try_block_run query startDate endDate options maxResults v (paused cal s))
    as [e p _|data p _ _|data p e p' _ Hne _|data p details p' _ Hne _].
  - exists []. split; [|constructor].
    rewrite catch_block_run. by destruct (is_quota_error e).
  - exists []. by split; [|constructor].
  - exists [EvVideosList (requested_ids data)].
    split; [|by repeat constructor].
    rewrite catch_block_run.
    destruct (is_quota_error e); simpl; by rewrite <- app_assoc.
  - exists [EvVideosList (requested_ids data)].
    split; [|by repeat constructor].
    simpl. by rewrite <- app_assoc.
Qed.

Lemma loop_body_events query startDate endDate options maxResults v s :
  exists evs,
    trace (loop_body cal query startDate endDate options maxResults v s).2
    = trace s ++ evs
    /\ Forall (page_event_ok cal query startDate endDate) evs.
Proof.
  destruct (loop_body_trace query startDate endDate options maxResults v s)
    as (evs & -> & Hevs).
  rewrite paused_trace, <- app_assoc. eexists. split; [done|].
  apply Forall_app. split.
  - destruct (quotaExceeded s); by repeat constructor.
  - constructor; [done|exact Hevs].
Qed.

Lemma page_loop_events fuel query startDate endDate options maxResults v s :
  exists evs,
    trace (page_loop cal fuel query startDate endDate options maxResults v s).2
    = trace s ++ evs
    /\ Forall (page_event_ok cal query startDate endDate) evs.
Proof.
  revert v s. induction fuel as [|fuel IH]; intros v s.
  - exists []. split; [by rewrite app_nil_r|constructor].
  - destruct (loop_body_events query startDate endDate options maxResults v s)
      as (evs & Htrace & Hevs).
    destruct (loop_body_Ok cal query startDate endDate options maxResults v s)
      as (k & v1 & s1 & Hbody).
    rewrite Hbody in Htrace. cbn [snd] in Htrace.
    rewrite (page_loop_S _ _ _ _ _ _ _ _ _ _ _ _ Hbody).
    destruct k, (nextPageToken_var v1); try (by exists evs).
    destruct (IH v1 s1) as (evs' & -> & Hevs').
    exists (evs ++ evs'). split; [by rewrite Htrace, app_assoc|].
    apply Forall_app. by split.
Qed.

Lemma page_event_in_search query startDateTime endDateTime a b e :
  startDateTime <= a -> a < b -> b <= endDateTime -> b <= plus_days cal 180 a ->
  page_event_ok cal query a b e ->
  search_event_ok cal query startDateTime endDateTime e.
Proof.
  intros ? ? ? ?. destruct e as [now resetTime|p|ids]; simpl; [done| |done].
  intros (? & ? & -> & ->). auto 10.
Qed.

Lemma search_event_earlier query a a' endDateTime e :
  a <= a' ->
  search_event_ok cal query a' endDateTime e ->
  search_event_ok cal query a endDateTime e.
Proof.
  intros ?. destruct e as [now resetTime|p|ids]; simpl; [done| |done].
  intros (? & ? & ? & ? & ? & ?). repeat split; try done. lia.
Qed.

Lemma chunk_loop_events page_fuel fuel query options endDateTime c s :
  advancing cal ->
  exists evs,
    trace (chunk_loop cal page_fuel fuel query options endDateTime c s).2
    = trace s ++ evs
    /\ Forall (search_event_ok cal query (currentStartDate c) endDateTime) evs.
Proof.
  intros Hadv. revert c s. induction fuel as [|fuel IH]; intros c s;
    destruct (Z.lt_ge_cases (currentStartDate c) endDateTime) as [Hlt|Hge];
    try (rewrite chunk_loop_done by done; exists [];
         split; [by rewrite app_nil_r|constructor]).
  - cbn [chunk_loop].
    destruct (Z.ltb_spec (currentStartDate c) endDateTime); [|lia].
    exists []. split; [by rewrite app_nil_r|constructor].
  - rewrite chunk_loop_S by done. cbn zeta.
    pose proof (chunk_end_bounds cal Hadv dateChunkIntervalDays endDateTime
                  (currentStartDate c) ltac:(done) Hlt) as [[Hlo Hhi] Hspan].
    destruct (page_loop_events page_fuel query (currentStartDate c)
                (chunk_end cal dateChunkIntervalDays (currentStartDate c) endDateTime)
                options (chunk_limit options c) (MkVars [] None 0) s)
      as (evs & Htrace & Hevs).
    assert (Hevs' : Forall (search_event_ok cal query (currentStartDate c) endDateTime)
                      evs).
    { eapply Forall_impl; [exact Hevs|]. intros e.
      by apply page_event_in_search. }
    unfold fetchVideosByDateRange.
    destruct (page_loop cal page_fuel _ _ _ _ _ _ s) as [[chunkVideos|e|] s1];
      cbn [snd] in Htrace; try (by exists evs).
    destruct (limit_reached _ _); [by exists evs|].
    destruct (IH (MkChunkVars
                    (chunk_end cal dateChunkIntervalDays (currentStartDate c)
                       endDateTime)
                    (all_videos c ++ chunkVideos)
                    (results_fetched c + Z.of_nat (length chunkVideos))) s1)
      as (evs2 & -> & Hevs2).
    exists (evs ++ evs2). split; [by rewrite Htrace, app_assoc|].
    apply Forall_app. split; [done|].
    eapply Forall_impl; [exact Hevs2|]. intros e. cbn [currentStartDate].
    apply search_event_earlier. lia.
Qed.

End Sent.

(** X5. Whatever the provider answers and however the search ends, a search
    only adds to the events of the service, and what it adds is: requests
    for the query with page size 50 whose window is not empty, lies inside
    the date range of the search and spans at most 180 days; detail
    requests for at least one id; and waits until the start of the next
    day. *)
Theorem searchVideos_sends {P : Type} {provider : Provider P} (cal : Calendar)
    fuel query options (s : YouTubeService P) :
  advancing cal ->
  exists evs,
    trace (searchVideos cal fuel query options s).2 = trace s ++ evs
    /\ Forall (search_event_ok cal query (date_range cal options (clock s)).1
                 (date_range cal options (clock s)).2) evs.
Proof.
  intros Hadv.
  assert (Hstate : (searchVideos cal fuel query options s).2
                   = (collectVideos cal fuel query options s).2).
  { rewrite searchVideos_run.
    by destruct (collectVideos cal fuel query options s) as [[acc|e|] s1]. }
  rewrite Hstate. unfold collectVideos, bind, get.
  destruct (date_range cal options (clock s)) as [startDateTime endDateTime].
  apply (chunk_loop_events cal fuel fuel query options endDateTime
           (MkChunkVars startDateTime [] 0) s Hadv).
Qed.

Lemma searchVideos_sends_witness :
  exists evs,
    trace (searchVideos (provider := catalogue_provider five_pages) fixed_calendar 7
             "q" (options_between 0 (2 * D180) None)
             (fresh_service [None; Some quota_error] 1000)).2
    = [] ++ evs
    /\ length evs = 14%nat
    /\ Forall (search_event_ok fixed_calendar "q" 0 (2 * D180)) evs.
Proof.
  destruct (searchVideos_sends (provider := catalogue_provider five_pages)
              fixed_calendar 7 "q" (options_between 0 (2 * D180) None)
              (fresh_service [None; Some quota_error] 1000) fixed_calendar_advancing)
    as (evs & Htrace & Hevs).
  exists evs. split; [exact Htrace|]. split; [|exact Hevs].
  cbn [fresh_service trace app] in Htrace. rewrite <- Htrace.
  vm_compute. reflexivity.
Defined.

(** ** The quota flag in the pagination loop *)

Section Quota.

Context {P : Type} {provider : Provider P}.
Variable cal : Calendar.

Implicit Types (s : YouTubeService P) (v : page_vars).

Lemma page_loop_first_events fuel query startDate endDate options maxResults v s :
  exists evs,
    trace (page_loop cal (S fuel) query startDate endDate options maxResults v s).2
    = trace (paused cal s)
      ++ EvSearchList (requestParams query startDate endDate options
                         (nextPageToken_var v)) :: evs.
Proof.
  destruct (loop_body_trace cal query startDate endDate options maxResults v s)
    as (evs & Htrace & _).
  destruct (loop_body_Ok cal query startDate endDate options maxResults v s)
    as (k & v1 & s1 & Hbody).
  rewrite Hbody in Htrace. cbn [snd] in Htrace.
  rewrite (page_loop_S _ _ _ _ _ _ _ _ _ _ _ _ Hbody).
  destruct k, (nextPageToken_var v1); try (by exists evs).
  destruct (page_loop_events cal fuel query startDate endDate options maxResults v1 s1)
    as (evs' & -> & _).
  exists (evs ++ evs'). rewrite Htrace, <- app_assoc. done.
Qed.

(** The answers of the service do not depend on its clock, its events or
    the flag it starts with: only on the provider. *)
Lemma try_block_same_provider query startDate endDate options maxResults v s1 s2 :
  youtube s1 = youtube s2 ->
  quotaExceeded s1 = quotaExceeded s2 ->
  let r1 := try_block query startDate endDate options maxResults v s1 in
  let r2 := try_block query startDate endDate options maxResults v s2 in
  r1.1 = r2.1 /\ youtube r1.2 = youtube r2.2
  /\ quotaExceeded r1.2 = quotaExceeded r2.2.
Proof.
  intros Hy Hq. unfold try_block, bind, call_search_list. rewrite Hy.
  destruct (search_list _ (youtube s2)) as [[e|data] p]; [done|].
  destruct (items data) as [[|item rest]|]; try done.
  destruct (omap videoId (item :: rest)) as [|i ids]; [done|].
  unfold call_videos_list. cbn [youtube quotaExceeded clock trace].
  destruct (videos_list (joined (i :: ids)) p) as [[e|details] p']; [done|].
  destruct maxResults as [m|]; [|done].
  cbn zeta. cbn [resultsFetched]. by destruct (m <=? _).
Qed.

Lemma loop_body_same_provider query startDate endDate options maxResults v s1 s2 :
  youtube s1 = youtube s2 ->
  let r1 := loop_body cal query startDate endDate options maxResults v s1 in
  let r2 := loop_body cal query startDate endDate options maxResults v s2 in
  r1.1 = r2.1 /\ youtube r1.2 = youtube r2.2
  /\ quotaExceeded r1.2 = quotaExceeded r2.2.
Proof.
  intros Hy. cbn zeta. rewrite !loop_body_run.
  pose proof (try_block_same_provider query startDate endDate options maxResults v
                (paused cal s1) (paused cal s2)) as Hsame.
  cbn zeta in Hsame.
  destruct Hsame as (H1 & H2 & H3);
    [by rewrite !paused_youtube|by rewrite !paused_quotaExceeded|].
  destruct (try_block _ _ _ _ _ v (paused cal s1)) as [[a1|e1|] t1],
           (try_block _ _ _ _ _ v (paused cal s2)) as [[a2|e2|] t2];
    cbn [fst snd] in *; try done.
  injection H1 as ->. rewrite !catch_block_run.
  by destruct (is_quota_error e2).
Qed.

Lemma page_loop_same_provider fuel query startDate endDate options maxResults v s1 s2 :
  youtube s1 = youtube s2 ->
  (page_loop cal fuel query startDate endDate options maxResults v s1).1
  = (page_loop cal fuel query startDate endDate options maxResults v s2).1.
Proof.
  revert v s1 s2. induction fuel as [|fuel IH]; intros v s1 s2 Hy; [done|].
  pose proof (loop_body_same_provider query startDate endDate options maxResults v
                s1 s2 Hy) as Hsame.
  cbn zeta in Hsame. destruct Hsame as (H1 & H2 & _).
  destruct (loop_body_Ok cal query startDate endDate options maxResults v s1)
    as (k1 & v1 & t1 & Hb1).
  destruct (loop_body_Ok cal query startDate endDate options maxResults v s2)
    as (k2 & v2 & t2 & Hb2).
  rewrite Hb1, Hb2 in H1, H2. cbn [fst snd] in *. injection H1 as -> ->.
  rewrite (page_loop_S _ _ _ _ _ _ _ _ _ _ _ _ Hb1),
          (page_loop_S _ _ _ _ _ _ _ _ _ _ _ _ Hb2).
  destruct k2, (nextPageToken_var v2); try done. by apply IH.
Qed.

End Quota.

(** X6. The pagination of a window starts with its request for the first
    page; when the quota flag is set, the wait until the start of the next
    day comes first, and when it is not set, nothing comes first. *)
Theorem fetchVideosByDateRange_waits_first {P : Type} {provider : Provider P}
    (cal : Calendar) fuel query startDate endDate options maxResults
    (s : YouTubeService P) :
  let request := EvSearchList (requestParams query startDate endDate options None) in
  let run := fetchVideosByDateRange cal (S fuel) query startDate endDate options
               maxResults s in
  (quotaExceeded s = true ->
   exists evs,
     trace run.2
     = trace s
       ++ EvWait (clock s) (start_of_day cal (plus_days cal 1 (clock s)))
          :: request :: evs)
  /\ (quotaExceeded s = false -> exists evs, trace run.2 = trace s ++ request :: evs).
Proof.
  cbn zeta. unfold fetchVideosByDateRange.
  destruct (page_loop_first_events cal fuel query startDate endDate options maxResults
              (MkVars [] None 0) s) as (evs & Htrace).
  rewrite Htrace, paused_trace. cbn [nextPageToken_var].
  split; intros ->; exists evs; [by rewrite <- app_assoc|by rewrite app_nil_r].
Qed.

Lemma fetchVideosByDateRange_waits_first_witness :
  let s := MkService ([] : list (option Error)) true 1000 [] in
  quotaExceeded s = true
  /\ exists evs,
       trace (fetchVideosByDateRange (provider := catalogue_provider two_windows)
                fixed_calendar 2 "q" 0 D180 (options_between 0 (2 * D180) None)
                None s).2
       = trace s
         ++ EvWait 1000 msPerDay
            :: EvSearchList
                 (requestParams "q" 0 D180 (options_between 0 (2 * D180) None) None)
            :: evs.
Proof.
  intros s. split; [reflexivity|].
  exact (proj1 (fetchVideosByDateRange_waits_first
                  (provider := catalogue_provider two_windows) fixed_calendar 1 "q" 0
                  D180 (options_between 0 (2 * D180) None) None s) eq_refl).
Defined.

(** X7. A quota failure of the request for a later page (one with a token)
    loses nothing: the pagination gives what it gives when started on the
    provider as the failed request left it, and its events show the failed
    request, the wait, and the request for the same page again. *)
Theorem quota_on_later_page_is_absorbed {P : Type} {provider : Provider P}
    (cal : Calendar) fuel query startDate endDate options maxResults v
    (s : YouTubeService P) e p tok :
  let params := requestParams query startDate endDate options (nextPageToken_var v) in
  nextPageToken_var v = Some tok ->
  search_list params (youtube s) = (inl e, p) ->
  is_quota_error e = true ->
  (page_loop cal (S (S fuel)) query startDate endDate options maxResults v s).1
  = (page_loop cal (S fuel) query startDate endDate options maxResults v
       (MkService p false (clock s) (trace s))).1
  /\ exists evs,
       trace (page_loop cal (S (S fuel)) query startDate endDate options maxResults
                v s).2
       = trace (paused cal s)
         ++ EvSearchList params
            :: EvWait (clock (paused cal s))
                 (start_of_day cal (plus_days cal 1 (clock (paused cal s))))
            :: EvSearchList params :: evs.
Proof.
  intros params Htok Hsearch Hquota. subst params.
  rewrite (page_loop_quota_later_page cal (S fuel) _ _ _ _ _ _ _ e p tok
             Htok Hsearch Hquota).
  split; [by apply page_loop_same_provider|].
  destruct (page_loop_first_events cal fuel query startDate endDate options maxResults
              v (MkService p true (clock (paused cal s))
                   (trace (paused cal s)
                    ++ [EvSearchList
                          (requestParams query startDate endDate options
                             (nextPageToken_var v))])))
    as (evs & ->).
  exists evs. rewrite paused_trace. cbn [quotaExceeded trace clock].
  by rewrite <- !app_assoc.
Qed.

Lemma quota_on_later_page_is_absorbed_witness :
  let v := {| allVideos := [plain_metadata "a1"; plain_metadata "a2"];
              nextPageToken_var := Some "xx";
              resultsFetched := 2 |} in
  let options := options_between 0 (2 * D180) None in
  is_quota_error quota_error = true
  /\ (page_loop (provider := catalogue_provider five_pages) fixed_calendar 5 "q" 0 D180
        options None v (fresh_service [Some quota_error] 1000)).1
     = Ok (plain_metadata <$> ["a1"; "a2"; "a3"; "a4"; "a5"]).
Proof.
  intros v options. split; [reflexivity|].
  rewrite (proj1 (quota_on_later_page_is_absorbed
                    (provider := catalogue_provider five_pages) fixed_calendar 3 "q" 0
                    D180 options None v (fresh_service [Some quota_error] 1000)
                    quota_error [] "xx" eq_refl eq_refl eq_refl)).
  vm_compute. reflexivity.
Defined.

(** ** The numbers that the service reads *)

(** X8. A well-formed duration, ["PT"] followed by hours [nH], minutes [nM]
    and seconds [nS], each of them optional, is read as
    [3600 * hours + 60 * minutes + seconds], computed in doubles: the
    result is exact when it is below 2^53, and rounded above, as
    ["PT9007199254740993S"] and ["PT2501999792983609H"] show. *)
Theorem parseDuration_well_formed (h m s : option string) :
  digit_run h -> digit_run m -> digit_run s ->
  let duration := "PT" +:+ duration_part h "H" +:+ duration_part m "M"
                  +:+ duration_part s "S" in
  parseDuration duration = duration_seconds (part_value h) (part_value m) (part_value s)
  /\ (3600 * part_value h + 60 * part_value m + part_value s < 2 ^ 53 ->
      parseDuration duration
      = Num (3600 * part_value h + 60 * part_value m + part_value s))
  /\ parseDuration "PT9007199254740993S" = Num 9007199254740992
  /\ parseDuration "PT2501999792983609H" = Num 9007199254740992000.
Proof.
  intros Hh Hm Hs duration.
  assert (Hval : parseDuration duration
                 = duration_seconds (part_value h) (part_value m) (part_value s)).
  { pose proof (parseDuration_parts "" h m s "") as Hparts.
    rewrite append_empty_r in Hparts. apply Hparts; try done.
    - intros ([|a pre] & r & Heq); discriminate Heq.
    - unfold components_end. by destruct s, m, h. }
  split; [exact Hval|]. split; [|split; reflexivity].
  intros Hsmall. rewrite Hval.
  apply duration_seconds_exact; try done; by apply part_value_nonneg.
Qed.

Lemma parseDuration_well_formed_witness :
  digit_run (Some "1") /\ digit_run None /\ digit_run (Some "07")
  /\ 3600 * 1 + 60 * 0 + 7 < 2 ^ 53
  /\ parseDuration "PT1H07S" = Num (3600 * 1 + 60 * 0 + 7).
Proof.
  assert (H1 : digit_run (Some "1")) by (by split).
  assert (H7 : digit_run (Some "07")) by (by split).
  assert (Hsmall : 3600 * 1 + 60 * 0 + 7 < 2 ^ 53) by reflexivity.
  split; [exact H1|]. split; [exact I|]. split; [exact H7|]. split; [exact Hsmall|].
  exact (proj1 (proj2 (parseDuration_well_formed (Some "1") None (Some "07") H1 I H7))
           Hsmall).
Defined.

(** X9. The view count of a record is the number that the provider sent as
    a run of digits, rounded to a double: it is that number when it is
    below 2^53, and ["9007199254740993"] is read as 9007199254740992.  It
    is 0 when the provider sent no count or an empty one. *)
Theorem metadata_viewCount_value (videoId : string) (video : Video) :
  (forall d, statistics_viewCount video = Some d -> d <> "" ->
             Str.digits_only d = true ->
             viewCount (metadata_of videoId video) = to_double (decimal_value d)
             /\ (decimal_value d < 2 ^ 53 ->
                 viewCount (metadata_of videoId video) = Num (decimal_value d)))
  /\ (statistics_viewCount video = None \/ statistics_viewCount video = Some "" ->
      viewCount (metadata_of videoId video) = Num 0)
  /\ (statistics_viewCount video = Some "9007199254740993" ->
      viewCount (metadata_of videoId video) = Num 9007199254740992).
Proof.
  split; [|split].
  - intros d Hcount Hne Hd.
    assert (Hval : viewCount (metadata_of videoId video) = to_double (decimal_value d)).
    { apply (metadata_viewCount_digits videoId video d ""); try done.
      by rewrite append_empty_r. }
    split; [exact Hval|]. intros Hsmall. rewrite Hval.
    pose proof (decimal_value_nonneg d Hd). apply to_double_exact. lia.
  - apply metadata_viewCount_absent.
  - cbn [metadata_of viewCount]. by intros ->.
Qed.

Lemma metadata_viewCount_value_witness :
  let video := counted_video "v1" None (Some "0120") in
  decimal_value "0120" < 2 ^ 53
  /\ viewCount (metadata_of "v1" video) = Num 120.
Proof.
  intros video.
  assert (Hsmall : decimal_value "0120" < 2 ^ 53) by reflexivity.
  split; [exact Hsmall|].
  exact (proj2 (proj1 (metadata_viewCount_value "v1" video) "0120" eq_refl
                  ltac:(discriminate) eq_refl) Hsmall).
Defined.

(** ** lib/youtube.ts: [searchDiseaseVideos] *)

Section Options.

Context {P : Type} {provider : Provider P}.
Variable cal : Calendar.
Variables o1 o2 : SearchOptions.
Hypothesis same_order : order o1 = order o2.
Hypothesis same_language : language o1 = language o2.
Hypothesis same_maxResults : maxResults o1 = maxResults o2.

Implicit Types (s : YouTubeService P) (v : page_vars) (c : chunk_vars).

Lemma requestParams_options query startDate endDate tok :
  requestParams query startDate endDate o1 tok
  = requestParams query startDate endDate o2 tok.
Proof. unfold requestParams. by rewrite same_order, same_language. Qed.

Lemma loop_body_options query startDate endDate maxResults v s :
  loop_body cal query startDate endDate o1 maxResults v s
  = loop_body cal query startDate endDate o2 maxResults v s.
Proof.
  unfold loop_body, try_block. by rewrite requestParams_options.
Qed.

Lemma page_loop_options fuel query startDate endDate maxResults v s :
  page_loop cal fuel query startDate endDate o1 maxResults v s
  = page_loop cal fuel query startDate endDate o2 maxResults v s.
Proof.
  revert v s. induction fuel as [|fuel IH]; intros v s; [done|].
  destruct (loop_body_Ok cal query startDate endDate o2 maxResults v s)
    as (k & v1 & s1 & Hbody).
  rewrite (page_loop_S cal fuel query startDate endDate o2 _ _ _ _ _ _ Hbody).
  rewrite <- loop_body_options in Hbody.
  rewrite (page_loop_S cal fuel query startDate endDate o1 _ _ _ _ _ _ Hbody).
  by destruct k, (nextPageToken_var v1).
Qed.

Lemma chunk_loop_options page_fuel fuel query endDateTime c s :
  chunk_loop cal page_fuel fuel query o1 endDateTime c s
  = chunk_loop cal page_fuel fuel query o2 endDateTime c s.
Proof.
  revert c s. induction fuel as [|fuel IH]; intros c s;
    destruct (Z.lt_ge_cases (currentStartDate c) endDateTime) as [Hlt|Hge];
    try (by rewrite !chunk_loop_done).
  - cbn [chunk_loop]. by destruct (_ <? _).
  - rewrite !chunk_loop_S by done. cbn zeta. unfold fetchVideosByDateRange.
    unfold chunk_limit, limit_reached. rewrite same_maxResults, page_loop_options.
    destruct (page_loop cal page_fuel _ _ _ o2 _ _ s) as [[chunkVideos|e|] s1];
      try done.
    destruct (match maxResults o2 with Some t => _ | None => false end); [done|].
    apply IH.
Qed.

End Options.

Lemma collectVideos_run {P : Type} {provider : Provider P} (cal : Calendar)
    fuel query options (s : YouTubeService P) :
  collectVideos cal fuel query options s
  = chunk_loop cal fuel fuel query options (date_range cal options (clock s)).2
      (MkChunkVars (date_range cal options (clock s)).1 [] 0) s.
Proof.
  unfold collectVideos, bind, get.
  by destruct (date_range cal options (clock s)).
Qed.

(** X10. [searchDiseaseVideos] is [searchVideos]: the default that the
    wrapper fills in for [yearsBack] is the one that the service applies
    itself, and the other options pass through. *)
Theorem searchDiseaseVideos_is_searchVideos {P : Type} {provider : Provider P}
    (cal : Calendar) fuel query options (s : YouTubeService P) :
  searchDiseaseVideos cal fuel query options s = searchVideos cal fuel query options s.
Proof.
  unfold searchDiseaseVideos. rewrite !searchVideos_run, !collectVideos_run.
  assert (Hrange : date_range cal (searchOptions_of options) (clock s)
                   = date_range cal options (clock s)).
  { unfold date_range, searchOptions_of. cbn [endDate startDate yearsBack].
    destruct (yearsBack options) as [y|]; [|done].
    destruct (Z.eqb_spec y 0) as [->|Hy]; [done|].
    by destruct (Z.eqb_spec y 0). }
  rewrite Hrange.
  by rewrite (chunk_loop_options cal (searchOptions_of options) options).
Qed.

(** ** lib/transcript-service.ts *)

Section TranscriptFacts.

Context {T : Type} {lib : TranscriptLibrary T}.

Implicit Types (st : TranscriptService T).

Lemma TranscriptService_getTranscript_requests videoId st :
  exists more,
    requested (TranscriptService_getTranscript videoId st).2
    = requested st ++ (videoId, Some "en") :: more
    /\ Forall (fun r => r.1 = videoId) more.
Proof.
  unfold TranscriptService_getTranscript, TranscriptService_fetchTranscript,
    call_library. cbn [library requested].
  destruct (library_fetchTranscript videoId (Some "en") (library st))
    as [[e|[|seg segs]] l]; simpl; try (by exists []).
  destruct (library_fetchTranscript videoId None l) as [[e|[|seg segs]] l'];
    simpl; rewrite <- app_assoc;
    (exists [(videoId, None)]; split; [done|by repeat constructor]).
Qed.

Lemma getTranscriptWithTimestamps_run videoId st :
  (getTranscriptWithTimestamps videoId st).1.2 = "en"
  \/ (getTranscriptWithTimestamps videoId st).1.2 = "auto"
  \/ (getTranscriptWithTimestamps videoId st).1.2 = "none"
     /\ (getTranscriptWithTimestamps videoId st).1.1 = [].
Proof.
  unfold getTranscriptWithTimestamps, TranscriptService_fetchTranscript,
    call_library.
  destruct (library_fetchTranscript videoId (Some "en") (library st))
    as [[e|[|seg segs]] l]; simpl; auto.
  destruct (library_fetchTranscript videoId None l) as [[e|[|seg segs]] l'];
    simpl; auto.
Qed.

Lemma batch_loop_keys videoIds (transcripts : gmap string (list string)) st i :
  is_Some ((batch_loop videoIds transcripts st).1 !! i)
  <-> i ∈ videoIds \/ is_Some (transcripts !! i).
Proof.
  revert transcripts st. induction videoIds as [|videoId rest IH];
    intros transcripts st; cbn [batch_loop].
  - rewrite elem_of_nil. cbn [fst]. tauto.
  - destruct (TranscriptService_getTranscript videoId st) as [transcript st'].
    rewrite IH, elem_of_cons, lookup_insert_is_Some.
    destruct (decide (videoId = i)) as [->|Hne]; intuition congruence.
Qed.

End TranscriptFacts.

(** X11. [getTranscriptWithTimestamps] asks for the English transcript
    first.  When the English answer has segments, it returns them with the
    language ["en"] and asks nothing more.  When the English answer is
    empty, and only then, it asks for the detected language: it returns the
    segments of that answer with the language ["auto"], and no segments
    with the language ["none"] when that answer is empty or the request
    throws.  When the English request throws, it asks nothing more and
    returns no segments with the language ["none"]. *)
Theorem getTranscriptWithTimestamps_languages {T : Type} {lib : TranscriptLibrary T}
    (videoId : string) (st : TranscriptService T) :
  let english := library_fetchTranscript videoId (Some "en") (library st) in
  let detected := library_fetchTranscript videoId None english.2 in
  let segments := (getTranscriptWithTimestamps videoId st).1.1 in
  let lang := (getTranscriptWithTimestamps videoId st).1.2 in
  let asked := requested (getTranscriptWithTimestamps videoId st).2 in
  let left := library (getTranscriptWithTimestamps videoId st).2 in
  (segments = [] <-> lang = "none")
  /\ (lang = "en" /\ english.1 = inr segments /\ segments <> []
        /\ asked = requested st ++ [(videoId, Some "en")] /\ left = english.2
      \/ lang = "auto" /\ english.1 = inr [] /\ detected.1 = inr segments
        /\ segments <> []
        /\ asked = requested st ++ [(videoId, Some "en"); (videoId, None)]
        /\ left = detected.2
      \/ lang = "none" /\ segments = [] /\ english.1 = inr []
        /\ (detected.1 = inr [] \/ exists error, detected.1 = inl error)
        /\ asked = requested st ++ [(videoId, Some "en"); (videoId, None)]
        /\ left = detected.2
      \/ lang = "none" /\ segments = [] /\ (exists error, english.1 = inl error)
        /\ asked = requested st ++ [(videoId, Some "en")] /\ left = english.2).
Proof.
  cbn zeta. unfold getTranscriptWithTimestamps, TranscriptService_fetchTranscript,
    call_library. cbn [library requested].
  destruct (library_fetchTranscript videoId (Some "en") (library st))
    as [[e|[|seg segs]] l]; simpl.
  - split; [done|]. do 3 right. eauto 10.
  - destruct (library_fetchTranscript videoId None l) as [[e|[|seg segs]] l'];
      simpl; rewrite <- ?app_assoc; (split; [done|]).
    + right. right. left. eauto 10.
    + right. right. left. auto 10.
    + right. left. auto 10.
  - split; [done|]. left. auto 10.
Qed.

(** X12. The map that [getBatchTranscripts] returns has an entry for every
    id it was given, also for the ids whose transcript could not be
    fetched, and for no other id. *)
Theorem getBatchTranscripts_keys {T : Type} {lib : TranscriptLibrary T}
    (videoIds : list string) (st : TranscriptService T) (i : string) :
  is_Some ((getBatchTranscripts videoIds st).1 !! i) <-> i ∈ videoIds.
Proof.
  unfold getBatchTranscripts. rewrite batch_loop_keys, lookup_empty.
  split; [intros [?|[? [=]]]; done|auto].
Qed.

(** X13. [YouTubeService.fetchTranscript] and [getTranscript] of
    lib/youtube.ts give the same answer; when they give a transcript, its
    language is ["en"] or ["auto"] and its text is made of at least one
    segment. *)
Theorem fetchTranscript_agrees {T : Type} {lib : TranscriptLibrary T}
    (videoId : string) (st : TranscriptService T) :
  YouTubeService_fetchTranscript videoId st = getTranscript videoId st
  /\ (forall fullText lang,
        (getTranscript videoId st).1 = Some (fullText, lang) ->
        (lang = "en" \/ lang = "auto")
        /\ exists segment segments,
             (getTranscriptWithTimestamps videoId st).1.1 = segment :: segments
             /\ fullText = String.concat " " (map text (segment :: segments))).
Proof.
  pose proof (getTranscriptWithTimestamps_run videoId st) as Hlang.
  unfold YouTubeService_fetchTranscript, getTranscript.
  destruct (getTranscriptWithTimestamps videoId st) as [[segments lang] st'].
  cbn [fst snd] in *. destruct segments as [|segment segments]; cbn [length Nat.ltb Nat.leb].
  - split; [done|]. intros ? ? [=].
  - split; [done|]. intros ? ? [= <- <-]. split; [|eauto].
    destruct Hlang as [->|[->|[-> ?]]]; auto. done.
Qed.

Lemma fetchTranscript_agrees_witness :
  let lib := table_library [("v2", ["hello"; "world"])] [("v1", ["hola"])] in
  (getTranscript (lib := lib) "v2" no_requests).1 = Some ("hello world", "en")
  /\ ("en" = "en" \/ "en" = "auto").
Proof.
  intros lib.
  assert (Hrun : (getTranscript (lib := lib) "v2" no_requests).1
                 = Some ("hello world", "en")) by reflexivity.
  split; [exact Hrun|].
  exact (proj1 (proj2 (fetchTranscript_agrees (lib := lib) "v2" no_requests)
                  "hello world" "en" Hrun)).
Defined.

(** ** bin/youtube-fetcher.ts: the command line *)

Section CommandLine.

Import Fetcher.

Implicit Types (pairs : list (string * string)) (o : Options).

Lemma known_flag_sets flag value o :
  known_flag flag -> exists o', set_option flag value o = Some o'.
Proof.
  unfold known_flag. simpl.
  intros [<-|[<-|[<-|[<-|[<-|[<-|[<-|[]]]]]]]]; by eexists.
Qed.

Lemma parse_args_pair flag value pairs o o' :
  set_option flag value o = Some o' ->
  parse_args (render ((flag, value) :: pairs)) o = parse_args (render pairs) o'.
Proof. intros Hset. unfold render. simpl. by rewrite Hset. Qed.

Lemma last_value_cons flag f value pairs :
  last_value flag ((f, value) :: pairs)
  = match last_value flag pairs with
    | Some w => Some w
    | None => if decide (f = flag) then Some value else None
    end.
Proof.
  unfold last_value. destruct (decide (f = flag)) as [Heq|Hne].
  - rewrite filter_cons_True by done. rewrite last_cons.
    by destruct (last (filter _ pairs)).
  - rewrite filter_cons_False by done. by destruct (last (filter _ pairs)).
Qed.

Lemma parse_args_trailing pairs single o :
  Forall (fun fv => known_flag fv.1) pairs ->
  parse_args (render pairs ++ [single]) o = parse_args (render pairs) o.
Proof.
  intros Hknown. revert o. induction Hknown as [|[f value] pairs Hf _ IH]; intros o.
  - done.
  - destruct (known_flag_sets f value o Hf) as [o' Hset].
    rewrite (parse_args_pair _ _ _ _ _ Hset). unfold render. simpl.
    rewrite Hset. apply IH.
Qed.

(** Each option, after a command line of pairs, in terms of the last pair
    with its flag. *)
Lemma parse_args_last pairs o :
  Forall (fun fv => known_flag fv.1) pairs ->
  disease (parse_args (render pairs) o)
  = match last_value "--disease" pairs with
    | Some value => Some value
    | None => disease o
    end
  /\ videoId (parse_args (render pairs) o)
     = match last_value "--video-id" pairs with
       | Some value => Some value
       | None => videoId o
       end
  /\ maxResults (parse_args (render pairs) o)
     = match last_value "--max-results" pairs with
       | Some value => Some (parseInt value (Some 10))
       | None => maxResults o
       end.
Proof.
  intros Hknown. revert o. induction Hknown as [|[f value] pairs Hf _ IH]; intros o.
  - done.
  - destruct (known_flag_sets f value o Hf) as [o' Hset].
    rewrite (parse_args_pair _ _ _ _ _ Hset), !last_value_cons.
    destruct (IH o') as (-> & -> & ->).
    destruct (last_value "--disease" pairs), (last_value "--video-id" pairs),
      (last_value "--max-results" pairs);
      revert Hset; unfold known_flag in Hf; simpl in Hf;
      destruct Hf as [<-|[<-|[<-|[<-|[<-|[<-|[<-|[]]]]]]]];
      by intros [= <-].
Qed.

End CommandLine.

(** X14. On a command line made of pairs of a flag and a value, each option
    gets the value of the last pair with its flag, whatever the value
    looks like (also when it looks like a flag); [--max-results] is read
    by [parseInt]; and one more argument at the end, even a flag, changes
    nothing. *)
Theorem parse_args_pairs (pairs : list (string * string)) (single : string)
    (o : Fetcher.Options) :
  Forall (fun fv => Fetcher.known_flag fv.1) pairs ->
  Fetcher.disease (Fetcher.parse_args (Fetcher.render pairs) o)
  = match Fetcher.last_value "--disease" pairs with
    | Some value => Some value
    | None => Fetcher.disease o
    end
  /\ Fetcher.videoId (Fetcher.parse_args (Fetcher.render pairs) o)
     = match Fetcher.last_value "--video-id" pairs with
       | Some value => Some value
       | None => Fetcher.videoId o
       end
  /\ Fetcher.maxResults (Fetcher.parse_args (Fetcher.render pairs) o)
     = match Fetcher.last_value "--max-results" pairs with
       | Some value => Some (parseInt value (Some 10))
       | None => Fetcher.maxResults o
       end
  /\ Fetcher.parse_args (Fetcher.render pairs ++ [single]) o
     = Fetcher.parse_args (Fetcher.render pairs) o.
Proof.
  intros Hknown.
  destruct (parse_args_last pairs o Hknown) as (H1 & H2 & H3).
  repeat split; try done. by apply parse_args_trailing.
Qed.

Lemma parse_args_pairs_witness :
  let pairs := [("--disease", "asthma"); ("--max-results", "12");
                ("--disease", "--video-id")] in
  Forall (fun fv => Fetcher.known_flag fv.1) pairs
  /\ Fetcher.disease (Fetcher.parse_args (Fetcher.render pairs) Fetcher.no_options)
     = Some "--video-id"
  /\ Fetcher.videoId (Fetcher.parse_args (Fetcher.render pairs) Fetcher.no_options)
     = None.
Proof.
  intros pairs.
  assert (Hknown : Forall (fun fv => Fetcher.known_flag fv.1) pairs).
  { unfold pairs, Fetcher.known_flag.
    do 3 (constructor; [simpl; auto 10|]). constructor. }
  split; [exact Hknown|].
  destruct (parse_args_pairs pairs "--end-date" Fetcher.no_options Hknown)
    as (H1 & H2 & _).
  split; [exact H1|exact H2].
Defined.

(** ** bin/youtube-fetcher.ts: [main] *)

Section MainFacts.

Context {P : Type} {provider : Provider P}.
Variable cal : Calendar.
Variable fromISO : string -> Z.

Implicit Types (s : YouTubeService P).

Lemma or_null_Some o x :
  or_null o = Some x -> x <> "" /\ forall d, or_else (Some x) d = x.
Proof. destruct o as [[|c r]|]; try done. by intros [= <-]. Qed.

Lemma searchDiseaseVideos_outcome fuel query options s :
  (exists vs s', searchDiseaseVideos cal fuel query options s = (Ok vs, s'))
  \/ (exists s', searchDiseaseVideos cal fuel query options s = (Timeout, s')).
Proof.
  unfold searchDiseaseVideos. rewrite searchVideos_run.
  pose proof (collectVideos_no_throw cal fuel query (searchOptions_of options) s)
    as Hno.
  destruct (collectVideos cal fuel query (searchOptions_of options) s)
    as [[acc|e|] s']; eauto.
  by destruct (Hno e).
Qed.

Lemma fetcher_search_outcome fuel disease o s :
  (exists vs s', fetcher_search cal fromISO fuel disease o s = (Ok vs, s'))
  \/ (exists s', fetcher_search cal fromISO fuel disease o s = (Timeout, s')).
Proof.
  unfold fetcher_search, bind.
  destruct (searchDiseaseVideos_outcome fuel disease (fetcher_searchOptions fromISO o) s)
    as [(vs & s' & ->)|(s' & ->)]; [|eauto].
  left. destruct (Fetcher.maxResults o) as [[| | |]|]; unfold ret; eauto.
Qed.

(** The run of [main] in each of its three modes. *)
Lemma fetcher_main_run fuel args s :
  let options := Fetcher.parse_args args Fetcher.no_options in
  match or_null (Fetcher.disease options), or_null (Fetcher.videoId options) with
  | None, None => fetcher_main cal fromISO fuel args s = (Ok Usage, s)
  | disease, Some videoId =>
      exists video p,
        fetcher_main cal fromISO fuel args s
        = (Ok (Written match video with
                       | Some video =>
                           [(video, or_else disease (or_else (Some videoId) "unknown"))]
                       | None => []
                       end),
           detailed [videoId] p s)
  | Some disease, None =>
      match fetcher_search cal fromISO fuel disease options s with
      | (Ok videos, s') =>
          fetcher_main cal fromISO fuel args s
          = (Ok (Written (map (fun video => (video, disease)) videos)), s')
      | (_, s') => fetcher_main cal fromISO fuel args s = (Timeout, s')
      end
  end.
Proof.
  cbn zeta. unfold fetcher_main.
  destruct (or_null (Fetcher.disease _)) as [disease|] eqn:Hd,
           (or_null (Fetcher.videoId _)) as [videoId|] eqn:Hv; try done.
  - unfold try_catch, bind. rewrite getVideoDetails_run.
    destruct (videos_list [videoId] (youtube s)) as [[e|response] p].
    + by exists None, p.
    + exists (option_map (metadata_of videoId) (head (default [] (video_items response)))), p.
      by destruct (head _).
  - assert (Hname : or_else (Some disease) (or_else None "unknown") = disease).
    { by apply (or_null_Some _ _ Hd). }
    assert (Hquery : or_else (Some disease) "" = disease).
    { by apply (or_null_Some _ _ Hd). }
    unfold try_catch, bind. rewrite Hname, Hquery.
    destruct (fetcher_search_outcome fuel disease
                (Fetcher.parse_args args Fetcher.no_options) s)
      as [(vs & s' & ->)|(s' & ->)]; done.
  - unfold try_catch, bind. rewrite getVideoDetails_run.
    destruct (videos_list [videoId] (youtube s)) as [[e|response] p].
    + by exists None, p.
    + exists (option_map (metadata_of videoId) (head (default [] (video_items response)))), p.
      by destruct (head _).
Qed.

End MainFacts.

(** A limit that [parseInt] reads as [-Infinity] ends the search after the
    first page, and nothing is written. *)
Example fetcher_main_negative_infinity :
  let fromISO := fun d : string => if String.eqb d "1970-01-01" then 0 else 2 * D180 in
  let run := fetcher_main (provider := catalogue_provider two_windows) fixed_calendar
               fromISO 4
               ["--disease"; "asthma"; "--max-results"; "-" +:+ nines 400;
                "--start-date"; "1970-01-01"; "--end-date"; "1970-12-27"]
               (fresh_service [] 1000) in
  Fetcher.maxResults
    (Fetcher.parse_args ["--max-results"; "-" +:+ nines 400] Fetcher.no_options)
  = Some NegInfinity
  /\ run.1 = Ok (Written [])
  /\ trace run.2
     = [EvSearchList (requestParams "asthma" 0 D180 (options_between 0 0 None) None);
        EvVideosList ["a1"; "a2"]].
Proof. vm_compute. repeat split; reflexivity. Qed.

(** X15. [main] of the fetcher.  Without a disease and without a video id
    it stops with the usage message before any request.  With a video id
    it looks that one video up, also when a disease is given: it sends one
    detail request and no search request, and writes at most one record.
    Up to the records it writes, no answer of the provider takes it to
    its [catch]. *)
Theorem fetcher_main_modes {P : Type} {provider : Provider P} (cal : Calendar)
    (fromISO : string -> Z) fuel args (s : YouTubeService P) :
  let options := Fetcher.parse_args args Fetcher.no_options in
  let run := fetcher_main cal fromISO fuel args s in
  (or_null (Fetcher.disease options) = None ->
   or_null (Fetcher.videoId options) = None ->
   run = (Ok Usage, s))
  /\ (forall videoId, or_null (Fetcher.videoId options) = Some videoId ->
      exists out,
        run.1 = Ok (Written out) /\ (length out <= 1)%nat
        /\ trace run.2 = trace s ++ [EvVideosList [videoId]])
  /\ run.1 <> Ok Failed
  /\ (forall e, run.1 <> Throw e).
Proof.
  cbn zeta. pose proof (fetcher_main_run cal fromISO fuel args s) as Hrun.
  cbn zeta in Hrun.
  destruct (or_null (Fetcher.disease _)) as [disease|],
           (or_null (Fetcher.videoId _)) as [videoId|].
  - destruct Hrun as (video & p & ->).
    split; [done|]. split; [|done]. intros ? [= <-].
    eexists. split; [done|]. split; [|done]. destruct video; simpl; lia.
  - split; [done|]. split; [done|].
    destruct (fetcher_search _ _ _ _ _ _) as [[vs|e|] s']; by rewrite Hrun.
  - destruct Hrun as (video & p & ->).
    split; [done|]. split; [|done]. intros ? [= <-].
    eexists. split; [done|]. split; [|done]. destruct video; simpl; lia.
  - rewrite Hrun. by repeat split.
Qed.

Lemma fetcher_main_modes_witness :
  let args := ["--disease"; "asthma"; "--video-id"; "a1"] in
  let run := fetcher_main (provider := catalogue_provider two_windows) fixed_calendar
               (fun _ => 0) 4 args (fresh_service [] 1000) in
  or_null (Fetcher.videoId (Fetcher.parse_args args Fetcher.no_options)) = Some "a1"
  /\ exists out,
       run.1 = Ok (Written out) /\ (length out <= 1)%nat
       /\ trace run.2 = [] ++ [EvVideosList ["a1"]].
Proof.
  intros args run. split; [reflexivity|].
  exact (proj1 (proj2 (fetcher_main_modes (provider := catalogue_provider two_windows)
                         fixed_calendar (fun _ => 0) 4 args (fresh_service [] 1000)))
           "a1" eq_refl).
Defined.

(** X16. Every record that [main] writes carries one search name: the
    disease when one is given, and the video id otherwise; the name
    ["unknown"] of the code is never used. *)
Theorem fetcher_main_search_name {P : Type} {provider : Provider P} (cal : Calendar)
    (fromISO : string -> Z) fuel args (s : YouTubeService P) out :
  let options := Fetcher.parse_args args Fetcher.no_options in
  (fetcher_main cal fromISO fuel args s).1 = Ok (Written out) ->
  exists name,
    (or_null (Fetcher.disease options) = Some name
     \/ or_null (Fetcher.disease options) = None
        /\ or_null (Fetcher.videoId options) = Some name)
    /\ Forall (fun record => record.2 = name) out.
Proof.
  cbn zeta. pose proof (fetcher_main_run cal fromISO fuel args s) as Hrun.
  cbn zeta in Hrun.
  destruct (or_null (Fetcher.disease _)) as [disease|] eqn:Hd,
           (or_null (Fetcher.videoId _)) as [videoId|] eqn:Hv.
  - destruct Hrun as (video & p & ->). intros [= <-]. exists disease.
    split; [auto|].
    assert (Hname : or_else (Some disease) (or_else (Some videoId) "unknown")
                    = disease).
    { by apply (or_null_Some _ _ Hd). }
    destruct video; repeat constructor. exact Hname.
  - destruct (fetcher_search _ _ _ _ _ _) as [[vs|e|] s']; rewrite Hrun;
      try done.
    intros [= <-]. exists disease. split; [auto|].
    clear. induction vs as [|video vs IH]; simpl; by constructor.
  - destruct Hrun as (video & p & ->). intros [= <-]. exists videoId.
    split; [auto|].
    assert (Hname : or_else None (or_else (Some videoId) "unknown") = videoId).
    { by apply (or_null_Some _ _ Hv). }
    destruct video; repeat constructor. exact Hname.
  - by rewrite Hrun.
Qed.

Lemma fetcher_main_search_name_witness :
  let args := ["--disease"; "asthma"; "--start-date"; "1970-01-01";
               "--end-date"; "1970-12-27"] in
  let fromISO := fun d : string => if String.eqb d "1970-01-01" then 0 else 2 * D180 in
  exists out name,
    (fetcher_main (provider := catalogue_provider two_windows) fixed_calendar fromISO
       4 args (fresh_service [] 1000)).1 = Ok (Written out)
    /\ name = "asthma"
    /\ length out = 3%nat
    /\ Forall (fun record => record.2 = name) out.
Proof.
  intros args fromISO.
  eassert (Hrun : (fetcher_main (provider := catalogue_provider two_windows)
                     fixed_calendar fromISO 4 args (fresh_service [] 1000)).1
                  = Ok (Written _)).
  { vm_compute. reflexivity. }
  destruct (fetcher_main_search_name (provider := catalogue_provider two_windows)
              fixed_calendar fromISO 4 args (fresh_service [] 1000) _ Hrun)
    as (name & [Hname|[Hname _]] & Hall).
  - eexists _, name. split; [exact Hrun|]. split; [|split; [reflexivity|exact Hall]].
    vm_compute in Hname. by injection Hname as <-.
  - vm_compute in Hname. discriminate Hname.
Defined.
